(** * VidStab: trajectory smoothing and transform compensation

    A shallow embedding of [vidstab/VidStab.py] (class [VidStab]) and of
    the properties its specification states about it.

    - Floating-point scalars are an abstract carrier [F] with the
      operations the code applies to them (class [Scalar]); no algebraic
      law is assumed unless a statement says so, hence every equation
      proved here is an equation between the very expressions the code
      evaluates, in the order it evaluates them.
    - OpenCV (colour conversion, key-point detection, optical flow, rigid
      fit, border, warp) is an interface (class [OpenCV]).
    - An instance of the Python class is the record [VidStab]; methods
      are computations in a state-and-exception monad in which the state
      survives a raised exception, as attributes of [self] do.
    - The progress bar, the preview window and the settle delay for
      capture devices have no effect on the instance and are left out;
      the key polled during playback is kept, since it can end the
      loop. *)

From Stdlib Require Import String ZArith QArith Lia Bool Arith PeanoNat List.
Import ListNotations.

Close Scope Q_scope.
Open Scope nat_scope.
Set Implicit Arguments.

(** ** Scalars and 3-component rows *)

(** What the code does with floats: [+], [-], division by [float(n)],
    unary minus, [np.cos], [np.sin], [np.arctan2], and the literal [0]. *)
Class Scalar (F : Type) := {
  fzero : F;
  fadd : F -> F -> F;
  fsub : F -> F -> F;
  fdiv_nat : F -> nat -> F;
  fneg : F -> F;
  fcos : F -> F;
  fsin : F -> F;
  farctan2 : F -> F -> F
}.

(** A row [[dx, dy, da]] of a transform or trajectory array. *)
Record vec3 (F : Type) := mkVec { vx : F; vy : F; va : F }.
Arguments mkVec {F} _ _ _.

(** A 2x3 affine matrix, row major. *)
Record mat23 (F : Type) := mkMat {
  m00 : F; m01 : F; m02 : F;
  m10 : F; m11 : F; m12 : F
}.
Arguments mkMat {F} _ _ _ _ _ _.

Section Rows.
Context {F : Type} {SF : Scalar F}.

Definition vzero : vec3 F := mkVec fzero fzero fzero.

(** [[a[j] + x for j, x in enumerate(b)]] and numpy's row-wise [+]. *)
Definition vadd (a b : vec3 F) : vec3 F :=
  mkVec (fadd (vx a) (vx b)) (fadd (vy a) (vy b)) (fadd (va a) (va b)).

Definition vsub (a b : vec3 F) : vec3 F :=
  mkVec (fsub (vx a) (vx b)) (fsub (vy a) (vy b)) (fsub (va a) (va b)).

Definition vdiv (a : vec3 F) (n : nat) : vec3 F :=
  mkVec (fdiv_nat (vx a) n) (fdiv_nat (vy a) n) (fdiv_nat (va a) n).

(** Elementwise arithmetic of two numpy arrays of rows, with numpy's
    broadcasting: arrays with the same number of rows combine row by row,
    an array of a single row combines with each row of a longer one, and
    any other pair of shapes raises [ValueError] ([None]). The empty
    array is [np.array([])], of shape [(0,)], which combines with another
    empty array only. *)
Definition arr_zip (op : vec3 F -> vec3 F -> vec3 F) (a b : list (vec3 F))
  : option (list (vec3 F)) :=
  if length a =? length b
  then Some (map (fun p => op (fst p) (snd p)) (combine a b))
  else
    match a, b with
    | [x], _ :: _ => Some (map (fun y => op x y) b)
    | _ :: _, [y] => Some (map (fun x => op x y) a)
    | _, _ => None
    end.

Definition arr_add := arr_zip vadd.
Definition arr_sub := arr_zip vsub.

(** ** Trajectory accumulation ([_gen_next_raw_transform], lines 126-132) *)

(** [if not self._trajectory: append(transform_i[:])
     else: append([self._trajectory[-1][j] + x ...])] *)
Definition append_trajectory (traj : list (vec3 F)) (transform_i : vec3 F)
  : list (vec3 F) :=
  match traj with
  | [] => [transform_i]
  | _ :: _ => traj ++ [vadd (last traj vzero) transform_i]
  end.

(** The left-to-right sum [d0 + d1 + ... + dk] of a non-empty run of
    deltas, bracketed as the running sum computes it. *)
Definition sum_deltas (ds : list (vec3 F)) : option (vec3 F) :=
  match ds with
  | [] => None
  | d0 :: rest => Some (fold_left vadd rest d0)
  end.

End Rows.

(** ** The rolling-mean smoother *)

Section Smoothing.
Context {F : Type} {SF : Scalar F}.

(** Modelled from the spec: [average(T[a..b])], the sum of the rows
    divided by their number. *)
Definition average (l : list (vec3 F)) : vec3 F :=
  vdiv (fold_left vadd l vzero) (length l).

(** Modelled from the spec: [T[i-w+1 .. i]], the [w] rows ending at
    index [i]. *)
Definition window (T : list (vec3 F)) (w i : nat) : list (vec3 F) :=
  firstn w (skipn (S i - w) T).

(** Modelled from the spec: the trailing rolling mean [mean_i], defined
    only for [i >= w-1] ([None]: undefined). *)
Definition mean_at (T : list (vec3 F)) (w i : nat) : option (vec3 F) :=
  if w - 1 <=? i then Some (average (window T w i)) else None.

Definition rolling_mean (T : list (vec3 F)) (w : nat)
  : list (option (vec3 F)) :=
  map (mean_at T w) (seq 0 (length T)).

(** Modelled from the spec: back-fill (glossary), an undefined leading
    value is replaced by the first defined value that follows it. *)
Fixpoint bfill {A : Type} (l : list (option A)) : list (option A) :=
  match l with
  | [] => []
  | Some v :: rest => Some v :: bfill rest
  | None :: rest => hd None (bfill rest) :: bfill rest
  end.

(** Modelled from the spec: [utils.bfill_rolling_mean], imported by
    [VidStab.py] from a module that is not among the sources. Section 4.3
    of the specification: a trailing rolling mean of window [w] over each
    component, undefined for [i < w-1], then back-filled. *)
Definition bfill_rolling_mean (T : list (vec3 F)) (w : nat)
  : list (option (vec3 F)) :=
  bfill (rolling_mean T w).

(** The rows of an array, when every one of them is defined. *)
Fixpoint all_defined {A : Type} (l : list (option A)) : option (list A) :=
  match l with
  | [] => Some []
  | Some v :: rest =>
    match all_defined rest with
    | Some r => Some (v :: r)
    | None => None
    end
  | None :: _ => None
  end.

End Smoothing.

(** ** Python containers and exceptions *)

Fixpoint last_error {A : Type} (l : list A) : option A :=
  match l with
  | [] => None
  | [x] => Some x
  | _ :: r => last_error r
  end.

(** [collections.deque(maxlen=n)]: appending to a full deque discards
    the leftmost item (and a deque of capacity 0 stays empty). *)
Record deque (A : Type) := mkDeque { maxlen : nat; items : list A }.

Definition deque_new (A : Type) (n : nat) : deque A := mkDeque n [].

Definition deque_append {A : Type} (d : deque A) (x : A) : deque A :=
  if length (items d) <? maxlen d
  then mkDeque (maxlen d) (items d ++ [x])
  else mkDeque (maxlen d) (tl (items d ++ [x])).

Definition deque_popleft {A : Type} (d : deque A) : option (A * deque A) :=
  match items d with
  | [] => None
  | x :: r => Some (x, mkDeque (maxlen d) r)
  end.

Inductive exn : Type :=
| IndexError
| KeyError (key : string)
| ValueError (msg : string)
| TypeError
| AttributeError
| cv2_error
| SmootherError
| FuelExhausted.

(** ** Methods as computations over the instance

    A method maps the instance to an outcome (a raised exception or a
    value) and the instance left behind: attribute updates made before a
    [raise] stay. *)
Definition M (St A : Type) : Type := St -> (exn + A) * St.

Definition ret {St A : Type} (a : A) : M St A := fun st => (inr a, st).

Definition bind {St A B : Type} (m : M St A) (k : A -> M St B) : M St B :=
  fun st =>
    match m st with
    | (inr a, st') => k a st'
    | (inl e, st') => (inl e, st')
    end.

Definition raise {St A : Type} (e : exn) : M St A := fun st => (inl e, st).

Definition gets {St A : Type} (f : St -> A) : M St A :=
  fun st => (inr (f st), st).

Definition modify {St : Type} (f : St -> St) : M St unit :=
  fun st => (inr tt, f st).

Definition expect {St A : Type} (e : exn) (o : option A) : M St A :=
  match o with
  | Some a => ret a
  | None => raise e
  end.

Notation "x <- m ;; k" := (bind m (fun x => k))
  (at level 61, m at next level, right associativity).
Notation "m ;;; k" := (bind m (fun _ => k))
  (at level 61, right associativity).

(** [max_frames]: [float('inf')] or an integer ([None] is not
    modelled). *)
Inductive frame_cap : Type :=
| Unbounded
| AtMost (n : Z).

(** [i >= max_frames] *)
Definition reaches_cap (i : Z) (c : frame_cap) : bool :=
  match c with
  | Unbounded => false
  | AtMost n => (n <=? i)%Z
  end.

(** [i >= max_frames - 1] *)
Definition reaches_cap_minus_1 (i : Z) (c : frame_cap) : bool :=
  match c with
  | Unbounded => false
  | AtMost n => (n - 1 <=? i)%Z
  end.

(** Python's [a[start:stop]] on an axis of length [n]: a negative bound
    counts from the end, both bounds are clipped to [0..n], and the
    result has [max 0 (stop - start)] entries. *)
Definition py_clip (n v : Z) : Z :=
  if (v <? 0)%Z then Z.max (v + n) 0 else Z.min v n.

Definition py_slice_len (n start stop : Z) : Z :=
  Z.max 0 (py_clip n stop - py_clip n start).

(** ** The OpenCV interface *)

Inductive border_mode : Type :=
| BORDER_CONSTANT
| BORDER_REFLECT
| BORDER_REPLICATE.

(** The OpenCV calls of the class, with the two facts about array shapes
    the code relies on: [warpAffine] returns an image of the requested
    [dsize = (width, height)], and slicing follows Python's rules.
    [calcOpticalFlowPyrLK] and [estimateRigidTransform] can fail: the
    outer [None] is a call that raises [cv2.error] (the fit does on
    arrays without points), [Some None] a call that returns [None] (the
    flow, for its points and status, when it is given no point to track;
    the fit, when it finds no transform). A flow that returns gives the
    tracked points and their status (its error output is unused).
    [waitKey i] is the key code read while the frame of index [i] is
    displayed during playback. The other calls are total; [cvtColor] on
    the missing frame of an exhausted source is modelled in
    [_init_trajectory]. *)
Class OpenCV (F : Type) := {
  Frame : Type;
  Gray : Type;
  Point : Type;
  cvtColor : Frame -> Gray;
  detect : Gray -> list Point;
  calcOpticalFlowPyrLK :
    Gray -> Gray -> list Point -> option (option (list Point * list bool));
  estimateRigidTransform :
    list Point -> list Point -> option (option (mat23 F));
  frame_shape : Frame -> Z * Z;
  copyMakeBorder : Frame -> Z -> Z -> Z -> Z -> border_mode -> Frame;
  warpAffine : Frame -> mat23 F -> Z * Z -> border_mode -> Frame;
  slice2 : Frame -> Z * Z -> Z * Z -> Frame;
  waitKey : nat -> Z;
  warpAffine_shape : forall f m w h b,
    frame_shape (warpAffine f m (w, h) b) = (h, w);
  slice2_shape : forall f r0 r1 c0 c1,
    frame_shape (slice2 f (r0, r1) (c0, c1)) =
    (py_slice_len (fst (frame_shape f)) r0 r1,
     py_slice_len (snd (frame_shape f)) c0 c1)
}.

(** Modelled from the spec: [utils.bfill_rolling_mean], imported from a
    module that is not part of the sources at hand. The class takes it as
    a parameter ([None]: it raised) under the contract of section 4.3 of
    the specification, [smooth(trajectory, window) -> SmoothedTrajectory],
    same length as input. *)
Class Smoother (F : Type) := {
  smooth : list (vec3 F) -> nat -> option (list (vec3 F));
  smooth_length : forall T w S, smooth T w = Some S -> length S = length T
}.

(** [cv2.VideoCapture]: the decoded frames and the read cursor. *)
Record VideoCapture (A : Type) := mkCapture {
  vc_frames : list A;
  vc_pos : nat;
  vc_fps : Z
}.

(** [vid_cap.read()] *)
Definition vc_read {A : Type} (vc : VideoCapture A)
  : option A * VideoCapture A :=
  match nth_error (vc_frames vc) (vc_pos vc) with
  | Some f => (Some f, mkCapture (vc_frames vc) (S (vc_pos vc)) (vc_fps vc))
  | None => (None, vc)
  end.

(** [cv2.VideoWriter]: what it was opened with and the frames written. *)
Record VideoWriter (A : Type) := mkWriter {
  vw_path : string;
  vw_fourcc : string;
  vw_fps : Z;
  vw_size : Z * Z;
  vw_frames : list A;
  vw_released : bool
}.

(** ** The class [VidStab] *)

Section Model.
Context {F : Type} {SF : Scalar F} {CV : OpenCV F} {SM : Smoother F}.

(** One pass through the rendering part of the loop of
    [_apply_transforms]: the frame popped from the queue with its index,
    the row of [self.transforms] read for it, the cropped warp, the
    background held in [prev_frame], and the image handed on. The last
    three fields are the attributes [_raw_transforms], [trajectory] and
    [smoothed_trajectory] as they stood when the row was read. *)
Record RenderEvent (A : Type) := mkEvent {
  ev_index : nat;
  ev_frame : A;
  ev_transform : vec3 F;
  ev_warped : A;
  ev_background : A;
  ev_out : A;
  ev_raw : list (vec3 F);
  ev_trajectory : option (list (vec3 F));
  ev_smoothed : option (list (vec3 F))
}.

(** The attributes of an instance. [frame_queue], [frame_queue_inds] and
    [vid_cap] are [None] after [__init__]; every public method assigns
    them before anything reads them, so they carry no option here.
    [render_log] and [estimations] are ghost: the passes through the
    rendering code and the number of calls to
    [cv2.estimateRigidTransform]. *)
Record VidStab := mkVidStab {
  _smoothing_window : option nat;
  _raw_transforms : list (vec3 F);
  _trajectory : list (vec3 F);
  trajectory : option (list (vec3 F));
  smoothed_trajectory : option (list (vec3 F));
  transforms : option (list (vec3 F));
  frame_queue : deque Frame;
  frame_queue_inds : deque nat;
  prev_kps : option (list Point);
  prev_gray : option Gray;
  vid_cap : VideoCapture Frame;
  writer : option (VideoWriter Frame);
  render_log : list (RenderEvent Frame);
  estimations : nat
}.

Definition upd__smoothing_window (v : option nat) (st : VidStab) : VidStab :=
  {| _smoothing_window := v; _raw_transforms := _raw_transforms st;
     _trajectory := _trajectory st; trajectory := trajectory st;
     smoothed_trajectory := smoothed_trajectory st;
     transforms := transforms st; frame_queue := frame_queue st;
     frame_queue_inds := frame_queue_inds st; prev_kps := prev_kps st;
     prev_gray := prev_gray st; vid_cap := vid_cap st; writer := writer st;
     render_log := render_log st; estimations := estimations st |}.

Definition upd__raw_transforms (v : list (vec3 F)) (st : VidStab) : VidStab :=
  {| _smoothing_window := _smoothing_window st; _raw_transforms := v;
     _trajectory := _trajectory st; trajectory := trajectory st;
     smoothed_trajectory := smoothed_trajectory st;
     transforms := transforms st; frame_queue := frame_queue st;
     frame_queue_inds := frame_queue_inds st; prev_kps := prev_kps st;
     prev_gray := prev_gray st; vid_cap := vid_cap st; writer := writer st;
     render_log := render_log st; estimations := estimations st |}.

Definition upd__trajectory (v : list (vec3 F)) (st : VidStab) : VidStab :=
  {| _smoothing_window := _smoothing_window st;
     _raw_transforms := _raw_transforms st; _trajectory := v;
     trajectory := trajectory st;
     smoothed_trajectory := smoothed_trajectory st;
     transforms := transforms st; frame_queue := frame_queue st;
     frame_queue_inds := frame_queue_inds st; prev_kps := prev_kps st;
     prev_gray := prev_gray st; vid_cap := vid_cap st; writer := writer st;
     render_log := render_log st; estimations := estimations st |}.

Definition upd_trajectory (v : option (list (vec3 F)))
  (st : VidStab) : VidStab :=
  {| _smoothing_window := _smoothing_window st;
     _raw_transforms := _raw_transforms st; _trajectory := _trajectory st;
     trajectory := v; smoothed_trajectory := smoothed_trajectory st;
     transforms := transforms st; frame_queue := frame_queue st;
     frame_queue_inds := frame_queue_inds st; prev_kps := prev_kps st;
     prev_gray := prev_gray st; vid_cap := vid_cap st; writer := writer st;
     render_log := render_log st; estimations := estimations st |}.

Definition upd_smoothed_trajectory (v : option (list (vec3 F)))
  (st : VidStab) : VidStab :=
  {| _smoothing_window := _smoothing_window st;
     _raw_transforms := _raw_transforms st; _trajectory := _trajectory st;
     trajectory := trajectory st; smoothed_trajectory := v;
     transforms := transforms st; frame_queue := frame_queue st;
     frame_queue_inds := frame_queue_inds st; prev_kps := prev_kps st;
     prev_gray := prev_gray st; vid_cap := vid_cap st; writer := writer st;
     render_log := render_log st; estimations := estimations st |}.

Definition upd_transforms (v : option (list (vec3 F)))
  (st : VidStab) : VidStab :=
  {| _smoothing_window := _smoothing_window st;
     _raw_transforms := _raw_transforms st; _trajectory := _trajectory st;
     trajectory := trajectory st;
     smoothed_trajectory := smoothed_trajectory st; transforms := v;
     frame_queue := frame_queue st;
     frame_queue_inds := frame_queue_inds st; prev_kps := prev_kps st;
     prev_gray := prev_gray st; vid_cap := vid_cap st; writer := writer st;
     render_log := render_log st; estimations := estimations st |}.

Definition upd_frame_queue (v : deque Frame) (st : VidStab) : VidStab :=
  {| _smoothing_window := _smoothing_window st;
     _raw_transforms := _raw_transforms st; _trajectory := _trajectory st;
     trajectory := trajectory st;
     smoothed_trajectory := smoothed_trajectory st;
     transforms := transforms st; frame_queue := v;
     frame_queue_inds := frame_queue_inds st; prev_kps := prev_kps st;
     prev_gray := prev_gray st; vid_cap := vid_cap st; writer := writer st;
     render_log := render_log st; estimations := estimations st |}.

Definition upd_frame_queue_inds (v : deque nat) (st : VidStab) : VidStab :=
  {| _smoothing_window := _smoothing_window st;
     _raw_transforms := _raw_transforms st; _trajectory := _trajectory st;
     trajectory := trajectory st;
     smoothed_trajectory := smoothed_trajectory st;
     transforms := transforms st; frame_queue := frame_queue st;
     frame_queue_inds := v; prev_kps := prev_kps st;
     prev_gray := prev_gray st; vid_cap := vid_cap st; writer := writer st;
     render_log := render_log st; estimations := estimations st |}.

Definition upd_prev_kps (v : option (list Point)) (st : VidStab) : VidStab :=
  {| _smoothing_window := _smoothing_window st;
     _raw_transforms := _raw_transforms st; _trajectory := _trajectory st;
     trajectory := trajectory st;
     smoothed_trajectory := smoothed_trajectory st;
     transforms := transforms st; frame_queue := frame_queue st;
     frame_queue_inds := frame_queue_inds st; prev_kps := v;
     prev_gray := prev_gray st; vid_cap := vid_cap st; writer := writer st;
     render_log := render_log st; estimations := estimations st |}.

Definition upd_prev_gray (v : option Gray) (st : VidStab) : VidStab :=
  {| _smoothing_window := _smoothing_window st;
     _raw_transforms := _raw_transforms st; _trajectory := _trajectory st;
     trajectory := trajectory st;
     smoothed_trajectory := smoothed_trajectory st;
     transforms := transforms st; frame_queue := frame_queue st;
     frame_queue_inds := frame_queue_inds st; prev_kps := prev_kps st;
     prev_gray := v; vid_cap := vid_cap st; writer := writer st;
     render_log := render_log st; estimations := estimations st |}.

Definition upd_vid_cap (v : VideoCapture Frame) (st : VidStab) : VidStab :=
  {| _smoothing_window := _smoothing_window st;
     _raw_transforms := _raw_transforms st; _trajectory := _trajectory st;
     trajectory := trajectory st;
     smoothed_trajectory := smoothed_trajectory st;
     transforms := transforms st; frame_queue := frame_queue st;
     frame_queue_inds := frame_queue_inds st; prev_kps := prev_kps st;
     prev_gray := prev_gray st; vid_cap := v; writer := writer st;
     render_log := render_log st; estimations := estimations st |}.

Definition upd_writer (v : option (VideoWriter Frame))
  (st : VidStab) : VidStab :=
  {| _smoothing_window := _smoothing_window st;
     _raw_transforms := _raw_transforms st; _trajectory := _trajectory st;
     trajectory := trajectory st;
     smoothed_trajectory := smoothed_trajectory st;
     transforms := transforms st; frame_queue := frame_queue st;
     frame_queue_inds := frame_queue_inds st; prev_kps := prev_kps st;
     prev_gray := prev_gray st; vid_cap := vid_cap st; writer := v;
     render_log := render_log st; estimations := estimations st |}.

Definition upd_render_log (v : list (RenderEvent Frame))
  (st : VidStab) : VidStab :=
  {| _smoothing_window := _smoothing_window st;
     _raw_transforms := _raw_transforms st; _trajectory := _trajectory st;
     trajectory := trajectory st;
     smoothed_trajectory := smoothed_trajectory st;
     transforms := transforms st; frame_queue := frame_queue st;
     frame_queue_inds := frame_queue_inds st; prev_kps := prev_kps st;
     prev_gray := prev_gray st; vid_cap := vid_cap st; writer := writer st;
     render_log := v; estimations := estimations st |}.

Definition upd_estimations (v : nat) (st : VidStab) : VidStab :=
  {| _smoothing_window := _smoothing_window st;
     _raw_transforms := _raw_transforms st; _trajectory := _trajectory st;
     trajectory := trajectory st;
     smoothed_trajectory := smoothed_trajectory st;
     transforms := transforms st; frame_queue := frame_queue st;
     frame_queue_inds := frame_queue_inds st; prev_kps := prev_kps st;
     prev_gray := prev_gray st; vid_cap := vid_cap st; writer := writer st;
     render_log := render_log st; estimations := v |}.

(** [__init__] (lines 78-89); the key-point detector it builds is the
    [detect] of the interface. *)
Definition __init__ : VidStab :=
  {| _smoothing_window := None; _raw_transforms := []; _trajectory := [];
     trajectory := None; smoothed_trajectory := None; transforms := None;
     frame_queue := deque_new Frame 0; frame_queue_inds := deque_new nat 0;
     prev_kps := None; prev_gray := None;
     vid_cap := mkCapture [] 0 0%Z; writer := None;
     render_log := []; estimations := 0 |}.

(** *** [_gen_next_raw_transform] (lines 91-134) *)

(** Lines 99-105: the points whose status is set, by index. *)
Fixpoint select_matched (status : list bool) (i : nat)
  (prev_kps_ cur_kps : list Point) : option (list Point * list Point) :=
  match status with
  | [] => Some ([], [])
  | matched :: rest =>
    if matched then
      match nth_error prev_kps_ i, nth_error cur_kps i,
            select_matched rest (S i) prev_kps_ cur_kps with
      | Some p, Some c, Some (ps, cs) => Some (p :: ps, c :: cs)
      | _, _, _ => None
      end
    else select_matched rest (S i) prev_kps_ cur_kps
  end.

(** Lines 110-120: [[dx, dy, da]] read off the fitted matrix, or zeros. *)
Definition transform_of_fit (transform : option (mat23 F)) : vec3 F :=
  match transform with
  | Some m => mkVec (m02 m) (m12 m) (farctan2 (m10 m) (m00 m))
  | None => mkVec fzero fzero fzero
  end.

(** Lines 126-132: record the delta and extend the running sum. *)
Definition accumulate (st : VidStab) (transform_i : vec3 F) : VidStab :=
  upd__trajectory (append_trajectory (_trajectory st) transform_i)
    (upd__raw_transforms (_raw_transforms st ++ [transform_i]) st).

Definition _gen_next_raw_transform : M VidStab unit :=
  q <- gets frame_queue ;;
  frame <- expect IndexError (last_error (items q)) ;;
  let current_frame_gray := cvtColor frame in
  pg <- gets prev_gray ;;
  pg <- expect cv2_error pg ;;
  pk <- gets prev_kps ;;
  pk <- expect cv2_error pk ;;
  flow <- expect cv2_error (calcOpticalFlowPyrLK pg current_frame_gray pk) ;;
  flow <- expect TypeError flow ;;
  kp <- expect IndexError (select_matched (snd flow) 0 pk (fst flow)) ;;
  modify (fun st => upd_estimations (S (estimations st)) st) ;;;
  transform <- expect cv2_error (estimateRigidTransform (fst kp) (snd kp)) ;;
  let transform_i := transform_of_fit transform in
  modify (upd_prev_gray (Some current_frame_gray)) ;;;
  modify (upd_prev_kps (Some (detect current_frame_gray))) ;;;
  modify (fun st => accumulate st transform_i).

(** *** [_gen_transforms] (lines 314-317) *)
Definition _gen_transforms (smoothing_window : nat) : M VidStab unit :=
  modify (fun st => upd_trajectory (Some (_trajectory st)) st) ;;;
  t <- gets _trajectory ;;
  s <- expect SmootherError (smooth t smoothing_window) ;;
  modify (upd_smoothed_trajectory (Some s)) ;;;
  raw <- gets _raw_transforms ;;
  diff <- expect (ValueError "operands could not be broadcast together")
                 (arr_sub s t) ;;
  tr <- expect (ValueError "operands could not be broadcast together")
               (arr_add raw diff) ;;
  modify (upd_transforms (Some tr)).

(** *** [_init_trajectory] (lines 136-194) *)

(** [read()] on [self.vid_cap]. *)
Definition read_frame : M VidStab (option Frame) :=
  vc <- gets vid_cap ;;
  modify (upd_vid_cap (snd (vc_read vc))) ;;;
  ret (fst (vc_read vc)).

(** Lines 178-181. *)
Definition next_index (inds : deque nat) : deque nat :=
  match last_error (items inds) with
  | None => deque_append inds 0
  | Some l => deque_append inds (S l)
  end.

(** The [while grabbed_frame] loop (lines 169-190); each pass reads a
    frame, so the frames left to read bound the passes. *)
Fixpoint init_loop (fuel : nat) (smoothing_window : nat)
  (max_frames : frame_cap) (gen_all : bool) : M VidStab unit :=
  match fuel with
  | 0 => raise FuelExhausted
  | S fuel' =>
    grabbed <- read_frame ;;
    match grabbed with
    | None => ret tt
    | Some cur_frame =>
      modify (fun st =>
        upd_frame_queue (deque_append (frame_queue st) cur_frame) st) ;;;
      modify (fun st =>
        upd_frame_queue_inds (next_index (frame_queue_inds st)) st) ;;;
      _gen_next_raw_transform ;;;
      if gen_all then init_loop fuel' smoothing_window max_frames gen_all
      else
        inds <- gets frame_queue_inds ;;
        l <- expect IndexError (last_error (items inds)) ;;
        if reaches_cap_minus_1 (Z.of_nat l) max_frames
           || (Z.of_nat smoothing_window - 1 <=? Z.of_nat l)%Z
        then ret tt
        else init_loop fuel' smoothing_window max_frames gen_all
    end
  end.

Definition frames_left (st : VidStab) : nat :=
  length (vc_frames (vid_cap st)) - vc_pos (vid_cap st).

Definition _init_trajectory (smoothing_window : nat)
  (max_frames : frame_cap) (gen_all : bool) : M VidStab unit :=
  grabbed <- read_frame ;;
  prev_frame <- expect cv2_error grabbed ;;
  let prev_frame_gray := cvtColor prev_frame in
  modify (upd_prev_kps (Some (detect prev_frame_gray))) ;;;
  modify (fun st =>
    upd_frame_queue (deque_append (frame_queue st) prev_frame) st) ;;;
  modify (upd_prev_gray (Some prev_frame_gray)) ;;;
  left <- gets frames_left ;;
  init_loop (S left) smoothing_window max_frames gen_all ;;;
  _gen_transforms smoothing_window.

(** *** [_apply_transforms] (lines 205-306) *)

(** Lines 211-214: the dictionary has no entry for ['trail']. *)
Definition border_modes (border_type : string) : option border_mode :=
  if (border_type =? "black")%string then Some BORDER_CONSTANT
  else if (border_type =? "reflect")%string then Some BORDER_REFLECT
  else if (border_type =? "replicate")%string then Some BORDER_REPLICATE
  else None.

Definition valid_border_types : list string :=
  ["black"; "reflect"; "replicate"; "trail"]%string.

(** Lines 216-220: [(border_size, neg_border_size)] after the sign test. *)
Definition border_sizes (border_size : Z) : Z * Z :=
  if (border_size <? 0)%Z then (100, 100 + Z.abs border_size)%Z
  else (border_size, 0%Z).

(** Lines 248-254. *)
Definition affine_matrix (transform_i : vec3 F) : mat23 F :=
  mkMat (fcos (va transform_i)) (fneg (fsin (va transform_i))) (vx transform_i)
        (fsin (va transform_i)) (fcos (va transform_i)) (vy transform_i).

(** Lines 257-271: border, warp, crop. [h] and [w] are the shape of the
    first frame popped plus twice the border. *)
Definition warp_and_crop (border_mode_ : border_mode)
  (border_size neg_border_size h w : Z)
  (frame_i : Frame) (transform : mat23 F) : Frame :=
  let bordered_frame :=
    copyMakeBorder frame_i (border_size * 2) (border_size * 2)
                   (border_size * 2) (border_size * 2) border_mode_ in
  let transformed :=
    warpAffine bordered_frame transform
               (w + border_size * 2, h + border_size * 2)%Z border_mode_ in
  let buffer := (border_size + neg_border_size)%Z in
  slice2 transformed
         (buffer, fst (frame_shape transformed) - buffer)%Z
         (buffer, snd (frame_shape transformed) - buffer)%Z.

(** Lines 273-277. *)
Definition layered (layer_func : option (Frame -> Frame -> Frame))
  (i : nat) (transformed prev_frame : Frame) : Frame :=
  match layer_func with
  | Some f => if 1 <? i then f transformed prev_frame else transformed
  | None => transformed
  end.

Definition next_prev_frame (layer_func : option (Frame -> Frame -> Frame))
  (out prev_frame : Frame) : Frame :=
  match layer_func with
  | Some _ => out
  | None => prev_frame
  end.

(** The image produced for [frame_i] by a call of [_apply_transforms]
    with the given [border_size], whose first popped frame is
    [prev_frame]: lines 216-225 fix the sizes, lines 248-271 render. *)
Definition rendered (border_mode_ : border_mode) (border_size : Z)
  (prev_frame frame_i : Frame) (transform_i : vec3 F) : Frame :=
  let sizes := border_sizes border_size in
  warp_and_crop border_mode_ (fst sizes) (snd sizes)
    (fst (frame_shape prev_frame) + 2 * fst sizes)%Z
    (snd (frame_shape prev_frame) + 2 * fst sizes)%Z
    frame_i (affine_matrix transform_i).

Definition popleft_frame : M VidStab Frame :=
  q <- gets frame_queue ;;
  r <- expect IndexError (deque_popleft q) ;;
  modify (upd_frame_queue (snd r)) ;;;
  ret (fst r).

Definition popleft_index : M VidStab nat :=
  q <- gets frame_queue_inds ;;
  r <- expect IndexError (deque_popleft q) ;;
  modify (upd_frame_queue_inds (snd r)) ;;;
  ret (fst r).

(** [_init_writer] (lines 196-203), called on the first frame written. *)
Definition _init_writer (output_path : string) (shape : Z * Z)
  (output_fourcc : string) : M VidStab unit :=
  fps <- gets (fun st => vc_fps (vid_cap st)) ;;
  modify (upd_writer
    (Some (mkWriter output_path output_fourcc fps (snd shape, fst shape)
                    (@nil Frame) false))).

(** [self.writer.write(frame)] *)
Definition write_frame (frame : Frame) : M VidStab unit :=
  wr <- gets writer ;;
  wr <- expect AttributeError wr ;;
  modify (upd_writer
    (Some (mkWriter (vw_path wr) (vw_fourcc wr) (vw_fps wr) (vw_size wr)
                    (vw_frames wr ++ [frame]) (vw_released wr)))).

(** [self.writer.release()] *)
Definition release_writer : M VidStab unit :=
  wr <- gets writer ;;
  wr <- expect AttributeError wr ;;
  modify (upd_writer
    (Some (mkWriter (vw_path wr) (vw_fourcc wr) (vw_fps wr) (vw_size wr)
                    (vw_frames wr) true))).

Section ApplyLoop.
Variables (output_path : string) (max_frames : frame_cap)
          (smoothing_window : nat) (output_fourcc : string)
          (border_mode_ : border_mode) (border_size neg_border_size h w : Z)
          (layer_func : option (Frame -> Frame -> Frame)) (playback : bool).

(** Lines 234-239. *)
Definition enqueue_frame (grabbed : option Frame) : M VidStab unit :=
  match grabbed with
  | Some next_frame =>
    modify (fun st =>
      upd_frame_queue (deque_append (frame_queue st) next_frame) st) ;;;
    inds <- gets frame_queue_inds ;;
    l <- expect IndexError (last_error (items inds)) ;;
    modify (upd_frame_queue_inds (deque_append inds (S l))) ;;;
    _gen_next_raw_transform ;;;
    _gen_transforms smoothing_window
  | None => ret tt
  end.

(** Lines 241-301: pop the next frame and its index, render, write. The
    result is [None] after a [break], else the new [prev_frame] and the
    unchanged [grabbed_frame]. *)
Definition render_next (prev_frame : Frame) (grabbed_frame : bool)
  : M VidStab (option (Frame * bool)) :=
  i <- popleft_index ;;
  frame_i <- popleft_frame ;;
  ts <- gets transforms ;;
  ts <- expect TypeError ts ;;
  transform_i <- expect IndexError (nth_error ts i) ;;
  if reaches_cap (Z.of_nat i) max_frames then ret None
  else
    let warped :=
      warp_and_crop border_mode_ border_size neg_border_size h w
                    frame_i (affine_matrix transform_i) in
    let transformed := layered layer_func i warped prev_frame in
    modify (fun st =>
      upd_render_log
        (render_log st ++
         [mkEvent i frame_i transform_i warped prev_frame transformed
                  (_raw_transforms st) (trajectory st)
                  (smoothed_trajectory st)]) st) ;;;
    if playback && ((waitKey i =? 113)%Z || (waitKey i =? 27)%Z)
    then ret None
    else
      wr <- gets writer ;;
      match wr with
      | None =>
        _init_writer output_path (frame_shape transformed) output_fourcc
      | Some _ => ret tt
      end ;;;
      write_frame transformed ;;;
      ret (Some (next_prev_frame layer_func transformed prev_frame,
                 grabbed_frame)).

(** One pass of the [while] loop (lines 231-301). *)
Definition apply_iteration (prev_frame : Frame)
  : M VidStab (option (Frame * bool)) :=
  grabbed <- read_frame ;;
  enqueue_frame grabbed ;;;
  render_next prev_frame
    match grabbed with Some _ => true | None => false end.

(** [while len(self.frame_queue) > 0 or grabbed_frame] *)
Fixpoint apply_loop (fuel : nat) (prev_frame : Frame) (grabbed_frame : bool)
  : M VidStab unit :=
  match fuel with
  | 0 => raise FuelExhausted
  | S fuel' =>
    q <- gets frame_queue ;;
    if (0 <? length (items q)) || grabbed_frame then
      r <- apply_iteration prev_frame ;;
      match r with
      | None => ret tt
      | Some next => apply_loop fuel' (fst next) (snd next)
      end
    else ret tt
  end.

End ApplyLoop.

Definition _apply_transforms (output_path : string) (max_frames : frame_cap)
  (smoothing_window : nat) (output_fourcc border_type : string)
  (border_size : Z) (layer_func : option (Frame -> Frame -> Frame))
  (playback : bool) : M VidStab unit :=
  if negb (existsb (String.eqb border_type) valid_border_types)
  then raise (ValueError "Invalid border type")
  else
    border_mode_ <- expect (KeyError border_type) (border_modes border_type) ;;
    let sizes := border_sizes border_size in
    prev_frame <- popleft_frame ;;
    let h := (fst (frame_shape prev_frame) + 2 * fst sizes)%Z in
    let w := (snd (frame_shape prev_frame) + 2 * fst sizes)%Z in
    left <- gets frames_left ;;
    q <- gets frame_queue ;;
    apply_loop output_path max_frames smoothing_window output_fourcc
               border_mode_ (fst sizes) (snd sizes) h w layer_func playback
               (S (left + length (items q))) prev_frame true ;;;
    release_writer.

(** *** The public methods *)

(** [cv2.VideoCapture(input_path)]: the clip behind [input_path] is given
    by its frames and frame rate. *)
Definition open_capture (input : list Frame) (fps : Z) : M VidStab unit :=
  modify (upd_vid_cap (mkCapture input 0 fps)).

(** Lines 369-382 of [stabilize]: open the clip, create the queues and,
    unless stored transforms are to be used, analyse the first frames. *)
Definition stabilize_setup (input : list Frame) (fps : Z)
  (smoothing_window : nat) (max_frames : frame_cap)
  (use_stored_transforms : bool) : M VidStab unit :=
  open_capture input fps ;;;
  modify (upd_frame_queue (deque_new Frame smoothing_window)) ;;;
  modify (upd_frame_queue_inds (deque_new nat smoothing_window)) ;;;
  if negb use_stored_transforms
  then _init_trajectory smoothing_window max_frames false
  else ret tt.

(** [stabilize] (lines 332-390). *)
Definition stabilize (input : list Frame) (fps : Z) (output_path : string)
  (smoothing_window : nat) (max_frames : frame_cap) (border_type : string)
  (border_size : Z) (layer_func : option (Frame -> Frame -> Frame))
  (playback use_stored_transforms : bool) (output_fourcc : string)
  : M VidStab unit :=
  stabilize_setup input fps smoothing_window max_frames
                  use_stored_transforms ;;;
  _apply_transforms output_path max_frames smoothing_window output_fourcc
                    border_type border_size layer_func playback.

(** [gen_transforms] (lines 319-330). *)
Definition gen_transforms (input : list Frame) (fps : Z)
  (smoothing_window : nat) : M VidStab unit :=
  modify (upd__smoothing_window (Some smoothing_window)) ;;;
  open_capture input fps ;;;
  modify (upd_frame_queue (deque_new Frame smoothing_window)) ;;;
  modify (upd_frame_queue_inds (deque_new nat smoothing_window)) ;;;
  _init_trajectory smoothing_window Unbounded true.

(** [apply_transforms] (lines 308-312). The window is the one stored by
    [gen_transforms]. With none stored the call fails inside
    [_init_trajectory] (on [None - 1] once a second frame is read); that
    case is cut short here as a [TypeError] raised at once, without the
    attribute updates the code makes before it fails. *)
Definition apply_transforms (input : list Frame) (fps : Z)
  (output_path output_fourcc border_type : string) (border_size : Z)
  (layer_func : option (Frame -> Frame -> Frame)) (playback : bool) : M VidStab unit :=
  w <- gets _smoothing_window ;;
  match w with
  | Some smoothing_window =>
    stabilize input fps output_path smoothing_window Unbounded border_type
              border_size layer_func playback false output_fourcc
  | None => raise TypeError
  end.

(** *** The plots (lines 392-477)

    What the two plotting methods hand to matplotlib: for each of the two
    axes its lines (label, colour if one is given, data) and its y label,
    and the texts of the figure. The matplotlib calls are taken to
    succeed. *)
Record Line := mkLine {
  line_label : string;
  line_color : option string;
  line_data : list F
}.

Record Axes := mkAxes { ax_lines : list Line; ax_ylabel : string }.

Record Figure := mkFigure {
  fig_axes : Axes * Axes;
  fig_legend : list string;
  fig_xlabel : string;
  fig_suptitle : string;
  fig_window_title : string
}.

(** [arr[:, j]]: the column of an array of rows. The array without rows
    is [np.array([])], which has one dimension, and indexing it with two
    raises [IndexError]. *)
Definition column (component : vec3 F -> F) (arr : list (vec3 F))
  : option (list F) :=
  match arr with
  | [] => None
  | _ :: _ => Some (map component arr)
  end.

Open Scope string_scope.

(** [plot_trajectory] (lines 392-432). *)
Definition plot_trajectory : M VidStab Figure :=
  ts <- gets transforms ;;
  match ts with
  | None => raise AttributeError
  | Some _ =>
    t <- gets trajectory ;;
    t <- expect TypeError t ;;
    tx <- expect IndexError (column (@vx F) t) ;;
    s <- gets smoothed_trajectory ;;
    s <- expect TypeError s ;;
    sx <- expect IndexError (column (@vx F) s) ;;
    ty <- expect IndexError (column (@vy F) t) ;;
    sy <- expect IndexError (column (@vy F) s) ;;
    ret (mkFigure
           (mkAxes [mkLine "Trajectory" None tx;
                    mkLine "Smoothed Trajectory" None sx] "dx",
            mkAxes [mkLine "Trajectory" None ty;
                    mkLine "Smoothed Trajectory" None sy] "dy")
           ["Trajectory"; "Smoothed Trajectory"]
           "Frame Number" "Video Trajectory" "Trajectory")
  end.


Close Scope string_scope.

End Model.

Arguments ev_frame {F A} _.
Arguments ev_out {F A} _.
Arguments ev_warped {F A} _.
Arguments ev_index {F A} _.
Arguments ev_background {F A} _.

(** ** A concrete setting for running the methods

    Rationals for the scalars (the trigonometric entries are
    placeholders), images as the expressions that built them, and the
    smoother of the specification. A source frame [Src id h w] shows a
    scene displaced by [id] along x; a negative [id] is a frame without
    features. *)

Definition Q_scalar : Scalar Q :=
  {| fzero := 0%Q;
     fadd := fun a b => Qred (a + b)%Q;
     fsub := fun a b => Qred (a - b)%Q;
     fdiv_nat := fun a n => Qred (a / inject_Z (Z.of_nat n))%Q;
     fneg := fun a => Qred (- a)%Q;
     fcos := fun _ => 1%Q;
     fsin := fun a => a;
     farctan2 := fun y _ => y |}.

Inductive image : Type :=
| Src (id h w : Z)
| Border (f : image) (top bottom left right : Z) (b : border_mode)
| Warp (f : image) (m : mat23 Q) (dsize : Z * Z) (b : border_mode)
| Slice (f : image) (rows cols : Z * Z)
| Layer (foreground background : image).

Fixpoint image_shape (f : image) : Z * Z :=
  match f with
  | Src _ h w => (h, w)
  | Border g t b l r _ =>
    (fst (image_shape g) + t + b, snd (image_shape g) + l + r)%Z
  | Warp _ _ d _ => (snd d, fst d)
  | Slice g r c =>
    (py_slice_len (fst (image_shape g)) (fst r) (snd r),
     py_slice_len (snd (image_shape g)) (fst c) (snd c))
  | Layer fg _ => image_shape fg
  end.

Definition image_id (f : image) : Z :=
  match f with
  | Src id _ _ => id
  | _ => 0%Z
  end.

(** Key points: one per featured frame, at the scene's displacement. *)
Definition image_detect (f : image) : list Z :=
  if (image_id f <? 0)%Z then [] else [image_id f].

(** The flow returns nothing when it is given no point; a point is
    tracked into a featured frame only. *)
Definition image_flow (prev cur : image) (kps : list Z)
  : option (option (list Z * list bool)) :=
  match kps with
  | [] => Some None
  | _ :: _ =>
    Some (Some (map (fun p => (p + (image_id cur - image_id prev))%Z) kps,
                map (fun _ => (0 <=? image_id cur)%Z) kps))
  end.

(** The fit raises on arrays without points; on a matched pair it
    reports the x displacement, and finds no transform for a jump of
    more than 50 pixels. *)
Definition image_fit (prev cur : list Z) : option (option (mat23 Q)) :=
  match prev, cur with
  | p :: _, c :: _ =>
    if (50 <? Z.abs (c - p))%Z then Some None
    else Some (Some (mkMat 1%Q 0%Q (inject_Z (c - p)) 0%Q 1%Q 0%Q))
  | _, _ => None
  end.

#[refine]
Instance image_cv : OpenCV Q :=
  {| Frame := image; Gray := image; Point := Z;
     cvtColor := fun f => f;
     detect := image_detect;
     calcOpticalFlowPyrLK := image_flow;
     estimateRigidTransform := image_fit;
     frame_shape := image_shape;
     copyMakeBorder := Border;
     warpAffine := Warp;
     slice2 := Slice;
     waitKey := fun _ => 0%Z |}.
Proof.
  - intros; reflexivity.
  - intros; reflexivity.
Defined.

(** Modelled from the spec: the smoother as the class calls it. The
    specification defines every row when the trajectory has at least
    [w] rows; where a row stays undefined the call is taken to fail. *)
Definition spec_smoother {F : Type} {SF : Scalar F} : Smoother F.
Proof.
  refine {| smooth := fun T w => all_defined (bfill_rolling_mean T w) |}.
  intros T w S H.
  assert (Hdef : forall (l : list (option (vec3 F))) (r : list (vec3 F)),
            all_defined l = Some r -> length r = length l).
  { induction l as [|[a|] l IH]; intros r Hr; simpl in Hr.
    - injection Hr as <-. reflexivity.
    - destruct (all_defined l) as [r'|]; [|discriminate].
      injection Hr as <-. simpl. now rewrite (IH r' eq_refl).
    - discriminate. }
  assert (Hfill : forall l : list (option (vec3 F)),
            length (bfill l) = length l).
  { induction l as [|[a|] l IH]; simpl; congruence. }
  rewrite (Hdef _ _ H). unfold bfill_rolling_mean, rolling_mean.
  now rewrite Hfill, length_map, length_seq.
Defined.

(** A clip of [n] frames of 40 x 60 pixels drifting one pixel per frame. *)
Definition clip (n : nat) : list image :=
  map (fun k => Src (Z.of_nat k) 40 60) (seq 0 n).

#[local] Existing Instance Q_scalar.

#[local] Instance Q_smoother : Smoother Q := spec_smoother.

Definition run {A : Type} (m : M (@VidStab Q image_cv) A)
  (st : @VidStab Q image_cv) : (exn + A) * @VidStab Q image_cv := m st.

(** * Specification vocabulary *)

(** The last [k] items of a list. *)
Definition lastn {A : Type} (k : nat) (l : list A) : list A :=
  skipn (length l - k) l.

(** [wp m Q st]: running [m] from [st] ends in an outcome and an
    instance that satisfy [Q]. *)
Definition wp {St A : Type} (m : M St A) (Q : exn + A -> St -> Prop)
  (st : St) : Prop :=
  Q (fst (m st)) (snd (m st)).

(** [m] never ends by raising [e]. *)
Definition never_raises {St A : Type} (e : exn) (m : M St A) : Prop :=
  forall st, fst (m st) <> inl e.

Section Vocabulary.
Context {F : Type} {SF : Scalar F} {CV : OpenCV F} {SM : Smoother F}.

(** [c] is [MotionDelta[i] + (SmoothedTrajectory[i] - Trajectory[i])] for
    the arrays [raw], [S] and [T]. *)
Definition compensated (raw : list (vec3 F)) (S T : option (list (vec3 F)))
  (i : nat) (c : vec3 F) : Prop :=
  exists d s t Sm Tr,
    nth_error raw i = Some d /\ S = Some Sm /\ T = Some Tr /\
    nth_error Sm i = Some s /\ nth_error Tr i = Some t /\
    c = vadd d (vsub s t).

(** The transform of a render event is the compensation for its index,
    computed from the arrays current when the frame was rendered. *)
Definition event_compensated (e : RenderEvent Frame) : Prop :=
  compensated (ev_raw e) (ev_smoothed e) (ev_trajectory e)
              (ev_index e) (ev_transform e).

(** Inside the rendering loop: the event is compensated and its warp is
    the warp of its frame by the affine matrix of its transform, with the
    sizes the loop was entered with. *)
Definition event_ok (b : border_mode) (bs nbs h w : Z)
  (e : RenderEvent Frame) : Prop :=
  event_compensated e /\
  ev_warped e =
  warp_and_crop b bs nbs h w (ev_frame e) (affine_matrix (ev_transform e)).

(** The same for a call of [_apply_transforms] with [border_type] and
    [border_size]: the warp is [rendered] with the mode looked up for the
    type and the first frame popped. *)
Definition event_rendered (border_type : string) (border_size : Z)
  (e : RenderEvent Frame) : Prop :=
  event_compensated e /\
  exists b prev_frame,
    border_modes border_type = Some b /\
    ev_warped e =
    rendered b border_size prev_frame (ev_frame e) (ev_transform e).

(** [self.trajectory] is the array of [self._trajectory], and every row
    of [self.transforms] whose index has a delta and a trajectory row is
    the compensation for that index. *)
Definition transforms_ok (st : VidStab) : Prop :=
  trajectory st = Some (_trajectory st) /\
  forall l i c,
    transforms st = Some l -> nth_error l i = Some c ->
    i < length (_raw_transforms st) -> i < length (_trajectory st) ->
    compensated (_raw_transforms st) (smoothed_trajectory st)
                (trajectory st) i c.

(** Every index in the queue has its delta and its trajectory row. *)
Definition inds_ok (st : VidStab) : Prop :=
  Forall (fun j => j < length (_raw_transforms st) /\
                   j < length (_trajectory st))
         (items (frame_queue_inds st)).

(** The events logged since [st0] all satisfy [P]. *)
Definition log_extended (P : RenderEvent Frame -> Prop) (st0 st : VidStab)
  : Prop :=
  exists evs, render_log st = render_log st0 ++ evs /\ Forall P evs.

(** The attributes a method leaves alone when it only analyses. *)
Definition io_same (st st' : VidStab) : Prop :=
  frame_queue st' = frame_queue st /\
  frame_queue_inds st' = frame_queue_inds st /\
  vid_cap st' = vid_cap st /\
  writer st' = writer st /\
  render_log st' = render_log st.

(** The frames handed to [self.writer.write] so far. *)
Definition written (st : VidStab) : list Frame :=
  match writer st with
  | Some wr => vw_frames wr
  | None => []
  end.




(** The frames still to come through the rendering loop. *)
Definition pending (st : VidStab) : nat :=
  frames_left st + length (items (frame_queue st)).

(** The output of the latest rendering, or [bg] when there is none. *)
Definition last_out (bg : Frame) (evs : list (@RenderEvent F Frame)) : Frame :=
  match last_error evs with
  | Some e => ev_out e
  | None => bg
  end.

(** The layering the code performs with a layering function [f], from
    the background [bg] on: an event of index above 1 is [f] of its warp
    and its background, any other is its plain warp, and the background
    of each event is the output of the one before it. *)
Fixpoint layered_chain (f : Frame -> Frame -> Frame) (bg : Frame)
  (evs : list (@RenderEvent F Frame)) : Prop :=
  match evs with
  | [] => True
  | e :: rest =>
    ev_background e = bg /\
    ev_out e = (if 1 <? ev_index e then f (ev_warped e) bg else ev_warped e) /\
    layered_chain f (ev_out e) rest
  end.

(** The same for a whole log, the first background being the one the
    first event records. *)
Definition layered_log (f : Frame -> Frame -> Frame)
  (evs : list (@RenderEvent F Frame)) : Prop :=
  match evs with
  | [] => True
  | e :: _ => layered_chain f (ev_background e) evs
  end.

(** The frames and indices of a run of renderings: the frames are
    consecutive frames of [input] from position [p] on, the indices are
    consecutive from [s] on, and none of them has reached the cap. *)
Definition render_trace (input : list Frame) (max_frames : frame_cap)
  (p s : nat) (evs : list (@RenderEvent F Frame)) : Prop :=
  map ev_frame evs = firstn (length evs) (skipn p input) /\
  map ev_index evs = seq s (length evs) /\
  Forall (fun e => reaches_cap (Z.of_nat (ev_index e)) max_frames = false) evs.

(** Frames and indices are in step (the frame at position [i + 1] is
    rendered with index [i]), or one apart, which needs a clip of
    exactly [w + 1] frames. *)
Definition in_step (input : list Frame) (w p s : nat)
  (evs : list (@RenderEvent F Frame)) : Prop :=
  s <= 1 /\
  (p = s + 1 \/
   (p = 2 /\ s = 0 /\ (evs <> [] -> length input = w + 1))).

(** During the first loop of a call on [input] with window [w]: the
    queues hold the latest [w] frames read and the latest [w] indices. *)
Definition init_exact (input : list Frame) (w : nat) (st0 st : VidStab)
  : Prop :=
  vc_frames (vid_cap st) = input /\
  1 <= vc_pos (vid_cap st) <= length input /\
  maxlen (frame_queue st) = w /\ maxlen (frame_queue_inds st) = w /\
  items (frame_queue st) = lastn w (firstn (vc_pos (vid_cap st)) input) /\
  items (frame_queue_inds st) = lastn w (seq 0 (vc_pos (vid_cap st) - 1)) /\
  render_log st = render_log st0 /\ written st = written st0.

(** The renderings since [st0], at any point of the second loop. *)
Definition render_done (input : list Frame) (w : nat)
  (max_frames : frame_cap) (st0 : VidStab) (p : nat) (st : VidStab) : Prop :=
  vc_frames (vid_cap st) = input /\
  vc_pos (vid_cap st) <= length input /\
  exists evs s,
    render_log st = render_log st0 ++ evs /\
    render_trace input max_frames p s evs /\
    in_step input w p s evs /\
    p + length evs <= vc_pos (vid_cap st).

(** Between reading and rendering: the queue holds the frames read and
    not yet rendered, the index queue [k] consecutive indices, and every
    rendering so far was written. *)
Definition render_mid (input : list Frame) (w : nat)
  (max_frames : frame_cap) (st0 : VidStab) (p : nat) (st : VidStab) : Prop :=
  vc_frames (vid_cap st) = input /\
  vc_pos (vid_cap st) <= length input /\
  maxlen (frame_queue st) = w /\ maxlen (frame_queue_inds st) = w /\
  length (items (frame_queue st)) <= w /\
  exists evs s k,
    render_log st = render_log st0 ++ evs /\
    written st = written st0 ++ map ev_out evs /\
    render_trace input max_frames p s evs /\
    s <= 1 /\
    (p = s + 1 \/ (p = 2 /\ s = 0 /\ length input = w + 1)) /\
    items (frame_queue st) =
      skipn (p + length evs) (firstn (vc_pos (vid_cap st)) input) /\
    p + length evs <= vc_pos (vid_cap st) /\
    items (frame_queue_inds st) = seq (s + length evs) k /\
    k <= w.

(** At the head of the second loop: the frame queue has room for one
    more frame, and the index queue has too, unless nothing has been
    rendered yet and the first loop has filled it; frames and indices
    are in step, or will be once the full index queue drops its head, or
    are one apart on a clip of [w + 1] frames. *)
Definition render_head (input : list Frame) (w : nat)
  (max_frames : frame_cap) (st0 : VidStab) (p : nat) (st : VidStab) : Prop :=
  vc_frames (vid_cap st) = input /\
  vc_pos (vid_cap st) <= length input /\
  maxlen (frame_queue st) = w /\ maxlen (frame_queue_inds st) = w /\
  length (items (frame_queue st)) < w /\
  exists evs s k,
    render_log st = render_log st0 ++ evs /\
    written st = written st0 ++ map ev_out evs /\
    render_trace input max_frames p s evs /\
    s <= 1 /\
    items (frame_queue st) =
      skipn (p + length evs) (firstn (vc_pos (vid_cap st)) input) /\
    p + length evs <= vc_pos (vid_cap st) /\
    items (frame_queue_inds st) = seq (s + length evs) k /\
    (p = s + 1 /\ k < w \/
     k = w /\ evs = [] /\ s = 0 /\ p = 2 /\ vc_pos (vid_cap st) = w + 1 \/
     p = 2 /\ s = 0 /\ length input = w + 1 /\ k < w).



(** The writer of [st] seen from the instance [st0] a call started
    with: the writer [st0] held, with more frames, or, when it held
    none, none or one opened by this call for its first frame. *)
Definition writer_kept (output_path output_fourcc : string) (fps : Z)
  (st0 st : VidStab) : Prop :=
  match writer st0 with
  | Some wr0 =>
    exists fs released,
      writer st = Some (mkWriter (vw_path wr0) (vw_fourcc wr0) (vw_fps wr0)
                          (vw_size wr0) (vw_frames wr0 ++ fs) released)
  | None =>
    writer st = None \/
    exists f fs released,
      writer st = Some (mkWriter output_path output_fourcc fps
                          (snd (frame_shape f), fst (frame_shape f))
                          (f :: fs) released)
  end.

(** A call that rendered every frame from position [p] on and wrote
    every rendering. *)
Definition full_run (input : list Frame) (w : nat)
  (max_frames : frame_cap) (st0 : VidStab) (p : nat) (st : VidStab) : Prop :=
  exists evs s,
    render_log st = render_log st0 ++ evs /\
    written st = written st0 ++ map ev_out evs /\
    render_trace input max_frames p s evs /\
    in_step input w p s evs /\
    p + length evs = length input.

End Vocabulary.

(** The exceptions raised by the border-type code of
    [_apply_transforms]. *)
Definition border_exn (e : exn) : Prop :=
  e = ValueError "Invalid border type" \/ exists k, e = KeyError k.

(** Exceptions foreign to the two analysis methods. *)
Definition foreign_exn (e : exn) : Prop :=
  border_exn e \/ e = FuelExhausted.

(** * Properties *)

Unset Implicit Arguments.

(** ** Lists *)

Lemma last_error_snoc {A : Type} (l : list A) (x : A) :
  last_error (l ++ [x]) = Some x.
Proof.
  induction l as [|a l IH]; [reflexivity|].
  simpl. rewrite IH. destruct (l ++ [x]) eqn:E; [|reflexivity].
  destruct l; discriminate.
Qed.

Lemma last_error_last {A : Type} (l : list A) (d x : A) :
  last_error l = Some x -> last l d = x.
Proof.
  induction l as [|a l IH]; [discriminate|].
  destruct l as [|b l]; simpl in *; [congruence|]. exact IH.
Qed.

Lemma last_error_nth {A : Type} (l : list A) :
  last_error l = nth_error l (length l - 1).
Proof.
  induction l as [|a l IH]; [reflexivity|].
  destruct l as [|b l]; [reflexivity|].
  change (last_error (a :: b :: l)) with (last_error (b :: l)).
  rewrite IH. simpl. now rewrite Nat.sub_0_r.
Qed.

Lemma firstn_snoc_nth {A : Type} (l : list A) (n : nat) (x : A) :
  nth_error l n = Some x -> firstn (S n) l = firstn n l ++ [x].
Proof.
  revert n; induction l as [|a l IH]; intros [|n] H; try discriminate.
  - simpl in H. injection H as ->. reflexivity.
  - simpl in H. rewrite !firstn_cons, (IH _ H). reflexivity.
Qed.

(** ** C3: the trajectory is the running sum of the deltas *)

Section Accumulation.
Context {F : Type} {SF : Scalar F} {CV : OpenCV F}.

Lemma sum_deltas_snoc (ds : list (vec3 F)) (d s : vec3 F) :
  sum_deltas ds = Some s -> sum_deltas (ds ++ [d]) = Some (vadd s d).
Proof.
  destruct ds as [|d0 rest]; [discriminate|].
  simpl. intros [= <-]. now rewrite fold_left_app.
Qed.

Lemma append_trajectory_length (traj : list (vec3 F)) (d : vec3 F) :
  length (append_trajectory traj d) = S (length traj).
Proof.
  destruct traj; [reflexivity|].
  unfold append_trajectory. rewrite length_app. simpl. lia.
Qed.

Lemma accumulate_all_snoc (st : VidStab) (ds : list (vec3 F)) (d : vec3 F) :
  fold_left accumulate (ds ++ [d]) st = accumulate (fold_left accumulate ds st) d.
Proof. now rewrite fold_left_app. Qed.

Lemma accumulate_trajectory (st : VidStab) (d : vec3 F) :
  _trajectory (accumulate st d) = append_trajectory (_trajectory st) d.
Proof. reflexivity. Qed.

Lemma accumulate_raw_transforms (st : VidStab) (d : vec3 F) :
  _raw_transforms (accumulate st d) = _raw_transforms st ++ [d].
Proof. reflexivity. Qed.

Lemma accumulate_raw (ds : list (vec3 F)) :
  _raw_transforms (fold_left accumulate ds __init__) = ds.
Proof.
  induction ds as [|d ds IH] using rev_ind; [reflexivity|].
  rewrite accumulate_all_snoc, accumulate_raw_transforms. now rewrite IH.
Qed.

Lemma accumulate_length (ds : list (vec3 F)) :
  length (_trajectory (fold_left accumulate ds __init__)) = length ds.
Proof.
  induction ds as [|d ds IH] using rev_ind; [reflexivity|].
  rewrite accumulate_all_snoc, accumulate_trajectory.
  rewrite append_trajectory_length, IH, length_app. simpl. lia.
Qed.

Lemma accumulate_nth (ds : list (vec3 F)) (i : nat) :
  i < length ds ->
  nth_error (_trajectory (fold_left accumulate ds __init__)) i =
  sum_deltas (firstn (S i) ds).
Proof.
  revert i. induction ds as [|d ds IH] using rev_ind; intros i Hi.
  - simpl in Hi. lia.
  - rewrite accumulate_all_snoc, accumulate_trajectory.
    pose proof (accumulate_length ds) as Hlen.
    rewrite length_app in Hi. simpl in Hi.
    set (T := _trajectory (fold_left accumulate ds __init__)) in *.
    destruct (Nat.eq_dec i (length ds)) as [->|Hne].
    + rewrite firstn_all2 by (rewrite length_app; simpl; lia).
      destruct ds as [|d0 rest].
      * destruct T; [reflexivity|discriminate].
      * assert (HT : nth_error T (length (d0 :: rest) - 1) =
                     sum_deltas (d0 :: rest)).
        { rewrite IH by (simpl; lia).
          replace (S (length (d0 :: rest) - 1)) with (length (d0 :: rest))
            by (simpl; lia).
          now rewrite firstn_all. }
        rewrite <- Hlen, <- last_error_nth in HT.
        destruct T as [|t0 T']; [discriminate|].
        unfold append_trajectory.
        rewrite nth_error_app2 by lia.
        rewrite Hlen, Nat.sub_diag. simpl nth_error.
        simpl sum_deltas in *. rewrite fold_left_app. simpl.
        do 2 f_equal. apply last_error_last with (d := vzero) in HT.
        exact HT.
    + assert (Hlt : i < length ds) by lia.
      rewrite firstn_app.
      replace (S i - length ds) with 0 by lia.
      simpl firstn at 2. rewrite app_nil_r.
      rewrite <- IH by exact Hlt.
      destruct T as [|t0 T'].
      * simpl in Hlen. lia.
      * unfold append_trajectory. apply nth_error_app1. lia.
Qed.

(** C3. Starting from a fresh instance and accumulating the deltas [ds]
    in order (lines 126-132 of [_gen_next_raw_transform]), the recorded
    deltas are [ds], the trajectory has one row per delta, row [i] is
    the sum of deltas [0..i] taken componentwise in that order, the first
    row is the first delta, and each later row is the row before it plus
    its delta. *)
Theorem trajectory_is_running_sum (ds : list (vec3 F)) :
  let st := fold_left accumulate ds __init__ in
  _raw_transforms st = ds /\
  length (_trajectory st) = length ds /\
  (forall i, i < length ds ->
     nth_error (_trajectory st) i = sum_deltas (firstn (S i) ds)) /\
  hd_error (_trajectory st) = hd_error ds /\
  (forall i t d,
     nth_error (_trajectory st) i = Some t ->
     nth_error ds (S i) = Some d ->
     nth_error (_trajectory st) (S i) = Some (vadd t d)).
Proof.
  cbv zeta. split; [apply accumulate_raw|].
  split; [apply accumulate_length|].
  split; [intros i Hi; now apply accumulate_nth|].
  split.
  - destruct ds as [|d0 rest]; [reflexivity|].
    pose proof (accumulate_nth (d0 :: rest) 0) as H.
    simpl in H. specialize (H ltac:(lia)).
    destruct (_trajectory _); [discriminate|].
    simpl in *. exact H.
  - intros i t d Ht Hd.
    assert (Hi : S i < length ds) by (apply nth_error_Some; congruence).
    rewrite accumulate_nth by exact Hi.
    rewrite accumulate_nth in Ht by lia.
    rewrite (firstn_snoc_nth _ _ _ Hd).
    now apply sum_deltas_snoc.
Qed.

End Accumulation.

(** ** C1: the back-filled rolling mean *)

Section SmoothingFacts.
Context {F : Type} {SF : Scalar F}.

Lemma bfill_defined {A : Type} (l : list A) :
  bfill (map Some l) = map Some l.
Proof.
  induction l as [|a l IH]; [reflexivity|]. simpl. now rewrite IH.
Qed.

(** A run of undefined values takes the first defined value after it. *)
Lemma bfill_prefix {A : Type} (k : nat) (x : A) (l : list A) :
  bfill (repeat None k ++ map Some (x :: l)) =
  repeat (Some x) k ++ map Some (x :: l).
Proof.
  induction k as [|k IH].
  - apply bfill_defined.
  - cbn [repeat app bfill]. rewrite IH.
    destruct k; reflexivity.
Qed.

Lemma mean_at_undefined (T : list (vec3 F)) (w : nat) (l : list nat) :
  (forall i, In i l -> i < w - 1) ->
  map (mean_at T w) l = repeat None (length l).
Proof.
  induction l as [|a l IH]; intros H; [reflexivity|].
  simpl. rewrite IH by (intros; apply H; now right).
  unfold mean_at. destruct (Nat.leb_spec (w - 1) a) as [Hle|_]; [|reflexivity].
  specialize (H a (or_introl eq_refl)). lia.
Qed.

Lemma mean_at_defined (T : list (vec3 F)) (w : nat) (l : list nat) :
  (forall i, In i l -> w - 1 <= i) ->
  map (mean_at T w) l = map Some (map (fun i => average (window T w i)) l).
Proof.
  induction l as [|a l IH]; intros H; [reflexivity|].
  simpl. rewrite IH by (intros; apply H; now right).
  unfold mean_at. destruct (Nat.leb_spec (w - 1) a) as [_|Hlt]; [reflexivity|].
  specialize (H a (or_introl eq_refl)). lia.
Qed.

Lemma rolling_mean_split (T : list (vec3 F)) (w : nat) :
  1 <= w -> w <= length T ->
  rolling_mean T w =
  repeat None (w - 1) ++
  map Some (map (fun i => average (window T w i))
                (seq (w - 1) (length T - (w - 1)))).
Proof.
  intros Hw Hlen. unfold rolling_mean.
  replace (length T) with ((w - 1) + (length T - (w - 1))) at 1 by lia.
  rewrite seq_app, map_app. f_equal.
  - rewrite mean_at_undefined.
    + now rewrite length_seq.
    + intros i Hi. apply in_seq in Hi. lia.
  - apply mean_at_defined. intros i Hi. apply in_seq in Hi. lia.
Qed.

Lemma bfill_rolling_mean_split (T : list (vec3 F)) (w : nat) :
  1 <= w -> w <= length T ->
  bfill_rolling_mean T w =
  repeat (Some (average (window T w (w - 1)))) (w - 1) ++
  map Some (map (fun i => average (window T w i))
                (seq (w - 1) (length T - (w - 1)))).
Proof.
  intros Hw Hlen. unfold bfill_rolling_mean.
  rewrite rolling_mean_split by assumption.
  destruct (length T - (w - 1)) as [|n] eqn:E; [lia|].
  cbn [seq map]. apply (bfill_prefix (w - 1)).
Qed.

Lemma nth_error_repeat_lt {A : Type} (x : A) (k i : nat) :
  i < k -> nth_error (repeat x k) i = Some x.
Proof.
  revert i; induction k as [|k IH]; intros [|i] H; try lia; [reflexivity|].
  simpl. apply IH. lia.
Qed.

Lemma window_length (T : list (vec3 F)) (w i : nat) :
  w - 1 <= i -> i < length T -> length (window T w i) = w.
Proof.
  intros H1 H2. unfold window.
  rewrite length_firstn, length_skipn. lia.
Qed.

Lemma all_defined_map_Some {A : Type} (l : list A) :
  all_defined (map Some l) = Some l.
Proof.
  induction l as [|a l IH]; [reflexivity|]. simpl. now rewrite IH.
Qed.

Lemma all_defined_length {A : Type} (l : list (option A)) (r : list A) :
  all_defined l = Some r -> l = map Some r.
Proof.
  revert r; induction l as [|[a|] l IH]; intros r H; simpl in H.
  - injection H as <-. reflexivity.
  - destruct (all_defined l) as [r'|]; [|discriminate].
    injection H as <-. simpl. now rewrite (IH r' eq_refl).
  - discriminate.
Qed.

Lemma bfill_length {A : Type} (l : list (option A)) :
  length (bfill l) = length l.
Proof.
  induction l as [|[a|] l IH]; simpl; congruence.
Qed.

(** With at least [w] rows every row of the back-filled mean is defined. *)
Lemma bfill_rolling_mean_defined (T : list (vec3 F)) (w : nat) :
  1 <= w -> w <= length T ->
  bfill_rolling_mean T w =
  map Some (repeat (average (window T w (w - 1))) (w - 1) ++
            map (fun i => average (window T w i))
                (seq (w - 1) (length T - (w - 1)))).
Proof.
  intros Hw Hlen. rewrite bfill_rolling_mean_split by assumption.
  now rewrite map_app, map_repeat.
Qed.

(** C1. For a window [w >= 1] and a trajectory of at least [w] rows, the
    smoother returns a smoothed trajectory with as many rows as the
    trajectory; row [i] is the mean of the [w] rows [i-w+1 .. i] for
    [i >= w-1]; and every row before [w-1] equals row [w-1]. The mean is
    taken on each of the three components ([average] is built from [vadd]
    and [vdiv]). *)
Theorem bfill_rolling_mean_correct (T : list (vec3 F)) (w : nat) :
  1 <= w -> w <= length T ->
  exists S,
    smooth (Smoother := spec_smoother) T w = Some S /\
    length S = length T /\
    (forall i, w - 1 <= i -> i < length T ->
       nth_error S i = Some (average (window T w i)) /\
       length (window T w i) = w) /\
    (forall i, i < w - 1 -> nth_error S i = nth_error S (w - 1)).
Proof.
  intros Hw Hlen.
  exists (repeat (average (window T w (w - 1))) (w - 1) ++
          map (fun i => average (window T w i))
              (seq (w - 1) (length T - (w - 1)))).
  assert (Hmid : forall i, w - 1 <= i -> i < length T ->
            nth_error (repeat (average (window T w (w - 1))) (w - 1) ++
                       map (fun i => average (window T w i))
                           (seq (w - 1) (length T - (w - 1)))) i
            = Some (average (window T w i))).
  { intros i H1 H2.
    rewrite nth_error_app2 by (rewrite repeat_length; exact H1).
    rewrite repeat_length, nth_error_map, nth_error_seq.
    destruct (Nat.ltb_spec (i - (w - 1)) (length T - (w - 1))); [|lia].
    simpl. replace (w - 1 + (i - (w - 1))) with i by lia. reflexivity. }
  split; [|split; [|split]].
  - cbn [smooth spec_smoother].
    rewrite bfill_rolling_mean_defined by assumption.
    apply all_defined_map_Some.
  - rewrite length_app, repeat_length, length_map, length_seq. lia.
  - intros i H1 H2. split; [now apply Hmid | now apply window_length].
  - intros i Hi. rewrite (Hmid (w - 1)) by lia.
    rewrite nth_error_app1 by (rewrite repeat_length; exact Hi).
    now apply nth_error_repeat_lt.
Qed.

(** Whenever the smoother returns, its result has the input's length. *)
Lemma spec_smoother_length (T S : list (vec3 F)) (w : nat) :
  smooth (Smoother := spec_smoother) T w = Some S -> length S = length T.
Proof.
  simpl. intros H. apply all_defined_length in H.
  apply (f_equal (@length _)) in H.
  rewrite length_map in H. rewrite <- H.
  unfold bfill_rolling_mean, rolling_mean.
  now rewrite bfill_length, length_map, length_seq.
Qed.

End SmoothingFacts.

(** The scenario of the specification: window 5 over the single
    component [1..7] gives means 3, 4, 5 at indices 4..6 and 3 before. *)
Example bfill_rolling_mean_scenario :
  map (option_map (@vx Q))
      (bfill_rolling_mean (SF := Q_scalar)
         (map (fun k => mkVec (inject_Z k) 0%Q 0%Q) [1; 2; 3; 4; 5; 6; 7]%Z) 5)
  = map Some [3; 3; 3; 3; 3; 4; 5]%Q.
Proof. vm_compute. reflexivity. Qed.

Lemma bfill_rolling_mean_correct_witness :
  let T := map (fun k => mkVec (inject_Z k) 0%Q 0%Q) [1; 2; 3; 4; 5; 6; 7]%Z in
  exists S,
    smooth (Smoother := spec_smoother (SF := Q_scalar)) T 5 = Some S /\
    length S = length T /\
    (forall i, 5 - 1 <= i -> i < length T ->
       nth_error S i = Some (average (SF := Q_scalar) (window T 5 i)) /\
       length (window T 5 i) = 5) /\
    (forall i, i < 5 - 1 -> nth_error S i = nth_error S (5 - 1)).
Proof.
  intro T. apply (bfill_rolling_mean_correct (SF := Q_scalar) T 5).
  - lia.
  - simpl. lia.
Defined.

(** ** C9: the sign of [border_size] *)

Section BorderSize.
Context {F : Type} {SF : Scalar F} {CV : OpenCV F}.

Lemma py_slice_len_crop (n a : Z) :
  (0 <= a)%Z -> (2 * a <= n)%Z -> py_slice_len n a (n - a) = (n - 2 * a)%Z.
Proof.
  intros Ha Hn. unfold py_slice_len, py_clip.
  destruct (Z.ltb_spec (n - a) 0); destruct (Z.ltb_spec a 0); lia.
Qed.

(** The shape of a rendered frame, when the crop fits inside the warp. *)
Lemma rendered_shape (b : border_mode) (border_size : Z)
  (prev_frame frame_i : Frame) (t : vec3 F) (H W : Z) :
  frame_shape prev_frame = (H, W) ->
  let bs := fst (border_sizes border_size) in
  let nbs := snd (border_sizes border_size) in
  (0 <= bs + nbs)%Z ->
  (2 * (bs + nbs) <= H + 4 * bs)%Z -> (2 * (bs + nbs) <= W + 4 * bs)%Z ->
  frame_shape (rendered b border_size prev_frame frame_i t) =
  (H + 2 * bs - 2 * nbs, W + 2 * bs - 2 * nbs)%Z.
Proof.
  intros Hs bs nbs H0 HH HW. unfold rendered, warp_and_crop.
  fold bs nbs. rewrite slice2_shape, warpAffine_shape, Hs. cbn [fst snd].
  rewrite !py_slice_len_crop by lia. f_equal; lia.
Qed.

(** C9, amended. For [k > 0] and frames of at least [2k] pixels in each
    dimension, rendering with [border_size = k] gives [2k] more pixels
    per dimension than the frame, rendering with [border_size = -k]
    gives [2k] fewer, the two differ by [4k], and the negative case is
    strictly smaller than the output for [border_size = 0]. A negative
    size is replaced by a border of 100 with [neg_border_size = 100 + k],
    and its output is the output for a border of 100 cropped by a
    further [100 + k] on each side. *)
Theorem border_size_sign (b : border_mode) (prev_frame frame_i : Frame)
  (t : vec3 F) (k H W : Z) :
  frame_shape prev_frame = (H, W) ->
  (0 < k)%Z -> (2 * k <= H)%Z -> (2 * k <= W)%Z ->
  let pos := frame_shape (rendered b k prev_frame frame_i t) in
  let neg := frame_shape (rendered b (- k) prev_frame frame_i t) in
  let zero := frame_shape (rendered b 0 prev_frame frame_i t) in
  let hundred := frame_shape (rendered b 100 prev_frame frame_i t) in
  pos = (H + 2 * k, W + 2 * k)%Z /\
  neg = (H - 2 * k, W - 2 * k)%Z /\
  zero = (H, W) /\
  (fst pos - fst neg = 4 * k)%Z /\ (snd pos - snd neg = 4 * k)%Z /\
  (fst neg < fst zero)%Z /\ (snd neg < snd zero)%Z /\
  border_sizes (- k) = (100, 100 + k)%Z /\
  neg = (fst hundred - 2 * (100 + k), snd hundred - 2 * (100 + k))%Z.
Proof.
  intros Hs Hk HH HW.
  assert (Hneg : border_sizes (- k) = (100, 100 + k)%Z).
  { unfold border_sizes. destruct (Z.ltb_spec (- k) 0); [|lia].
    f_equal. lia. }
  assert (Hpos : forall z, (0 <= z)%Z -> border_sizes z = (z, 0%Z)).
  { intros z Hz. unfold border_sizes. destruct (Z.ltb_spec z 0); [lia|].
    reflexivity. }
  cbv zeta.
  rewrite (rendered_shape b k _ _ _ H W Hs);
    rewrite ?(Hpos k) by lia; cbn [fst snd]; try lia.
  rewrite (rendered_shape b (- k) _ _ _ H W Hs);
    rewrite ?Hneg; cbn [fst snd]; try lia.
  rewrite (rendered_shape b 0 _ _ _ H W Hs);
    rewrite ?(Hpos 0%Z) by lia; cbn [fst snd]; try lia.
  rewrite (rendered_shape b 100 _ _ _ H W Hs);
    rewrite ?(Hpos 100%Z) by lia; cbn [fst snd]; try lia.
  repeat split; try (f_equal; lia); lia.
Qed.

End BorderSize.

Lemma border_size_sign_witness :
  let f := Src 0 40 60 in
  let pos := image_shape (rendered BORDER_CONSTANT 5 f f (mkVec 0 0 0)%Q) in
  let neg := image_shape (rendered BORDER_CONSTANT (- 5) f f (mkVec 0 0 0)%Q) in
  let zero := image_shape (rendered BORDER_CONSTANT 0 f f (mkVec 0 0 0)%Q) in
  let hundred :=
    image_shape (rendered BORDER_CONSTANT 100 f f (mkVec 0 0 0)%Q) in
  pos = (40 + 2 * 5, 60 + 2 * 5)%Z /\
  neg = (40 - 2 * 5, 60 - 2 * 5)%Z /\
  zero = (40, 60)%Z /\
  (fst pos - fst neg = 4 * 5)%Z /\ (snd pos - snd neg = 4 * 5)%Z /\
  (fst neg < fst zero)%Z /\ (snd neg < snd zero)%Z /\
  border_sizes (- 5) = (100, 100 + 5)%Z /\
  neg = (fst hundred - 2 * (100 + 5), snd hundred - 2 * (100 + 5))%Z.
Proof.
  apply (border_size_sign (CV := image_cv) BORDER_CONSTANT
           (Src 0 40 60) (Src 0 40 60) (mkVec 0 0 0)%Q 5 40 60).
  - reflexivity.
  - lia.
  - lia.
  - lia.
Defined.

(** C9 as stated fails on a frame smaller than [2k]: a 10 x 10 frame with
    [k = 20] is rendered 50 x 50 with the positive border and empty with
    the negative one, a difference of 50 pixels and not [4k = 80]. *)
Lemma border_size_sign_counterexample :
  let f := Src 0 10 10 in
  let pos := image_shape (rendered BORDER_CONSTANT 20 f f (mkVec 0 0 0)%Q) in
  let neg := image_shape (rendered BORDER_CONSTANT (- 20) f f (mkVec 0 0 0)%Q) in
  pos = (50, 50)%Z /\ neg = (0, 0)%Z /\ (fst pos - fst neg <> 4 * 20)%Z.
Proof.
  cbv zeta. split; [|split].
  - vm_compute. reflexivity.
  - vm_compute. reflexivity.
  - vm_compute. discriminate.
Qed.

(** ** C7: a failed fit yields a zero delta *)

Section FailedFit.
Context {F : Type} {SF : Scalar F} {CV : OpenCV F}.

Lemma append_trajectory_last (traj : list (vec3 F)) (t d : vec3 F) :
  last_error traj = Some t ->
  append_trajectory traj d = traj ++ [vadd t d].
Proof.
  intros H. destruct traj as [|a l]; [discriminate|].
  unfold append_trajectory.
  now rewrite (last_error_last _ vzero _ H).
Qed.

Lemma append_trajectory_last_error (traj : list (vec3 F)) (d : vec3 F) :
  last_error (append_trajectory traj d) =
  Some (match last_error traj with
        | Some t => vadd t d
        | None => d
        end).
Proof.
  destruct traj as [|a l]; [reflexivity|].
  destruct (last_error (a :: l)) as [t|] eqn:E.
  - rewrite (append_trajectory_last _ _ _ E). apply last_error_snoc.
  - rewrite last_error_nth in E. apply nth_error_None in E. simpl in E. lia.
Qed.

(** C7, amended. When the rigid fit on the matched points returns no
    transform, [_gen_next_raw_transform] returns normally, the delta
    recorded for the pair is [(0, 0, 0)], the trajectory gains one row,
    and, where adding zero leaves the last row unchanged, that row
    repeats the last one, so that the next delta [d] is added to the
    same position [t] as if the pair had not occurred. The code has no
    test on the number of matched points: they are handed to the fit as
    they are, however few. *)
Theorem zero_delta_on_failed_fit (st : VidStab) (frame : Frame) (pg : Gray)
  (pk cur_kps : list Point) (status : list bool)
  (prev_matched_kp cur_matched_kp : list Point) :
  last_error (items (frame_queue st)) = Some frame ->
  prev_gray st = Some pg ->
  prev_kps st = Some pk ->
  calcOpticalFlowPyrLK pg (cvtColor frame) pk = Some (Some (cur_kps, status)) ->
  select_matched status 0 pk cur_kps = Some (prev_matched_kp, cur_matched_kp) ->
  estimateRigidTransform prev_matched_kp cur_matched_kp = Some None ->
  (forall t, last_error (_trajectory st) = Some t -> vadd t vzero = t) ->
  exists st',
    _gen_next_raw_transform st = (inr tt, st') /\
    _raw_transforms st' = _raw_transforms st ++ [vzero] /\
    length (_trajectory st') = S (length (_trajectory st)) /\
    (_trajectory st = [] -> _trajectory st' = [vzero]) /\
    (forall t, last_error (_trajectory st) = Some t ->
       _trajectory st' = _trajectory st ++ [t] /\
       forall d, _trajectory (accumulate st' d) =
                 _trajectory st ++ [t; vadd t d]).
Proof.
  intros Hq Hg Hk Hflow Hsel Hfit Hid.
  eexists. split.
  - unfold _gen_next_raw_transform, bind, gets, expect, modify, ret.
    cbn. rewrite Hq. cbn. rewrite Hg, Hk. cbn. rewrite Hflow. cbn.
    rewrite Hsel. cbn. rewrite Hfit. reflexivity.
  - cbn. split; [reflexivity|].
    split; [apply append_trajectory_length|].
    split.
    + intros ->. reflexivity.
    + intros t Ht.
      assert (E : append_trajectory (_trajectory st) vzero
                  = _trajectory st ++ [t]).
      { rewrite (append_trajectory_last _ _ _ Ht). now rewrite (Hid t Ht). }
      split; [exact E|].
      intros d. unfold vzero in E. rewrite E.
      rewrite (append_trajectory_last _ t d) by apply last_error_snoc.
      now rewrite <- app_assoc.
Qed.

End FailedFit.

(** A jump of 99 pixels between two featured frames: the fit finds no
    transform. *)
Lemma zero_delta_on_failed_fit_witness :
  let st : @VidStab Q image_cv :=
    upd__trajectory [mkVec 1 0 0]%Q
      (upd__raw_transforms [mkVec 1 0 0]%Q
        (upd_prev_gray (Some (Src 1 40 60))
          (upd_prev_kps (Some [1%Z])
            (upd_frame_queue (mkDeque 3 [Src 1 40 60; Src 100 40 60])
                             __init__)))) in
  exists st',
    _gen_next_raw_transform st = (inr tt, st') /\
    _raw_transforms st' = _raw_transforms st ++ [vzero] /\
    length (_trajectory st') = S (length (_trajectory st)) /\
    (_trajectory st = [] -> _trajectory st' = [vzero]) /\
    (forall t, last_error (_trajectory st) = Some t ->
       _trajectory st' = _trajectory st ++ [t] /\
       forall d, _trajectory (accumulate st' d) =
                 _trajectory st ++ [t; vadd t d]).
Proof.
  intro st.
  apply (zero_delta_on_failed_fit (SF := Q_scalar) (CV := image_cv) st
           (Src 100 40 60) (Src 1 40 60) [1%Z] [100%Z] [true]
           [1%Z] [100%Z]).
  - reflexivity.
  - reflexivity.
  - reflexivity.
  - reflexivity.
  - reflexivity.
  - reflexivity.
  - intros t Ht. vm_compute in Ht. injection Ht as <-. reflexivity.
Defined.

(** Too few matched points are not a failed fit. A featureless frame
    after a featured one: no point is matched, the fit is called on
    arrays without points and raises, and no delta is recorded. On the
    next pair the flow is given no point, returns nothing, and the loop
    over its status raises. Neither is caught: an analysis of a clip
    with such a frame ends in the exception. *)
Lemma zero_delta_on_failed_fit_counterexample :
  let featureless := Src (-1) 40 60 in
  let st : @VidStab Q image_cv :=
    upd__trajectory [mkVec 1 0 0]%Q
      (upd__raw_transforms [mkVec 1 0 0]%Q
        (upd_prev_gray (Some (Src 1 40 60))
          (upd_prev_kps (Some [1%Z])
            (upd_frame_queue (mkDeque 3 [Src 1 40 60; featureless])
                             __init__)))) in
  let st2 : @VidStab Q image_cv :=
    upd_prev_gray (Some featureless)
      (upd_prev_kps (Some (image_detect featureless))
         (upd_frame_queue (mkDeque 3 [featureless; Src 2 40 60]) st)) in
  image_flow (Src 1 40 60) featureless [1%Z]
  = Some (Some ([(-1)%Z], [false])) /\
  select_matched (CV := image_cv) [false] 0 [1%Z] [(-1)%Z] = Some ([], []) /\
  fst (_gen_next_raw_transform st) = inl cv2_error /\
  _raw_transforms (snd (_gen_next_raw_transform st)) = _raw_transforms st /\
  _trajectory (snd (_gen_next_raw_transform st)) = _trajectory st /\
  fst (_gen_next_raw_transform st2) = inl TypeError /\
  fst (run (gen_transforms
              [Src 0 40 60; Src 1 40 60; featureless; Src 2 40 60] 30 3)
           __init__) = inl cv2_error.
Proof. vm_compute. repeat split. Qed.

(** ** Reasoning about methods: weakest preconditions *)

Section WP.
Context {St : Type}.

Lemma wp_bind {A B : Type} (m : M St A) (k : A -> M St B)
  (Q : exn + B -> St -> Prop) (st : St) :
  wp m (fun r s => match r with
                   | inr a => wp (k a) Q s
                   | inl e => Q (inl e) s
                   end) st ->
  wp (bind m k) Q st.
Proof.
  unfold wp, bind. destruct (m st) as [[e|a] s]; simpl; auto.
Qed.

Lemma wp_mono {A : Type} (m : M St A) (Q Q' : exn + A -> St -> Prop)
  (st : St) :
  wp m Q st -> (forall r s, Q r s -> Q' r s) -> wp m Q' st.
Proof. unfold wp. auto. Qed.

Lemma wp_ret {A : Type} (a : A) (Q : exn + A -> St -> Prop) (st : St) :
  Q (inr a) st -> wp (ret a) Q st.
Proof. auto. Qed.

Lemma wp_raise {A : Type} (e : exn) (Q : exn + A -> St -> Prop) (st : St) :
  Q (inl e) st -> wp (raise e) Q st.
Proof. auto. Qed.

Lemma wp_gets {A : Type} (f : St -> A) (Q : exn + A -> St -> Prop) (st : St) :
  Q (inr (f st)) st -> wp (gets f) Q st.
Proof. auto. Qed.

Lemma wp_modify (f : St -> St) (Q : exn + unit -> St -> Prop) (st : St) :
  Q (inr tt) (f st) -> wp (modify f) Q st.
Proof. auto. Qed.

Lemma wp_expect {A : Type} (e : exn) (o : option A)
  (Q : exn + A -> St -> Prop) (st : St) :
  match o with Some a => Q (inr a) st | None => Q (inl e) st end ->
  wp (expect e o) Q st.
Proof. destruct o; auto. Qed.

Lemma wp_bind_ret {A B : Type} (a : A) (k : A -> M St B)
  (Q : exn + B -> St -> Prop) (st : St) :
  wp (k a) Q st -> wp (bind (ret a) k) Q st.
Proof. auto. Qed.

Lemma wp_bind_raise {A B : Type} (e : exn) (k : A -> M St B)
  (Q : exn + B -> St -> Prop) (st : St) :
  Q (inl e) st -> wp (bind (raise e) k) Q st.
Proof. auto. Qed.

Lemma wp_bind_gets {A B : Type} (f : St -> A) (k : A -> M St B)
  (Q : exn + B -> St -> Prop) (st : St) :
  wp (k (f st)) Q st -> wp (bind (gets f) k) Q st.
Proof. auto. Qed.

Lemma wp_bind_modify {B : Type} (f : St -> St) (k : unit -> M St B)
  (Q : exn + B -> St -> Prop) (st : St) :
  wp (k tt) Q (f st) -> wp (bind (modify f) k) Q st.
Proof. auto. Qed.

Lemma wp_bind_expect {A B : Type} (e : exn) (o : option A) (k : A -> M St B)
  (Q : exn + B -> St -> Prop) (st : St) :
  match o with Some a => wp (k a) Q st | None => Q (inl e) st end ->
  wp (bind (expect e o) k) Q st.
Proof. destruct o; auto. Qed.

Lemma wp_bind_assoc {A B C : Type} (m : M St A) (f : A -> M St B)
  (k : B -> M St C) (Q : exn + C -> St -> Prop) (st : St) :
  wp (bind m (fun a => bind (f a) k)) Q st -> wp (bind (bind m f) k) Q st.
Proof.
  unfold wp, bind. destruct (m st) as [[e|a] s]; simpl; auto.
Qed.

Lemma wp_conj {A : Type} (m : M St A)
  (Q1 Q2 : exn + A -> St -> Prop) (st : St) :
  wp m Q1 st -> wp m Q2 st -> wp m (fun r s => Q1 r s /\ Q2 r s) st.
Proof. unfold wp. auto. Qed.

(** A method followed by a continuation, through a specification of the
    method. *)
Lemma wp_bind_spec {A B : Type} (m : M St A) (k : A -> M St B)
  (P : exn + A -> St -> Prop) (Q : exn + B -> St -> Prop) (st : St) :
  wp m P st ->
  (forall e s, P (inl e) s -> Q (inl e) s) ->
  (forall a s, P (inr a) s -> wp (k a) Q s) ->
  wp (bind m k) Q st.
Proof.
  intros Hm He Ha. apply wp_bind. eapply wp_mono; [exact Hm|].
  intros [e|a] s H; auto.
Qed.

End WP.

(** One step through the code of a method. *)
Ltac wp_step :=
  lazymatch goal with
  | |- wp (bind (gets _) _) _ _ => apply wp_bind_gets; cbv beta
  | |- wp (bind (modify _) _) _ _ => apply wp_bind_modify; cbv beta
  | |- wp (bind (ret _) _) _ _ => apply wp_bind_ret; cbv beta
  | |- wp (bind (raise _) _) _ _ => apply wp_bind_raise
  | |- wp (bind (expect _ ?o) _) _ _ =>
    apply wp_bind_expect; destruct o eqn:?; cbv beta
  | |- wp (bind (match ?x with _ => _ end) _) _ _ => destruct x eqn:?
  | |- wp (bind (bind _ _) _) _ _ => apply wp_bind_assoc; cbv beta
  | |- wp (let _ := _ in _) _ _ => cbv zeta
  | |- wp (ret _) _ _ => apply wp_ret
  | |- wp (raise _) _ _ => apply wp_raise
  | |- wp (gets _) _ _ => apply wp_gets
  | |- wp (modify _) _ _ => apply wp_modify
  | |- wp (expect _ ?o) _ _ => apply wp_expect; destruct o eqn:?
  | |- wp (match ?x with _ => _ end) _ _ => destruct x eqn:?
  end.

Ltac wp_steps := repeat wp_step.

(** ** C2: the transform applied to a rendered frame *)

Section Compensation.
Context {F : Type} {SF : Scalar F} {CV : OpenCV F} {SM : Smoother F}.

Lemma arr_zip_nth (op : vec3 F -> vec3 F -> vec3 F) (a b r : list (vec3 F))
  (i : nat) (c : vec3 F) :
  arr_zip op a b = Some r -> nth_error r i = Some c ->
  i < length a -> i < length b ->
  exists x y, nth_error a i = Some x /\ nth_error b i = Some y /\ c = op x y.
Proof.
  unfold arr_zip. destruct (length a =? length b) eqn:E.
  - intros [= <-] H _ _. clear E. revert b i H.
    induction a as [|x a IH]; intros [|y b] [|i] H;
      simpl in H; try discriminate.
    + injection H as <-. exists x, y. auto.
    + apply (IH b i H).
  - apply Nat.eqb_neq in E.
    destruct a as [|x [|x' a]], b as [|y [|y' b]];
      simpl in *; try discriminate; try lia.
    all: intros [= <-] H Ha Hb; assert (i = 0) by lia; subst i.
    all: simpl in H; injection H as <-; exists x, y; auto.
Qed.

Lemma arr_zip_length (op : vec3 F -> vec3 F -> vec3 F)
  (a b r : list (vec3 F)) :
  length a = length b -> arr_zip op a b = Some r -> length r = length b.
Proof.
  intros E. unfold arr_zip. rewrite (proj2 (Nat.eqb_eq _ _) E).
  intros [= <-]. rewrite length_map, length_combine. lia.
Qed.

Lemma gen_next_raw_transform_spec (st : VidStab) :
  wp _gen_next_raw_transform
     (fun _ st' =>
        io_same st st' /\
        transforms st' = transforms st /\
        trajectory st' = trajectory st /\
        smoothed_trajectory st' = smoothed_trajectory st /\
        exists l, _raw_transforms st' = _raw_transforms st ++ l) st.
Proof.
  unfold _gen_next_raw_transform, io_same. wp_steps; cbn;
    repeat split; try (exists []; now rewrite app_nil_r).
  eexists. reflexivity.
Qed.

(** A successful estimation adds one row to each of the two lists. *)
Lemma gen_next_raw_transform_rows (st : VidStab) :
  wp _gen_next_raw_transform
     (fun r st' =>
        r = inr tt ->
        length (_raw_transforms st') = S (length (_raw_transforms st)) /\
        length (_trajectory st') = S (length (_trajectory st))) st.
Proof.
  unfold _gen_next_raw_transform. wp_steps; cbn; try discriminate.
  intros _. rewrite length_app, append_trajectory_length. simpl. lia.
Qed.

Lemma gen_transforms_spec (w : nat) (st : VidStab) :
  wp (_gen_transforms w)
     (fun r st' =>
        io_same st st' /\
        _raw_transforms st' = _raw_transforms st /\
        (r = inr tt -> transforms_ok st')) st.
Proof.
  unfold _gen_transforms, io_same. wp_steps; cbn;
    repeat split; try discriminate.
  intros rows i0 c0 [= <-] Hc Hraw Htraj. cbn in Hraw, Htraj.
  match goal with
  | H1 : arr_add _ ?diff = Some _, H2 : arr_sub ?sm _ = Some ?diff,
    H3 : smooth _ _ = Some ?sm |- _ =>
    pose proof (smooth_length _ _ H3) as Hlen;
    pose proof (arr_zip_length _ _ _ _ Hlen H2) as Hlen';
    cbn in Hlen, Hlen';
    assert (Hdiff : i0 < length diff) by lia;
    assert (Hsm : i0 < length sm) by lia;
    destruct (arr_zip_nth _ _ _ _ _ _ H1 Hc Hraw Hdiff)
      as (d & y & Hd & Hy & ->);
    destruct (arr_zip_nth _ _ _ _ _ _ H2 Hy Hsm Htraj)
      as (s & t & Hs & Ht & ->)
  end.
  exists d, s, t. eexists. eexists. repeat split; eauto.
Qed.

Lemma gen_transforms_rows (w : nat) (st : VidStab) :
  wp (_gen_transforms w) (fun _ st' => _trajectory st' = _trajectory st) st.
Proof. unfold _gen_transforms. wp_steps; reflexivity. Qed.

Lemma log_extended_same (P : RenderEvent Frame -> Prop)
  (st0 st st' : VidStab) :
  render_log st' = render_log st -> log_extended P st0 st ->
  log_extended P st0 st'.
Proof. intros E (evs & H & Hall). exists evs. rewrite E. auto. Qed.

Lemma log_extended_nil (P : RenderEvent Frame -> Prop) (st0 st : VidStab) :
  render_log st = render_log st0 -> log_extended P st0 st.
Proof. intros E. exists []. rewrite app_nil_r. auto. Qed.

Lemma log_extended_impl (P P' : RenderEvent Frame -> Prop)
  (st0 st : VidStab) :
  (forall e, P e -> P' e) -> log_extended P st0 st -> log_extended P' st0 st.
Proof.
  intros HP (evs & H & Hall). exists evs. split; [exact H|].
  eapply Forall_impl; [exact HP|exact Hall].
Qed.

(** The queue of indices *)

Lemma Forall_tl {A : Type} (P : A -> Prop) (l : list A) :
  Forall P l -> Forall P (tl l).
Proof. intros H. destruct H; [constructor|assumption]. Qed.

Lemma deque_append_Forall {A : Type} (P : A -> Prop) (d : deque A) (x : A) :
  Forall P (items d) -> P x -> Forall P (items (deque_append d x)).
Proof.
  intros H Hx.
  assert (Hall : Forall P (items d ++ [x])) by (apply Forall_app; auto).
  unfold deque_append. destruct (length (items d) <? maxlen d); cbn;
    [assumption|apply Forall_tl; assumption].
Qed.

Lemma last_error_In {A : Type} (l : list A) (x : A) :
  last_error l = Some x -> In x l.
Proof.
  induction l as [|a l IH]; [discriminate|].
  destruct l as [|b l]; simpl in *.
  - intros [= ->]. now left.
  - intros H. right. apply IH. exact H.
Qed.

(** The index appended for a frame is below the number of rows there
    will be once the frame's delta is recorded. *)
Lemma next_index_below (n m : nat) (inds : deque nat) :
  Forall (fun j => j < n /\ j < m) (items inds) ->
  Forall (fun j => j < S n /\ j < S m) (items (next_index inds)).
Proof.
  intros H.
  assert (H' : Forall (fun j => j < S n /\ j < S m) (items inds)).
  { eapply Forall_impl; [|exact H]. cbn. intros j Hj. lia. }
  unfold next_index. destruct (last_error (items inds)) as [l|] eqn:E.
  - apply deque_append_Forall; [exact H'|].
    apply last_error_In in E. rewrite Forall_forall in H.
    specialize (H _ E). cbn in H. lia.
  - apply deque_append_Forall; [exact H'|lia].
Qed.

Lemma inds_ok_popleft (st : VidStab) (p : nat * deque nat) :
  inds_ok st -> deque_popleft (frame_queue_inds st) = Some p ->
  (fst p < length (_raw_transforms st) /\ fst p < length (_trajectory st)) /\
  Forall (fun j => j < length (_raw_transforms st) /\
                   j < length (_trajectory st)) (items (snd p)).
Proof.
  unfold inds_ok, deque_popleft. intros H.
  destruct (items (frame_queue_inds st)) as [|x r]; [discriminate|].
  intros [= <-]. cbn. inversion H; subst. auto.
Qed.

Lemma enqueue_frame_spec (w : nat) (grabbed : option Frame)
  (P : RenderEvent Frame -> Prop) (st0 st : VidStab) :
  transforms_ok st -> inds_ok st -> log_extended P st0 st ->
  wp (enqueue_frame w grabbed)
     (fun r st' =>
        log_extended P st0 st' /\
        (r = inr tt -> transforms_ok st' /\ inds_ok st')) st.
Proof.
  intros Hok Hinds Hlog. unfold enqueue_frame.
  destruct grabbed as [next_frame|]; [|apply wp_ret; auto].
  wp_steps.
  - eapply wp_bind_spec.
    + apply wp_conj;
        [apply gen_next_raw_transform_spec|apply gen_next_raw_transform_rows].
    + intros e s (((_ & _ & _ & _ & Hl) & _) & _). split; [|discriminate].
      eapply log_extended_same; [exact Hl|]. exact Hlog.
    + intros [] s (((_ & Hi & _ & _ & Hl) & _) & Hrows). cbn in Hl, Hi.
      destruct (Hrows eq_refl) as (Hr & Ht). cbn in Hr, Ht.
      eapply wp_mono;
        [apply wp_conj; [apply gen_transforms_spec|apply gen_transforms_rows]|].
      intros r s' (((_ & Hi' & _ & _ & Hl') & Hraw & Hr') & Htr). split.
      * eapply log_extended_same; [|exact Hlog]. congruence.
      * intros ->. split; [apply Hr'; reflexivity|].
        unfold inds_ok. rewrite Hi', Hi, Hraw, Htr, Hr, Ht.
        match goal with
        | E : last_error _ = Some ?l |- _ =>
          cbn in E;
          replace (deque_append (frame_queue_inds st) (S l))
            with (next_index (frame_queue_inds st))
            by (unfold next_index; now rewrite E)
        end.
        apply next_index_below. exact Hinds.
  - cbn. split; [exact Hlog|discriminate].
Qed.

Section Loop.
Variables (output_path : string) (max_frames : frame_cap)
          (smoothing_window : nat) (output_fourcc : string)
          (border_mode_ : border_mode) (border_size neg_border_size h w : Z)
          (layer_func : option (Frame -> Frame -> Frame)) (playback : bool).

Lemma log_extended_snoc (P : RenderEvent Frame -> Prop) (st0 st : VidStab)
  (evs : list (RenderEvent Frame)) (e : RenderEvent Frame) :
  log_extended P st0 st -> P e ->
  evs = render_log st ++ [e] ->
  exists evs', evs = render_log st0 ++ evs' /\ Forall P evs'.
Proof.
  intros (l & Hl & Hall) He ->. exists (l ++ [e]).
  rewrite Hl, app_assoc. split; [reflexivity|].
  apply Forall_app. auto.
Qed.

Lemma apply_iteration_compensated (prev_frame : Frame) (st0 st : VidStab) :
  transforms_ok st -> inds_ok st ->
  log_extended (event_ok border_mode_ border_size neg_border_size h w) st0 st ->
  wp (apply_iteration output_path max_frames smoothing_window output_fourcc
        border_mode_ border_size neg_border_size h w layer_func playback
        prev_frame)
     (fun r st' =>
        log_extended (event_ok border_mode_ border_size neg_border_size h w)
                     st0 st' /\
        (forall x, r = inr (Some x) -> transforms_ok st' /\ inds_ok st')) st.
Proof.
  intros Hok Hinds Hlog. unfold apply_iteration, read_frame. wp_steps.
  eapply wp_bind_spec.
  - apply (enqueue_frame_spec smoothing_window _
             (event_ok border_mode_ border_size neg_border_size h w) st0);
      [exact Hok|exact Hinds|exact Hlog].
  - intros e s (Hl & _). split; [exact Hl|discriminate].
  - intros [] s (Hl & Hs). destruct (Hs eq_refl) as (Hs1 & Hs2).
    unfold render_next, popleft_index, popleft_frame, _init_writer,
      write_frame.
    wp_steps; cbn.
    all: try (split; [exact Hl|discriminate]).
    all: match goal with
         | H : deque_popleft (frame_queue_inds _) = Some _ |- _ =>
           destruct (inds_ok_popleft _ _ Hs2 H) as ((Hb1 & Hb2) & Htl)
         end.
    all: cbn in *; split;
      [ unfold log_extended; cbn;
        eapply (log_extended_snoc _ st0 s); [exact Hl| |reflexivity];
        split;
        [ unfold event_compensated; cbn; eapply (proj2 Hs1); eassumption
        | reflexivity ]
      | intros x _; split; [exact Hs1|exact Htl] ].
Qed.

Lemma apply_loop_compensated (fuel : nat) (prev_frame : Frame)
  (grabbed_frame : bool) (st0 st : VidStab) :
  transforms_ok st -> inds_ok st ->
  log_extended (event_ok border_mode_ border_size neg_border_size h w) st0 st ->
  wp (apply_loop output_path max_frames smoothing_window output_fourcc
        border_mode_ border_size neg_border_size h w layer_func playback
        fuel prev_frame grabbed_frame)
     (fun _ st' =>
        log_extended (event_ok border_mode_ border_size neg_border_size h w)
                     st0 st') st.
Proof.
  revert prev_frame grabbed_frame st.
  induction fuel as [|fuel IH];
    intros prev_frame grabbed_frame st Hok Hinds Hlog.
  - apply wp_raise. exact Hlog.
  - cbn [apply_loop]. wp_steps; [|exact Hlog].
    eapply wp_bind_spec.
    + apply (apply_iteration_compensated prev_frame st0 st Hok Hinds Hlog).
    + intros e s (Hl & _). exact Hl.
    + intros [next|] s (Hl & Hs).
      * destruct (Hs next eq_refl) as (Hs1 & Hs2). apply IH; assumption.
      * apply wp_ret. exact Hl.
Qed.

End Loop.

Lemma apply_transforms_compensated (output_path : string)
  (max_frames : frame_cap) (smoothing_window : nat)
  (output_fourcc border_type : string) (border_size : Z)
  (layer_func : option (Frame -> Frame -> Frame)) (playback : bool)
  (st0 st : VidStab) :
  transforms_ok st /\ inds_ok st \/ items (frame_queue st) = [] ->
  render_log st = render_log st0 ->
  wp (_apply_transforms output_path max_frames smoothing_window output_fourcc
        border_type border_size layer_func playback)
     (fun _ st' =>
        log_extended (event_rendered border_type border_size) st0 st') st.
Proof.
  intros Hpre Hlog. unfold _apply_transforms, popleft_frame, release_writer.
  wp_steps; try (apply log_extended_nil; exact Hlog).
  destruct Hpre as [(Hok & Hinds)|Hempty].
  2: { unfold deque_popleft in *. rewrite Hempty in *. discriminate. }
  assert (Himpl : forall e,
            event_ok b (fst (border_sizes border_size))
              (snd (border_sizes border_size))
              (fst (frame_shape (fst p)) + 2 * fst (border_sizes border_size))
              (snd (frame_shape (fst p)) + 2 * fst (border_sizes border_size))
              e ->
            event_rendered border_type border_size e).
  { intros e (Hc & Hw). split; [exact Hc|].
    exists b, (fst p). split; [assumption|exact Hw]. }
  eapply wp_bind_spec.
  - apply apply_loop_compensated; [exact Hok|exact Hinds|].
    apply log_extended_nil. exact Hlog.
  - intros e s Hl. exact (log_extended_impl _ _ _ _ Himpl Hl).
  - intros [] s Hl. apply (log_extended_impl _ _ _ _ Himpl) in Hl.
    wp_steps; exact Hl.
Qed.

Lemma init_loop_log (fuel w : nat) (max_frames : frame_cap) (gen_all : bool)
  (st : VidStab) :
  wp (init_loop fuel w max_frames gen_all)
     (fun _ st' => render_log st' = render_log st) st.
Proof.
  revert st. induction fuel as [|fuel IH]; intros st.
  - apply wp_raise. reflexivity.
  - cbn [init_loop]. unfold read_frame. wp_steps; [|reflexivity].
    eapply wp_bind_spec; [apply gen_next_raw_transform_spec| |].
    + intros e s ((_ & _ & _ & _ & Hl) & _). exact Hl.
    + intros [] s ((_ & _ & _ & _ & Hl) & _). cbn in Hl.
      assert (Hrec : forall st1, render_log st1 = render_log st ->
                wp (init_loop fuel w max_frames gen_all)
                   (fun _ st' => render_log st' = render_log st) st1).
      { intros st1 H1. eapply wp_mono; [apply IH|].
        cbn. intros _ s' Hs'. congruence. }
      wp_steps; auto.
Qed.

(** Leaving the first loop normally, every queued index has its rows. *)
Lemma init_loop_inds (fuel w : nat) (max_frames : frame_cap) (gen_all : bool)
  (st : VidStab) :
  inds_ok st ->
  wp (init_loop fuel w max_frames gen_all)
     (fun r st' => r = inr tt -> inds_ok st') st.
Proof.
  revert st. induction fuel as [|fuel IH]; intros st Hinds.
  - apply wp_raise. discriminate.
  - cbn [init_loop]. unfold read_frame. wp_steps; [|intros _; exact Hinds].
    eapply wp_bind_spec.
    + apply wp_conj;
        [apply gen_next_raw_transform_spec|apply gen_next_raw_transform_rows].
    + intros e s _. discriminate.
    + intros [] s (((_ & Hi & _) & _) & Hrows). cbn in Hi.
      destruct (Hrows eq_refl) as (Hr & Ht). cbn in Hr, Ht.
      assert (Hs : inds_ok s).
      { unfold inds_ok. rewrite Hi, Hr, Ht.
        apply next_index_below. exact Hinds. }
      wp_steps; try (intros _; exact Hs); try discriminate;
        apply IH; exact Hs.
Qed.

Lemma init_trajectory_compensated (w : nat) (max_frames : frame_cap)
  (gen_all : bool) (st : VidStab) :
  inds_ok st ->
  wp (_init_trajectory w max_frames gen_all)
     (fun r st' =>
        render_log st' = render_log st /\
        (r = inr tt -> transforms_ok st' /\ inds_ok st'))
     st.
Proof.
  intros Hinds. unfold _init_trajectory, read_frame. wp_steps.
  - eapply wp_bind_spec.
    + apply wp_conj; [apply init_loop_log|apply init_loop_inds; exact Hinds].
    + intros e s (Hl & _). split; [exact Hl|discriminate].
    + intros [] s (Hl & Hs). cbn in Hl. specialize (Hs eq_refl).
      eapply wp_mono;
        [apply wp_conj; [apply gen_transforms_spec|apply gen_transforms_rows]|].
      intros r s' (((_ & Hi' & _ & _ & Hl') & Hraw & Hr) & Htr).
      split; [congruence|]. intros ->. split; [apply Hr; reflexivity|].
      unfold inds_ok. rewrite Hi', Hraw, Htr. exact Hs.
  - cbn. split; [reflexivity|discriminate].
Qed.

(** Whatever the instance and the arguments, every frame rendered
    during a call of [stabilize] is warped by the affine matrix of the
    row of [self.transforms] at its index (the image is [rendered] with
    that row), and the row is exactly
    [MotionDelta[i] + (SmoothedTrajectory[i] - Trajectory[i])] for the
    arrays [_raw_transforms], [smoothed_trajectory] and [trajectory] of
    the instance at that moment. Of the smoother only its contract is
    used: one smoothed row per trajectory row. *)
Theorem rendered_with_compensation (input : list Frame) (fps : Z)
  (output_path : string) (smoothing_window : nat) (max_frames : frame_cap)
  (border_type : string) (border_size : Z)
  (layer_func : option (Frame -> Frame -> Frame))
  (playback use_stored_transforms : bool) (output_fourcc : string)
  (st : VidStab) :
  exists evs,
    render_log
      (snd (stabilize input fps output_path smoothing_window max_frames
              border_type border_size layer_func playback
              use_stored_transforms output_fourcc st))
    = render_log st ++ evs /\
    Forall (fun e =>
      (exists d s t Sm Tr,
         nth_error (ev_raw e) (ev_index e) = Some d /\
         ev_smoothed e = Some Sm /\ ev_trajectory e = Some Tr /\
         nth_error Sm (ev_index e) = Some s /\
         nth_error Tr (ev_index e) = Some t /\
         ev_transform e = vadd d (vsub s t)) /\
      (exists b prev_frame,
         border_modes border_type = Some b /\
         ev_warped e =
         rendered b border_size prev_frame (ev_frame e) (ev_transform e)))
      evs.
Proof.
  change (wp (stabilize input fps output_path smoothing_window max_frames
                border_type border_size layer_func playback
                use_stored_transforms output_fourcc)
             (fun _ st' =>
                log_extended (event_rendered border_type border_size) st st')
             st).
  unfold stabilize, stabilize_setup, open_capture. wp_steps.
  - eapply wp_bind_spec;
      [apply init_trajectory_compensated; apply Forall_nil| |].
    + intros e s (Hl & _). cbn in Hl.
      apply log_extended_nil. exact Hl.
    + intros [] s (Hl & Hs). cbn in Hl.
      apply apply_transforms_compensated; [left; auto|exact Hl].
  - apply apply_transforms_compensated; [right; reflexivity|reflexivity].
Qed.

End Compensation.

(** C2. The row read for a frame is the compensation of the index
    popped with it, and on a clip of exactly [smoothing_window + 1]
    frames that is not the index of the frame. Four frames at x = 0, 1,
    3, 6 with window 3: the deltas are 1, 2, 3 and the compensations
    10/3, 7/3, 1/3. The frame at x = 3, reached by the delta 2, is
    warped with the row of index 0, the compensation of the delta 1 that
    led to the frame before it; the frame at x = 6 with the row of index
    1. On the same clip with one frame more each frame is warped with
    the compensation of the delta that led to it: the frame at x = 3
    with the row of index 1. *)
Theorem compensation_of_another_frame :
  let input := [Src 0 40 60; Src 1 40 60; Src 3 40 60; Src 6 40 60] in
  let r := run (stabilize input 30 "out" 3 Unbounded "black" 0 None
                  false false "MJPG") __init__ in
  let longer := run (stabilize (input ++ [Src 10 40 60]) 30 "out" 3
                       Unbounded "black" 0 None false false "MJPG")
                    __init__ in
  let pass (e : RenderEvent image) :=
    (ev_frame e, ev_index e, vx (ev_transform e)) in
  fst r = inr tt /\
  map (@vx Q) (_raw_transforms (snd r)) = [1; 2; 3]%Q /\
  option_map (map (@vx Q)) (transforms (snd r))
  = Some [10 # 3; 7 # 3; 1 # 3]%Q /\
  map pass (render_log (snd r))
  = [(Src 3 40 60, 0, (10 # 3)%Q); (Src 6 40 60, 1, (7 # 3)%Q)] /\
  fst longer = inr tt /\
  map (@vx Q) (_raw_transforms (snd longer)) = [1; 2; 3; 4]%Q /\
  map pass (render_log (snd longer))
  = [(Src 3 40 60, 1, (7 # 3)%Q); (Src 6 40 60, 2, (1 # 3)%Q);
     (Src 10 40 60, 3, (1 # 3)%Q)].
Proof. vm_compute. repeat split. Qed.

(** The array arithmetic on small inputs: a single row is broadcast, two
    rows against three are refused. *)
Example arr_add_broadcasts :
  arr_add (SF := Q_scalar) [mkVec 1 1 1]%Q [mkVec 1 2 3; mkVec 4 5 6]%Q
  = Some [mkVec 2 3 4; mkVec 5 6 7]%Q.
Proof. vm_compute. reflexivity. Qed.

Example arr_add_shape_mismatch :
  arr_add (SF := Q_scalar) [mkVec 1 1 1; mkVec 1 1 1]%Q
          [mkVec 1 2 3; mkVec 4 5 6; mkVec 7 8 9]%Q
  = None.
Proof. reflexivity. Qed.

(** ** C10: the first source frame is never rendered *)

Section Segment.
Context {F : Type} {SF : Scalar F} {CV : OpenCV F} {SM : Smoother F}.

Variable input : list Frame.
Variable st0 : VidStab.





Lemma deque_popleft_items {A : Type} (q : deque A) (x : A) (q' : deque A) :
  deque_popleft q = Some (x, q') ->
  items q = x :: items q' /\ maxlen q' = maxlen q.
Proof.
  unfold deque_popleft. destruct (items q) as [|y r]; [discriminate|].
  intros [= -> <-]. auto.
Qed.

Lemma vc_read_some (vc : VideoCapture Frame) (f : Frame) :
  fst (vc_read vc) = Some f ->
  nth_error (vc_frames vc) (vc_pos vc) = Some f /\
  snd (vc_read vc) = mkCapture (vc_frames vc) (S (vc_pos vc)) (vc_fps vc).
Proof.
  unfold vc_read. destruct (nth_error (vc_frames vc) (vc_pos vc)) as [g|];
    cbn; [|discriminate].
  intros [= ->]. auto.
Qed.

Lemma vc_read_fst (vc : VideoCapture Frame) :
  fst (vc_read vc) = nth_error (vc_frames vc) (vc_pos vc).
Proof.
  unfold vc_read. destruct (nth_error (vc_frames vc) (vc_pos vc)); reflexivity.
Qed.

Lemma vc_read_none (vc : VideoCapture Frame) :
  fst (vc_read vc) = None -> snd (vc_read vc) = vc.
Proof.
  unfold vc_read. destruct (nth_error (vc_frames vc) (vc_pos vc)); cbn;
    [discriminate|reflexivity].
Qed.

(** What [enqueue_frame] does to the queue, and what it leaves alone. *)
Lemma enqueue_frame_io (w : nat) (grabbed : option Frame) (st : VidStab) :
  wp (enqueue_frame w grabbed)
     (fun _ st' =>
        vid_cap st' = vid_cap st /\ writer st' = writer st /\
        render_log st' = render_log st /\
        frame_queue st' =
        match grabbed with
        | Some f => deque_append (frame_queue st) f
        | None => frame_queue st
        end) st.
Proof.
  unfold enqueue_frame. destruct grabbed as [f|]; [|apply wp_ret; auto].
  wp_steps; [|cbn; auto].
  eapply wp_bind_spec; [apply gen_next_raw_transform_spec| |].
  - intros e s ((H1 & _ & H3 & H4 & H5) & _). cbn in *. auto.
  - intros [] s ((H1 & _ & H3 & H4 & H5) & _). cbn in *.
    eapply wp_mono; [apply gen_transforms_spec|].
    intros r s' ((G1 & _ & G3 & G4 & G5) & _).
    repeat split; congruence.
Qed.

Section Loop.
Variables (output_path : string) (max_frames : frame_cap)
          (smoothing_window : nat) (output_fourcc : string)
          (border_mode_ : border_mode) (border_size neg_border_size h w : Z)
          (layer_func : option (Frame -> Frame -> Frame)) (playback : bool).







End Loop.






End Segment.

Section FirstFrame.
Context {F : Type} {SF : Scalar F} {CV : OpenCV F} {SM : Smoother F}.


End FirstFrame.

(** The run of the witness: five frames read, the source frames at
    positions 2, 3 and 4 rendered (with indices 1, 2, 3) and written, the
    first two never. *)
Example stabilize_clip5 :
  let r := run (stabilize (clip 5) 30 "out" 3 Unbounded "black" 0
                  None false false "MJPG") __init__ in
  fst r = inr tt /\
  vc_pos (vid_cap (snd r)) = 5 /\
  map ev_frame (render_log (snd r)) = [Src 2 40 60; Src 3 40 60; Src 4 40 60] /\
  map ev_index (render_log (snd r)) = [1; 2; 3] /\
  written (snd r) = map ev_out (render_log (snd r)).
Proof. vm_compute. repeat split. Qed.

(** ** C4: the check of [border_type] *)

Section Never.
Context {St : Type}.

Lemma never_bind {A B : Type} (e : exn) (m : M St A) (k : A -> M St B) :
  never_raises e m -> (forall a, never_raises e (k a)) ->
  never_raises e (bind m k).
Proof.
  intros Hm Hk st. unfold bind. specialize (Hm st).
  destruct (m st) as [[e'|a] s]; simpl in *; [congruence|apply Hk].
Qed.

Lemma never_ret {A : Type} (e : exn) (a : A) :
  never_raises e (ret (St := St) a).
Proof. intros st. discriminate. Qed.

Lemma never_gets {A : Type} (e : exn) (f : St -> A) :
  never_raises e (gets f).
Proof. intros st. discriminate. Qed.

Lemma never_modify (e : exn) (f : St -> St) : never_raises e (modify f).
Proof. intros st. discriminate. Qed.

Lemma never_raise {A : Type} (e e' : exn) :
  e' <> e -> never_raises e (raise (St := St) (A := A) e').
Proof. intros H st. simpl. congruence. Qed.

Lemma never_expect {A : Type} (e e' : exn) (o : option A) :
  e' <> e -> never_raises e (expect (St := St) e' o).
Proof. intros H st. destruct o; simpl; congruence. Qed.

End Never.

(** Discharge [never_raises] along the code of a method. *)
Ltac never_step :=
  lazymatch goal with
  | |- never_raises _ (bind _ _) => apply never_bind; [|intro]
  | |- never_raises _ (ret _) => apply never_ret
  | |- never_raises _ (gets _) => apply never_gets
  | |- never_raises _ (modify _) => apply never_modify
  | |- never_raises _ (raise _) => apply never_raise; discriminate
  | |- never_raises _ (expect _ _) => apply never_expect; discriminate
  | |- never_raises _ (match ?x with _ => _ end) => destruct x
  | |- never_raises _ (let _ := _ in _) => cbv zeta
  end.

Ltac never_steps := repeat never_step.

Section BorderType.
Context {F : Type} {SF : Scalar F} {CV : OpenCV F} {SM : Smoother F}.

Lemma gen_next_raw_transform_foreign (e : exn) :
  foreign_exn e -> never_raises e _gen_next_raw_transform.
Proof.
  intros [[->|(k & ->)] | ->]; unfold _gen_next_raw_transform; never_steps.
Qed.

Lemma gen_transforms_foreign (e : exn) (w : nat) :
  foreign_exn e -> never_raises e (_gen_transforms w).
Proof.
  intros [[->|(k & ->)] | ->]; unfold _gen_transforms; never_steps.
Qed.

Lemma gen_next_raw_transform_never (e : exn) :
  border_exn e -> never_raises e _gen_next_raw_transform.
Proof. intros He. apply gen_next_raw_transform_foreign. now left. Qed.

Lemma gen_transforms_never (e : exn) (w : nat) :
  border_exn e -> never_raises e (_gen_transforms w).
Proof. intros He. apply gen_transforms_foreign. now left. Qed.

Lemma init_loop_never (e : exn) (fuel w : nat) (max_frames : frame_cap)
  (gen_all : bool) :
  border_exn e -> never_raises e (init_loop fuel w max_frames gen_all).
Proof.
  intros He. induction fuel as [|fuel IH].
  - destruct He as [->|(k & ->)]; cbn; never_steps.
  - pose proof (gen_next_raw_transform_never e He) as Hg.
    destruct He as [->|(k & ->)]; cbn [init_loop]; unfold read_frame;
      never_steps; auto.
Qed.

Lemma init_trajectory_never (e : exn) (w : nat) (max_frames : frame_cap)
  (gen_all : bool) :
  border_exn e -> never_raises e (_init_trajectory w max_frames gen_all).
Proof.
  intros He.
  pose proof (fun fuel => init_loop_never e fuel w max_frames gen_all He) as Hl.
  pose proof (gen_transforms_never e w He) as Hg.
  destruct He as [->|(k & ->)]; unfold _init_trajectory, read_frame;
    never_steps; auto.
Qed.

Lemma stabilize_setup_never (e : exn) (input : list Frame) (fps : Z)
  (w : nat) (max_frames : frame_cap) (use_stored_transforms : bool) :
  border_exn e ->
  never_raises e (stabilize_setup input fps w max_frames use_stored_transforms).
Proof.
  intros He.
  pose proof (init_trajectory_never e w max_frames false He) as Hi.
  destruct He as [->|(k & ->)]; unfold stabilize_setup, open_capture;
    never_steps; auto.
Qed.

Section Loop.
Variables (output_path : string) (max_frames : frame_cap)
          (smoothing_window : nat) (output_fourcc : string)
          (border_mode_ : border_mode) (border_size neg_border_size h w : Z)
          (layer_func : option (Frame -> Frame -> Frame)) (playback : bool).

Lemma apply_iteration_never (e : exn) (prev_frame : Frame) :
  border_exn e ->
  never_raises e
    (apply_iteration output_path max_frames smoothing_window output_fourcc
       border_mode_ border_size neg_border_size h w layer_func playback
       prev_frame).
Proof.
  intros He.
  pose proof (gen_next_raw_transform_never e He) as Hg.
  pose proof (gen_transforms_never e smoothing_window He) as Ht.
  destruct He as [->|(k & ->)];
    unfold apply_iteration, read_frame, enqueue_frame, render_next,
      popleft_index, popleft_frame, _init_writer, write_frame;
    never_steps; auto.
Qed.

Lemma apply_loop_never (e : exn) (fuel : nat) (prev_frame : Frame)
  (grabbed_frame : bool) :
  border_exn e ->
  never_raises e
    (apply_loop output_path max_frames smoothing_window output_fourcc
       border_mode_ border_size neg_border_size h w layer_func playback
       fuel prev_frame grabbed_frame).
Proof.
  intros He. revert prev_frame grabbed_frame.
  induction fuel as [|fuel IH]; intros prev_frame grabbed_frame.
  - destruct He as [->|(k & ->)]; cbn; never_steps.
  - pose proof (fun p => apply_iteration_never e p He) as Hi.
    destruct He as [->|(k & ->)]; cbn [apply_loop]; never_steps; auto.
Qed.

End Loop.

Lemma existsb_valid (border_type : string) :
  existsb (String.eqb border_type) valid_border_types = true <->
  In border_type valid_border_types.
Proof.
  rewrite existsb_exists. split.
  - intros (x & Hin & Heq). apply String.eqb_eq in Heq. now subst.
  - intros Hin. exists border_type. split; [exact Hin|apply String.eqb_refl].
Qed.

Lemma border_modes_known (border_type : string) :
  In border_type ["black"; "reflect"; "replicate"]%string ->
  border_modes border_type <> None.
Proof.
  intros [<-|[<-|[<-|[]]]]; discriminate.
Qed.

Lemma apply_transforms_value_error (output_path : string)
  (max_frames : frame_cap) (smoothing_window : nat)
  (output_fourcc border_type : string) (border_size : Z)
  (layer_func : option (Frame -> Frame -> Frame)) (playback : bool) :
  existsb (String.eqb border_type) valid_border_types = true ->
  never_raises (ValueError "Invalid border type")
    (_apply_transforms output_path max_frames smoothing_window output_fourcc
       border_type border_size layer_func playback).
Proof.
  intros Hv. unfold _apply_transforms. rewrite Hv. cbn [negb].
  assert (He : border_exn (ValueError "Invalid border type")) by (left; auto).
  pose proof (fun bm bs nbs h w fuel p g =>
                apply_loop_never output_path max_frames smoothing_window
                  output_fourcc bm bs nbs h w layer_func playback _ fuel p g He)
    as Hl.
  unfold popleft_frame, release_writer. never_steps; auto.
Qed.

Lemma apply_transforms_key_error (output_path : string)
  (max_frames : frame_cap) (smoothing_window : nat)
  (output_fourcc border_type : string) (border_size : Z)
  (layer_func : option (Frame -> Frame -> Frame)) (playback : bool)
  (k : string) :
  In border_type ["black"; "reflect"; "replicate"]%string ->
  never_raises (KeyError k)
    (_apply_transforms output_path max_frames smoothing_window output_fourcc
       border_type border_size layer_func playback).
Proof.
  intros Hin. unfold _apply_transforms.
  assert (He : border_exn (KeyError k)) by (right; eauto).
  pose proof (fun bm bs nbs h w fuel p g =>
                apply_loop_never output_path max_frames smoothing_window
                  output_fourcc bm bs nbs h w layer_func playback _ fuel p g He)
    as Hl.
  destruct (negb _); [never_steps|].
  destruct (border_modes border_type) as [bm|] eqn:Hb;
    [|now apply border_modes_known in Hin].
  cbn [expect]. unfold popleft_frame, release_writer. never_steps; auto.
Qed.

(** C4, amended. [stabilize] raises the configuration error
    [ValueError('Invalid border type')] exactly when the border type is
    none of black, reflect, replicate, trail and the set-up before it
    (opening the clip and, unless stored transforms are used, analysing
    the first frames) has not raised; the error leaves the instance as
    the set-up left it, so that no frame has been popped, rendered or
    written, while the frames read by the analysis have been read; and
    with black, reflect or replicate the look-up of the border mode does
    not fail. *)
Theorem border_type_check (input : list Frame) (fps : Z)
  (output_path : string) (smoothing_window : nat) (max_frames : frame_cap)
  (border_type : string) (border_size : Z)
  (layer_func : option (Frame -> Frame -> Frame))
  (playback use_stored_transforms : bool) (output_fourcc : string)
  (st : VidStab) :
  let setup := stabilize_setup input fps smoothing_window max_frames
                 use_stored_transforms st in
  let r := stabilize input fps output_path smoothing_window max_frames
             border_type border_size layer_func playback
             use_stored_transforms output_fourcc st in
  (fst r = inl (ValueError "Invalid border type") <->
   ~ In border_type valid_border_types /\ fst setup = inr tt) /\
  (fst r = inl (ValueError "Invalid border type") -> snd r = snd setup) /\
  (In border_type ["black"; "reflect"; "replicate"]%string ->
   forall k, fst r <> inl (KeyError k)).
Proof.
  cbv zeta. unfold stabilize, bind.
  pose proof (stabilize_setup_never (ValueError "Invalid border type")
                input fps smoothing_window max_frames use_stored_transforms
                (or_introl eq_refl) st) as Hsv.
  pose proof (fun k => stabilize_setup_never (KeyError k)
                input fps smoothing_window max_frames use_stored_transforms
                (or_intror (ex_intro _ k eq_refl)) st) as Hsk.
  destruct (stabilize_setup input fps smoothing_window max_frames
              use_stored_transforms st) as [[e|[]] s] eqn:Es; cbn [fst snd] in *.
  - split; [split|split].
    + intros H. congruence.
    + intros [_ H]. discriminate.
    + intros H. congruence.
    + intros _ k. apply Hsk.
  - destruct (existsb (String.eqb border_type) valid_border_types) eqn:Hv.
    + pose proof (apply_transforms_value_error output_path max_frames
                    smoothing_window output_fourcc border_type border_size
                    layer_func playback Hv s) as Hnv.
      split; [split|split].
      * intros H. contradiction.
      * intros [Hn _]. exfalso. apply Hn. now apply existsb_valid.
      * intros H. contradiction.
      * intros Hin k. now apply apply_transforms_key_error.
    + unfold _apply_transforms. rewrite Hv. cbn.
      split; [split|split]; auto.
      * intros _. split; [|reflexivity].
        intros Hin. apply existsb_valid in Hin. congruence.
      * intros _ k. discriminate.
Qed.

End BorderType.

Lemma border_type_check_witness :
  let setup := run (stabilize_setup (clip 4) 30 3 Unbounded false) __init__ in
  let r := run (stabilize (clip 4) 30 "out" 3 Unbounded "reflect" 0 None
                  false false "MJPG") __init__ in
  (fst r = inl (ValueError "Invalid border type") <->
   ~ In "reflect"%string valid_border_types /\ fst setup = inr tt) /\
  (fst r = inl (ValueError "Invalid border type") -> snd r = snd setup) /\
  (In "reflect"%string ["black"; "reflect"; "replicate"]%string ->
   forall k, fst r <> inl (KeyError k)).
Proof.
  apply (border_type_check (SF := Q_scalar) (CV := image_cv)
           (SM := Q_smoother) (clip 4) 30 "out" 3 Unbounded "reflect" 0 None
           false false "MJPG" __init__).
Defined.

(** C4 as stated fails on the timing: with an unknown border type the
    error is raised after [_init_trajectory] has read four frames of the
    clip and estimated three motions. *)
Lemma border_type_check_counterexample :
  let r := run (stabilize (clip 4) 30 "out" 3 Unbounded "foo" 0 None
                  false false "MJPG") __init__ in
  fst r = inl (ValueError "Invalid border type") /\
  vc_pos (vid_cap (snd r)) = 4 /\
  estimations (snd r) = 3.
Proof. vm_compute. repeat split. Qed.

(** ['trail'] passes the check of line 208 and fails the look-up of
    line 214. *)
Example trail_raises_KeyError :
  fst (run (stabilize (clip 4) 30 "out" 3 Unbounded "trail" 0 None
              false false "MJPG") __init__) = inl (KeyError "trail").
Proof. vm_compute. reflexivity. Qed.

(** ** The loops end before their fuel does *)

Section Fuel.
Context {F : Type} {SF : Scalar F} {CV : OpenCV F} {SM : Smoother F}.

Lemma wp_never {A : Type} (e : exn) (m : M VidStab A) (st : VidStab) :
  never_raises e m -> wp m (fun r _ => r <> inl e) st.
Proof. intros H. apply H. Qed.

Lemma gen_next_raw_transform_fuel (st : VidStab) :
  wp _gen_next_raw_transform
     (fun r st' =>
        r <> inl FuelExhausted /\ vid_cap st' = vid_cap st /\
        frame_queue st' = frame_queue st) st.
Proof.
  apply wp_conj.
  - apply wp_never, gen_next_raw_transform_foreign. now right.
  - eapply wp_mono; [apply gen_next_raw_transform_spec|].
    intros r s ((H1 & _ & H3 & _) & _). auto.
Qed.

Lemma gen_transforms_fuel (w : nat) (st : VidStab) :
  wp (_gen_transforms w)
     (fun r st' =>
        r <> inl FuelExhausted /\ vid_cap st' = vid_cap st /\
        frame_queue st' = frame_queue st) st.
Proof.
  apply wp_conj.
  - apply wp_never, gen_transforms_foreign. now right.
  - eapply wp_mono; [apply gen_transforms_spec|].
    intros r s ((H1 & _ & H3 & _) & _). auto.
Qed.

Lemma frames_left_read (vc : VideoCapture Frame) (f : Frame) :
  fst (vc_read vc) = Some f ->
  S (length (vc_frames (snd (vc_read vc))) - vc_pos (snd (vc_read vc)))
  = length (vc_frames vc) - vc_pos vc.
Proof.
  intros H. destruct (vc_read_some _ _ H) as [Hnth ->]. cbn.
  assert (vc_pos vc < length (vc_frames vc))
    by (apply nth_error_Some; congruence).
  lia.
Qed.

Lemma init_loop_fuel (fuel w : nat) (max_frames : frame_cap)
  (gen_all : bool) (st : VidStab) :
  frames_left st < fuel ->
  wp (init_loop fuel w max_frames gen_all)
     (fun r _ => r <> inl FuelExhausted) st.
Proof.
  revert st. induction fuel as [|fuel IH]; intros st Hfuel; [lia|].
  cbn [init_loop]. unfold read_frame. wp_steps; [|discriminate].
  pose proof (frames_left_read _ _ Heqo) as Hleft.
  eapply wp_bind_spec; [apply gen_next_raw_transform_fuel| |].
  - intros e s (He & _). congruence.
  - intros [] s (_ & Hvc & _). cbn in Hvc.
    assert (Hs : frames_left s < fuel).
    { unfold frames_left in *. rewrite Hvc. lia. }
    wp_steps; try discriminate; now apply IH.
Qed.

Lemma init_trajectory_fuel (w : nat) (max_frames : frame_cap)
  (gen_all : bool) (st : VidStab) :
  wp (_init_trajectory w max_frames gen_all)
     (fun r _ => r <> inl FuelExhausted) st.
Proof.
  unfold _init_trajectory, read_frame. wp_steps; [|discriminate].
  eapply wp_bind_spec; [apply init_loop_fuel; cbn; lia| |].
  - intros e s He. congruence.
  - intros [] s _. eapply wp_mono; [apply gen_transforms_fuel|].
    intros r s' (He & _). exact He.
Qed.

Lemma deque_append_length {A : Type} (q : deque A) (x : A) :
  length (items (deque_append q x)) <= S (length (items q)).
Proof.
  unfold deque_append. destruct (length (items q) <? maxlen q); cbn.
  - rewrite length_app. simpl. lia.
  - destruct (items q); cbn; [lia|]. rewrite length_app. simpl. lia.
Qed.

Section Loop.
Variables (output_path : string) (max_frames : frame_cap)
          (smoothing_window : nat) (output_fourcc : string)
          (border_mode_ : border_mode) (border_size neg_border_size h w : Z)
          (layer_func : option (Frame -> Frame -> Frame)) (playback : bool).

Lemma enqueue_frame_fuel (grabbed : option Frame) (st : VidStab) :
  wp (enqueue_frame smoothing_window grabbed)
     (fun r st' =>
        r <> inl FuelExhausted /\ vid_cap st' = vid_cap st /\
        length (items (frame_queue st')) <=
        length (items (frame_queue st)) +
        match grabbed with Some _ => 1 | None => 0 end) st.
Proof.
  apply wp_conj.
  - apply wp_never.
    pose proof (gen_next_raw_transform_foreign FuelExhausted
                  (or_intror eq_refl)) as Hg.
    pose proof (gen_transforms_foreign FuelExhausted smoothing_window
                  (or_intror eq_refl)) as Ht.
    unfold enqueue_frame. never_steps; auto.
  - eapply wp_mono; [apply enqueue_frame_io|].
    intros r s (H1 & _ & _ & H4). split; [exact H1|].
    rewrite H4. destruct grabbed as [f|]; [|lia].
    pose proof (deque_append_length (frame_queue st) f). lia.
Qed.

Lemma render_next_fuel (prev_frame : Frame) (grabbed_frame : bool)
  (st : VidStab) :
  wp (render_next output_path max_frames output_fourcc border_mode_
        border_size neg_border_size h w layer_func playback
        prev_frame grabbed_frame)
     (fun r st' =>
        r <> inl FuelExhausted /\
        (forall x, r = inr (Some x) ->
           vid_cap st' = vid_cap st /\
           S (length (items (frame_queue st'))) =
           length (items (frame_queue st)))) st.
Proof.
  unfold render_next, popleft_index, popleft_frame, _init_writer, write_frame.
  wp_steps; cbn in *.
  all: split; [discriminate|]; intros x Hx; try discriminate.
  all: split; [reflexivity|].
  all: destruct p0 as [frame_i q']; cbn.
  all: match goal with
       | H : deque_popleft (frame_queue _) = Some _ |- _ =>
         apply deque_popleft_items in H; destruct H as [-> _]
       end.
  all: reflexivity.
Qed.

Lemma apply_iteration_fuel (prev_frame : Frame) (st : VidStab) :
  wp (apply_iteration output_path max_frames smoothing_window output_fourcc
        border_mode_ border_size neg_border_size h w layer_func playback
        prev_frame)
     (fun r st' =>
        r <> inl FuelExhausted /\
        (forall x, r = inr (Some x) -> pending st' < pending st)) st.
Proof.
  unfold apply_iteration, read_frame. wp_steps.
  eapply wp_bind_spec; [apply enqueue_frame_fuel| |].
  - intros e s (He & _). split; [congruence|discriminate].
  - intros [] s (_ & Hvc & Hlen). cbn in Hvc, Hlen.
    eapply wp_mono; [apply render_next_fuel|].
    intros r s' (He & Hs'). split; [exact He|].
    intros x Hx. destruct (Hs' x Hx) as [Hvc' Hq'].
    unfold pending, frames_left. rewrite Hvc', Hvc.
    destruct (fst (vc_read (vid_cap st))) as [f|] eqn:Hr.
    + pose proof (frames_left_read _ _ Hr). lia.
    + rewrite (vc_read_none _ Hr). lia.
Qed.

Lemma apply_loop_fuel (fuel : nat) (prev_frame : Frame)
  (grabbed_frame : bool) (st : VidStab) :
  pending st < fuel ->
  wp (apply_loop output_path max_frames smoothing_window output_fourcc
        border_mode_ border_size neg_border_size h w layer_func playback
        fuel prev_frame grabbed_frame)
     (fun r _ => r <> inl FuelExhausted) st.
Proof.
  revert prev_frame grabbed_frame st.
  induction fuel as [|fuel IH]; intros prev_frame grabbed_frame st Hfuel;
    [lia|].
  cbn [apply_loop]. wp_steps; [|discriminate].
  eapply wp_bind_spec; [apply apply_iteration_fuel| |].
  - intros e s (He & _). congruence.
  - intros [next|] s (_ & Hs).
    + apply IH. specialize (Hs next eq_refl). lia.
    + apply wp_ret. discriminate.
Qed.

End Loop.

Lemma apply_transforms_fuel (output_path : string)
  (max_frames : frame_cap) (smoothing_window : nat)
  (output_fourcc border_type : string) (border_size : Z)
  (layer_func : option (Frame -> Frame -> Frame)) (playback : bool)
  (st : VidStab) :
  wp (_apply_transforms output_path max_frames smoothing_window output_fourcc
        border_type border_size layer_func playback)
     (fun r _ => r <> inl FuelExhausted) st.
Proof.
  unfold _apply_transforms, popleft_frame, release_writer.
  wp_steps; try discriminate.
  eapply wp_bind_spec; [apply apply_loop_fuel; unfold pending; cbn; lia| |].
  - intros e s He. congruence.
  - intros [] s _. wp_steps; discriminate.
Qed.

(** The fuel given to the two loops is never used up: the exception
    that marks it is not an outcome of the public methods. *)
Lemma stabilize_ends (input : list Frame) (fps : Z)
  (output_path : string) (smoothing_window : nat) (max_frames : frame_cap)
  (border_type : string) (border_size : Z)
  (layer_func : option (Frame -> Frame -> Frame))
  (playback use_stored_transforms : bool) (output_fourcc : string)
  (st : VidStab) :
  fst (stabilize input fps output_path smoothing_window max_frames
         border_type border_size layer_func playback use_stored_transforms
         output_fourcc st) <> inl FuelExhausted.
Proof.
  change (wp (stabilize input fps output_path smoothing_window max_frames
                border_type border_size layer_func playback
                use_stored_transforms output_fourcc)
             (fun r _ => r <> inl FuelExhausted) st).
  unfold stabilize, stabilize_setup, open_capture. wp_steps.
  - eapply wp_bind_spec; [apply init_trajectory_fuel| |].
    + intros e s He. congruence.
    + intros [] s _. apply apply_transforms_fuel.
  - apply apply_transforms_fuel.
Qed.

Lemma gen_transforms_ends (input : list Frame) (fps : Z)
  (smoothing_window : nat) (st : VidStab) :
  fst (gen_transforms input fps smoothing_window st) <> inl FuelExhausted.
Proof.
  change (wp (gen_transforms input fps smoothing_window)
             (fun r _ => r <> inl FuelExhausted) st).
  unfold gen_transforms, open_capture. wp_steps.
  apply init_trajectory_fuel.
Qed.

End Fuel.

(** ** The layering the loop performs, and the stored-transforms path *)

Section Layering.
Context {F : Type} {SF : Scalar F} {CV : OpenCV F} {SM : Smoother F}.

Lemma last_out_snoc (bg : Frame) (evs : list (RenderEvent Frame))
  (e : RenderEvent Frame) :
  last_out bg (evs ++ [e]) = ev_out e.
Proof. unfold last_out. now rewrite last_error_snoc. Qed.

Lemma last_out_cons (bg : Frame) (e : RenderEvent Frame)
  (evs : list (RenderEvent Frame)) :
  last_out bg (e :: evs) = last_out (ev_out e) evs.
Proof.
  unfold last_out. destruct evs as [|e' evs]; [reflexivity|].
  change (last_error (e :: e' :: evs)) with (last_error (e' :: evs)).
  destruct (last_error (e' :: evs)) eqn:E; [reflexivity|].
  rewrite last_error_nth in E. apply nth_error_None in E. simpl in E. lia.
Qed.

Lemma layered_chain_snoc (f : Frame -> Frame -> Frame) (bg : Frame)
  (evs : list (RenderEvent Frame)) (e : RenderEvent Frame) :
  layered_chain f bg evs ->
  ev_background e = last_out bg evs ->
  ev_out e = (if 1 <? ev_index e
              then f (ev_warped e) (last_out bg evs) else ev_warped e) ->
  layered_chain f bg (evs ++ [e]).
Proof.
  revert bg. induction evs as [|e0 evs IH]; intros bg Hc Hb Ho.
  - cbn in *. auto.
  - destruct Hc as (H1 & H2 & H3). rewrite last_out_cons in Hb, Ho.
    cbn [app layered_chain]. auto.
Qed.

Section Loop.
Variables (output_path : string) (max_frames : frame_cap)
          (smoothing_window : nat) (output_fourcc : string)
          (border_mode_ : border_mode) (border_size neg_border_size h w : Z)
          (f : Frame -> Frame -> Frame) (playback : bool)
          (bg : Frame) (st0 : VidStab).

(** The events logged since [st0] form a chain from [bg] whose latest
    output is [prev_frame]. *)
Let chained (prev_frame : Frame) (st : VidStab) : Prop :=
  exists evs,
    render_log st = render_log st0 ++ evs /\
    layered_chain f bg evs /\ last_out bg evs = prev_frame.

Lemma render_next_layering (prev_frame : Frame) (grabbed_frame : bool)
  (st : VidStab) :
  chained prev_frame st ->
  wp (render_next output_path max_frames output_fourcc border_mode_
        border_size neg_border_size h w (Some f) playback
        prev_frame grabbed_frame)
     (fun r st' =>
        (exists p, chained p st') /\
        (forall x, r = inr (Some x) -> chained (fst x) st')) st.
Proof.
  intros Hc.
  assert (Hsnoc : forall st' e,
            render_log st' = render_log st ++ [e] ->
            ev_background e = prev_frame ->
            ev_out e = (if 1 <? ev_index e
                        then f (ev_warped e) prev_frame else ev_warped e) ->
            chained (ev_out e) st').
  { intros st' e Hl Hb Ho. destruct Hc as (evs & Hlog & Hch & Hlast).
    exists (evs ++ [e]). rewrite Hl, Hlog, <- app_assoc.
    split; [reflexivity|]. split; [|apply last_out_snoc].
    apply layered_chain_snoc; rewrite ?Hlast; auto. }
  assert (Hsame : forall st', render_log st' = render_log st ->
                              chained prev_frame st').
  { intros st' Hl. destruct Hc as (evs & Hlog & Hrest).
    exists evs. rewrite Hl. auto. }
  unfold render_next, popleft_index, popleft_frame, _init_writer, write_frame.
  wp_steps; cbn.
  all: try (split; [exists prev_frame; apply Hsame; reflexivity|discriminate]).
  all: match goal with
       | |- context [render_log _ ++ [?e]] =>
         match goal with
         | |- (exists p, chained p ?s') /\ _ =>
           assert (Hn : chained (ev_out e) s')
             by (apply Hsnoc; reflexivity)
         end
       end.
  all: split; [eexists; exact Hn|].
  all: intros x Hx; try discriminate.
  all: injection Hx as <-; exact Hn.
Qed.

Lemma apply_iteration_layering (prev_frame : Frame) (st : VidStab) :
  chained prev_frame st ->
  wp (apply_iteration output_path max_frames smoothing_window output_fourcc
        border_mode_ border_size neg_border_size h w (Some f) playback
        prev_frame)
     (fun r st' =>
        (exists p, chained p st') /\
        (forall x, r = inr (Some x) -> chained (fst x) st')) st.
Proof.
  intros Hc.
  assert (Hsame : forall st', render_log st' = render_log st ->
                              chained prev_frame st').
  { intros st' Hl. destruct Hc as (evs & Hlog & Hrest).
    exists evs. rewrite Hl. auto. }
  unfold apply_iteration, read_frame. wp_steps.
  eapply wp_bind_spec.
  - apply enqueue_frame_io.
  - intros e s Hio. split; [|discriminate].
    exists prev_frame. apply Hsame. apply Hio.
  - intros [] s Hio. apply render_next_layering. apply Hsame. apply Hio.
Qed.

Lemma apply_loop_layering (fuel : nat) (prev_frame : Frame)
  (grabbed_frame : bool) (st : VidStab) :
  chained prev_frame st ->
  wp (apply_loop output_path max_frames smoothing_window output_fourcc
        border_mode_ border_size neg_border_size h w (Some f) playback
        fuel prev_frame grabbed_frame)
     (fun _ st' => exists p, chained p st') st.
Proof.
  revert prev_frame grabbed_frame st.
  induction fuel as [|fuel IH]; intros prev_frame grabbed_frame st Hc.
  - apply wp_raise. eauto.
  - cbn [apply_loop]. wp_steps; [|eauto].
    eapply wp_bind_spec.
    + apply (apply_iteration_layering prev_frame st Hc).
    + intros e s (Hany & _). exact Hany.
    + intros [next|] s (Hany & Hnext).
      * apply IH. apply (Hnext next eq_refl).
      * apply wp_ret. exact Hany.
Qed.

End Loop.

Lemma apply_transforms_layering (output_path : string)
  (max_frames : frame_cap) (smoothing_window : nat)
  (output_fourcc border_type : string) (border_size : Z)
  (f : Frame -> Frame -> Frame) (playback : bool) (st0 st : VidStab) :
  render_log st = render_log st0 ->
  wp (_apply_transforms output_path max_frames smoothing_window output_fourcc
        border_type border_size (Some f) playback)
     (fun _ st' =>
        exists evs, render_log st' = render_log st0 ++ evs /\
                    layered_log f evs) st.
Proof.
  intros Hlog.
  assert (Hnil : forall st', render_log st' = render_log st ->
            exists evs, render_log st' = render_log st0 ++ evs /\
                        layered_log f evs).
  { intros st' E. exists []. rewrite app_nil_r. split; [congruence|exact I]. }
  unfold _apply_transforms, popleft_frame, release_writer.
  wp_steps; try (apply Hnil; reflexivity).
  assert (Hout : forall s : VidStab,
            (exists q evs, render_log s = render_log st0 ++ evs /\
                           layered_chain f (fst p) evs /\
                           last_out (fst p) evs = q) ->
            exists evs, render_log s = render_log st0 ++ evs /\
                        layered_log f evs).
  { intros s (q & evs & Hl & Hch & _). exists evs. split; [exact Hl|].
    destruct evs as [|e evs]; [exact I|].
    cbn [layered_log]. rewrite (proj1 Hch). exact Hch. }
  eapply wp_bind_spec.
  - apply (apply_loop_layering _ _ _ _ _ _ _ _ _ f playback (fst p) st0).
    exists []. rewrite app_nil_r. cbn. auto.
  - intros e s Hl. apply Hout. exact Hl.
  - intros [] s Hl. apply Hout in Hl. wp_steps; exact Hl.
Qed.

(** X2. With a layering function [f], the frames rendered by a call of
    [stabilize] are layered as the test [i > 1] says: each output of
    index above 1 is [f] of its warp over the output before it, and each
    output of index 0 or 1 is its plain warp. *)
Lemma stabilize_layering (input : list Frame) (fps : Z)
  (output_path : string) (smoothing_window : nat) (max_frames : frame_cap)
  (border_type : string) (border_size : Z) (f : Frame -> Frame -> Frame)
  (playback use_stored_transforms : bool) (output_fourcc : string)
  (st : VidStab) :
  exists evs,
    render_log
      (snd (stabilize input fps output_path smoothing_window max_frames
              border_type border_size (Some f) playback
              use_stored_transforms output_fourcc st))
    = render_log st ++ evs /\
    layered_log f evs.
Proof.
  change (wp (stabilize input fps output_path smoothing_window max_frames
                border_type border_size (Some f) playback
                use_stored_transforms output_fourcc)
             (fun _ st' =>
                exists evs, render_log st' = render_log st ++ evs /\
                            layered_log f evs) st).
  unfold stabilize, stabilize_setup, open_capture. wp_steps.
  - eapply wp_bind_spec;
      [apply init_trajectory_compensated; apply Forall_nil| |].
    + intros e s (Hl & _). cbn in Hl.
      exists []. rewrite app_nil_r. split; [exact Hl|exact I].
    + intros [] s (Hl & _). cbn in Hl.
      apply apply_transforms_layering. exact Hl.
  - apply apply_transforms_layering. reflexivity.
Qed.

(** X3. With [use_stored_transforms=True] the rendering code starts from the
    queue that [stabilize] has just created empty, so that, the border
    type being one that passes the checks, the call ends in the
    [IndexError] of [popleft] with no frame read and none rendered. *)
Lemma stabilize_stored_transforms_fails (input : list Frame) (fps : Z)
  (output_path : string) (smoothing_window : nat) (max_frames : frame_cap)
  (border_type : string) (border_size : Z)
  (layer_func : option (Frame -> Frame -> Frame))
  (playback : bool) (output_fourcc : string) (st : VidStab) :
  In border_type ["black"%string; "reflect"%string; "replicate"%string] ->
  let r := stabilize input fps output_path smoothing_window max_frames
             border_type border_size layer_func playback true
             output_fourcc st in
  fst r = inl IndexError /\
  vc_pos (vid_cap (snd r)) = 0 /\
  render_log (snd r) = render_log st /\
  estimations (snd r) = estimations st.
Proof.
  intros Hin. cbn in Hin.
  destruct Hin as [<-|[<-|[<-|[]]]]; cbn; auto.
Qed.

End Layering.

(** ** Runs on which the code departs from its description *)

(** C6. Analysing the same four-frame clip twice on one instance, with
    the same window: both calls return normally, but [_raw_transforms]
    and [_trajectory] are only emptied by [__init__], so the second call
    appends to what the first left. The trajectory has three rows after
    the first call and six after the second, and neither array is
    repeated. *)
Theorem gen_transforms_twice :
  let r1 := run (gen_transforms (clip 4) 30 3) __init__ in
  let r2 := run (gen_transforms (clip 4) 30 3) (snd r1) in
  fst r1 = inr tt /\ fst r2 = inr tt /\
  option_map (@length _) (trajectory (snd r1)) = Some 3 /\
  option_map (@length _) (trajectory (snd r2)) = Some 6 /\
  trajectory (snd r1) <> trajectory (snd r2) /\
  smoothed_trajectory (snd r1) <> smoothed_trajectory (snd r2).
Proof.
  cbv zeta. repeat split; try (vm_compute; reflexivity);
    vm_compute; discriminate.
Qed.

(** C5. [apply_transforms] after [gen_transforms] on the same four-frame
    clip: the call passes [use_stored_transforms=False], so
    [_init_trajectory] runs again; the rigid fit is called three more
    times and three more deltas are recorded. *)
Theorem apply_transforms_estimates_again :
  let r1 := run (gen_transforms (clip 4) 30 3) __init__ in
  let r2 := run (apply_transforms (clip 4) 30 "out" "MJPG" "black" 0
                   None false) (snd r1) in
  fst r1 = inr tt /\ fst r2 = inr tt /\
  estimations (snd r1) = 3 /\ estimations (snd r2) = 6 /\
  length (_raw_transforms (snd r1)) = 3 /\
  length (_raw_transforms (snd r2)) = 6.
Proof. vm_compute. repeat split. Qed.

(** C8. With a layering function and a clip of exactly
    [smoothing_window + 1] frames the first frame rendered has index 0,
    and the test [i > 1] also leaves the second one, of index 1,
    unlayered: both frames written are plain warps. *)
Theorem second_output_not_layered :
  let r := run (stabilize (clip 4) 30 "out" 3 Unbounded "black" 0
                  (Some Layer) false false "MJPG") __init__ in
  fst r = inr tt /\
  map ev_index (render_log (snd r)) = [0; 1] /\
  map ev_out (render_log (snd r)) = map ev_warped (render_log (snd r)) /\
  written (snd r) = map ev_warped (render_log (snd r)).
Proof. vm_compute. repeat split. Qed.

(** On a longer clip the first frame rendered has index 1 and the
    layering is as described: the first output is the plain warp, each
    later one is the layering of its warp over the previous output. *)
Example layering_on_a_longer_clip :
  let r := run (stabilize (clip 6) 30 "out" 3 Unbounded "black" 0
                  (Some Layer) false false "MJPG") __init__ in
  fst r = inr tt /\
  map ev_index (render_log (snd r)) = [1; 2; 3; 4] /\
  (exists w1 w2 w3 w4,
     map ev_warped (render_log (snd r)) = [w1; w2; w3; w4] /\
     written (snd r) =
     [w1; Layer w2 w1; Layer w3 (Layer w2 w1);
      Layer w4 (Layer w3 (Layer w2 w1))]).
Proof.
  vm_compute. split; [reflexivity|]. split; [reflexivity|].
  do 4 eexists. split; reflexivity.
Qed.

(** * Further properties of the class *)

(** ** Edge cases of the public methods *)

Section Edges.
Context {F : Type} {SF : Scalar F} {CV : OpenCV F} {SM : Smoother F}.

(** X4. ['trail'] passes the test of line 208 but has no entry in the
    dictionary of line 211: whatever the clip and the other arguments, a
    call of [stabilize] with it ends in [KeyError('trail')] once the
    set-up has returned, or in the exception of the set-up, and leaves
    the instance as the set-up left it: no frame is popped, rendered or
    written. *)
Theorem trail_is_never_rendered (input : list Frame) (fps : Z)
  (output_path : string) (smoothing_window : nat) (max_frames : frame_cap)
  (border_size : Z) (layer_func : option (Frame -> Frame -> Frame))
  (playback use_stored_transforms : bool) (output_fourcc : string)
  (st : VidStab) :
  let setup := stabilize_setup input fps smoothing_window max_frames
                 use_stored_transforms st in
  let r := stabilize input fps output_path smoothing_window max_frames
             "trail" border_size layer_func playback
             use_stored_transforms output_fourcc st in
  snd r = snd setup /\
  fst r = match fst setup with
          | inr _ => inl (KeyError "trail")
          | inl e => inl e
          end.
Proof.
  cbv zeta. unfold stabilize, bind.
  destruct (stabilize_setup input fps smoothing_window max_frames
              use_stored_transforms st) as [[e|[]] s]; cbn; auto.
Qed.

(** X5. A clip without frames: [stabilize] (when it analyses the clip)
    and [gen_transforms] end in the OpenCV error of converting the
    missing first frame, having opened the clip and created the two
    queues and nothing else. *)
Theorem empty_clip_raises (fps : Z) (output_path : string)
  (smoothing_window : nat) (max_frames : frame_cap) (border_type : string)
  (border_size : Z) (layer_func : option (Frame -> Frame -> Frame))
  (playback : bool) (output_fourcc : string) (st : VidStab) :
  let opened :=
    upd_frame_queue_inds (deque_new nat smoothing_window)
      (upd_frame_queue (deque_new Frame smoothing_window)
         (upd_vid_cap (mkCapture [] 0 fps) st)) in
  stabilize [] fps output_path smoothing_window max_frames border_type
    border_size layer_func playback false output_fourcc st
  = (inl cv2_error, opened) /\
  gen_transforms [] fps smoothing_window st
  = (inl cv2_error, upd__smoothing_window (Some smoothing_window) opened).
Proof. split; reflexivity. Qed.

(** X7. [_gen_next_raw_transform] fails only before it assigns anything:
    when it raises, the exception is an [IndexError] (an empty queue, or
    a status longer than the key points), the [TypeError] of looping
    over the status of a flow that returned nothing, or an OpenCV error,
    and every attribute of the instance is as it was. Of the fields
    kept beside the attributes the count of fits alone can differ: it is
    one higher when the fit itself raised. (On an instance whose queue
    was never created the first line fails on [None[-1]], a [TypeError]
    too, where an empty queue gives the [IndexError].) *)
Theorem gen_next_raw_transform_fails_clean (st : VidStab) (e : exn) :
  fst (_gen_next_raw_transform st) = inl e ->
  (e = IndexError \/ e = TypeError \/ e = cv2_error) /\
  upd_estimations (estimations st) (snd (_gen_next_raw_transform st)) = st /\
  (e <> cv2_error -> snd (_gen_next_raw_transform st) = st).
Proof.
  revert e.
  change (wp _gen_next_raw_transform
            (fun r st' => forall e, r = inl e ->
               (e = IndexError \/ e = TypeError \/ e = cv2_error) /\
               upd_estimations (estimations st) st' = st /\
               (e <> cv2_error -> st' = st)) st).
  destruct st. unfold _gen_next_raw_transform. wp_steps; cbn; intros e He;
    try discriminate; injection He as <-;
    (split; [auto|]); (split; [reflexivity|]);
    intros Hne; try reflexivity; try congruence.
Qed.

End Edges.

(** After a featureless frame the flow is given no point to track. *)
Lemma gen_next_raw_transform_fails_clean_witness :
  let st : @VidStab Q image_cv :=
    upd_prev_gray (Some (Src (-1) 40 60))
      (upd_prev_kps (Some [])
         (upd_frame_queue (mkDeque 3 [Src (-1) 40 60; Src 2 40 60])
                          __init__)) in
  (TypeError = IndexError \/ TypeError = TypeError \/ TypeError = cv2_error) /\
  upd_estimations (estimations st) (snd (_gen_next_raw_transform st)) = st /\
  (TypeError <> cv2_error -> snd (_gen_next_raw_transform st) = st).
Proof.
  intro st.
  apply (gen_next_raw_transform_fails_clean (SF := Q_scalar) (CV := image_cv)
           st TypeError).
  reflexivity.
Defined.

Lemma stabilize_stored_transforms_fails_witness :
  let r := run (stabilize (clip 4) 30 "out" 3 Unbounded "black" 0 None
                  false true "MJPG") __init__ in
  fst r = inl IndexError /\
  vc_pos (vid_cap (snd r)) = 0 /\
  render_log (snd r) = render_log __init__ /\
  estimations (snd r) = estimations __init__.
Proof.
  apply (stabilize_stored_transforms_fails (SF := Q_scalar) (CV := image_cv)
           (SM := Q_smoother) (clip 4) 30 "out" 3 Unbounded "black" 0 None
           false "MJPG" __init__).
  simpl. auto.
Defined.

(** ** The shapes a border size produces *)

Section BorderShapes.
Context {F : Type} {SF : Scalar F} {CV : OpenCV F}.

(** X6. The crop of lines 269-271 on every size of frame: with
    [border_size = k > 0] the output has [2k] more pixels than the first
    frame in each dimension, and with [border_size = -k] it has [2k]
    fewer, or none at all when the frame has fewer than [2k]: the slice
    never wraps around and never yields a negative size. *)
Theorem border_size_shapes (b : border_mode) (prev_frame frame_i : Frame)
  (t : vec3 F) (k H W : Z) :
  frame_shape prev_frame = (H, W) ->
  (0 <= H)%Z -> (0 <= W)%Z -> (0 < k)%Z ->
  frame_shape (rendered b k prev_frame frame_i t)
  = (H + 2 * k, W + 2 * k)%Z /\
  frame_shape (rendered b (- k) prev_frame frame_i t)
  = (Z.max 0 (H - 2 * k), Z.max 0 (W - 2 * k)).
Proof.
  intros Hs HH HW Hk.
  assert (Hneg : border_sizes (- k) = (100, 100 + k)%Z).
  { unfold border_sizes. destruct (Z.ltb_spec (- k) 0); [|lia].
    f_equal. lia. }
  assert (Hpos : border_sizes k = (k, 0%Z)).
  { unfold border_sizes. destruct (Z.ltb_spec k 0); [lia|reflexivity]. }
  assert (Hp : forall n, (0 <= n)%Z ->
            py_slice_len (n + 2 * k + k * 2) (k + 0)
              (n + 2 * k + k * 2 - (k + 0)) = (n + 2 * k)%Z).
  { intros n Hn. unfold py_slice_len, py_clip.
    repeat match goal with
           | |- context [(?a <? ?b)%Z] => destruct (Z.ltb_spec a b)
           end; lia. }
  assert (Hn : forall n, (0 <= n)%Z ->
            py_slice_len (n + 2 * 100 + 100 * 2) (100 + (100 + k))
              (n + 2 * 100 + 100 * 2 - (100 + (100 + k)))
            = Z.max 0 (n - 2 * k)).
  { intros n Hn. unfold py_slice_len, py_clip.
    repeat match goal with
           | |- context [(?a <? ?b)%Z] => destruct (Z.ltb_spec a b)
           end; lia. }
  unfold rendered, warp_and_crop. rewrite Hneg, Hpos. cbn [fst snd].
  rewrite !slice2_shape, !warpAffine_shape, Hs. cbn [fst snd].
  rewrite !Hp, !Hn by assumption. auto.
Qed.

End BorderShapes.

Lemma border_size_shapes_witness :
  image_shape (rendered BORDER_CONSTANT 20 (Src 0 10 10) (Src 0 10 10)
                 (mkVec 0 0 0)%Q)
  = (10 + 2 * 20, 10 + 2 * 20)%Z /\
  image_shape (rendered BORDER_CONSTANT (- 20) (Src 0 10 10) (Src 0 10 10)
                 (mkVec 0 0 0)%Q)
  = (Z.max 0 (10 - 2 * 20), Z.max 0 (10 - 2 * 20)).
Proof.
  apply (border_size_shapes (CV := image_cv) BORDER_CONSTANT
           (Src 0 10 10) (Src 0 10 10) (mkVec 0 0 0)%Q 20 10 10).
  - reflexivity.
  - lia.
  - lia.
  - lia.
Defined.

(** ** Accumulating onto an instance that holds a trajectory *)

Section Continue.
Context {F : Type} {SF : Scalar F} {CV : OpenCV F}.

(** X8. [_raw_transforms] and [_trajectory] are extended, never
    restarted: accumulating the deltas [ds] onto an instance whose
    trajectory ends in the row [t] appends [ds] to the recorded deltas
    and, to the trajectory, the rows [t + d0], [(t + d0) + d1], ...: the
    running sum goes on from [t]. *)
Theorem accumulate_continues (st : VidStab) (t : vec3 F)
  (ds : list (vec3 F)) :
  last_error (_trajectory st) = Some t ->
  let st' := fold_left accumulate ds st in
  _raw_transforms st' = _raw_transforms st ++ ds /\
  exists rows,
    _trajectory st' = _trajectory st ++ rows /\
    length rows = length ds /\
    forall i, i < length ds ->
      nth_error rows i = Some (fold_left vadd (firstn (S i) ds) t).
Proof.
  intros Ht. cbv zeta.
  induction ds as [|d ds IH] using rev_ind.
  - split; [now rewrite app_nil_r|]. exists []. rewrite app_nil_r.
    repeat split. intros i Hi. simpl in Hi. lia.
  - destruct IH as (Hraw & rows & Htraj & Hlen & Hrows).
    rewrite accumulate_all_snoc, accumulate_raw_transforms,
      accumulate_trajectory.
    split; [rewrite Hraw, <- app_assoc; reflexivity|].
    set (u := fold_left vadd ds t).
    assert (Hlast : last_error (_trajectory (fold_left accumulate ds st))
                    = Some u).
    { rewrite Htraj. destruct ds as [|d0 ds'] using rev_ind.
      - destruct rows; [|discriminate]. rewrite app_nil_r. exact Ht.
      - clear IHds'. rewrite length_app in Hlen. simpl in Hlen.
        specialize (Hrows (length ds') ltac:(rewrite length_app; simpl; lia)).
        rewrite firstn_all2 in Hrows by (rewrite length_app; simpl; lia).
        fold u in Hrows.
        destruct rows as [|r0 rows'] using rev_ind; [simpl in Hlen; lia|].
        clear IHrows'. rewrite length_app in Hlen. simpl in Hlen.
        rewrite nth_error_app2 in Hrows by lia.
        replace (length ds' - length rows') with 0 in Hrows by lia.
        simpl in Hrows. injection Hrows as ->.
        rewrite app_assoc. apply last_error_snoc. }
    exists (rows ++ [vadd u d]).
    rewrite (append_trajectory_last _ _ _ Hlast), Htraj, <- app_assoc.
    split; [reflexivity|]. rewrite !length_app. cbn [length].
    split; [lia|]. intros i Hi.
    destruct (Nat.eq_dec i (length ds)) as [->|Hne].
    + rewrite nth_error_app2 by lia.
      replace (length ds - length rows) with 0 by lia. cbn [nth_error].
      rewrite firstn_all2 by (rewrite length_app; simpl; lia).
      rewrite fold_left_app. reflexivity.
    + rewrite nth_error_app1 by lia.
      rewrite Hrows by lia.
      rewrite firstn_app. replace (S i - length ds) with 0 by lia.
      cbn [firstn]. now rewrite app_nil_r.
Qed.

End Continue.

Lemma accumulate_continues_witness :
  let st : @VidStab Q image_cv :=
    upd__trajectory [mkVec 1 0 0]%Q
      (upd__raw_transforms [mkVec 1 0 0]%Q __init__) in
  let ds := [mkVec 2 0 0; mkVec 3 0 0]%Q in
  let st' := fold_left accumulate ds st in
  _raw_transforms st' = _raw_transforms st ++ ds /\
  exists rows,
    _trajectory st' = _trajectory st ++ rows /\
    length rows = length ds /\
    forall i, i < length ds ->
      nth_error rows i
      = Some (fold_left vadd (firstn (S i) ds) (mkVec 1 0 0)%Q).
Proof.
  intros st ds.
  apply (accumulate_continues (SF := Q_scalar) (CV := image_cv) st
           (mkVec 1 0 0)%Q ds).
  reflexivity.
Defined.

(** ** Which frames a call renders, and with which indices *)

Section ExactLists.
Context {A : Type}.

Lemma skipn_snoc (a : nat) (l : list A) (x : A) :
  a <= length l -> skipn a (l ++ [x]) = skipn a l ++ [x].
Proof.
  intros H. rewrite skipn_app. replace (a - length l) with 0 by lia.
  reflexivity.
Qed.

Lemma skipn_head (a : nat) (l r : list A) (x : A) :
  skipn a l = x :: r -> nth_error l a = Some x /\ r = skipn (S a) l.
Proof.
  revert l. induction a as [|a IH]; intros [|y l] H; simpl in *;
    try discriminate.
  - injection H as -> ->. auto.
  - apply IH. exact H.
Qed.

Lemma nth_error_firstn_some (n a : nat) (l : list A) (x : A) :
  nth_error (firstn n l) a = Some x -> nth_error l a = Some x.
Proof.
  revert n l. induction a as [|a IH]; intros [|n] [|y l] H; simpl in *;
    try discriminate; auto.
  apply (IH n l H).
Qed.

Lemma lastn_short (w : nat) (l : list A) : length l <= w -> lastn w l = l.
Proof.
  intros H. unfold lastn. replace (length l - w) with 0 by lia. reflexivity.
Qed.

Lemma lastn_length (w : nat) (l : list A) :
  length (lastn w l) = min (length l) w.
Proof. unfold lastn. rewrite length_skipn. lia. Qed.

(** Appending to a deque that holds the last items of [l] gives the last
    items of [l] with the new one. *)
Lemma deque_append_lastn (d : deque A) (l : list A) (x : A) :
  items d = lastn (maxlen d) l ->
  items (deque_append d x) = lastn (maxlen d) (l ++ [x]) /\
  maxlen (deque_append d x) = maxlen d.
Proof.
  intros H. unfold deque_append. rewrite H, lastn_length.
  destruct (Nat.ltb_spec (min (length l) (maxlen d)) (maxlen d)) as [Hlt|Hge];
    cbn; (split; [|reflexivity]).
  - rewrite !lastn_short by (rewrite ?length_app; simpl; lia). reflexivity.
  - unfold lastn. rewrite length_app. simpl.
    rewrite <- skipn_snoc by lia.
    replace (length l + 1 - maxlen d) with (1 + (length l - maxlen d)) by lia.
    rewrite <- skipn_skipn. reflexivity.
Qed.

Lemma deque_append_room (d : deque A) (x : A) :
  length (items d) < maxlen d ->
  items (deque_append d x) = items d ++ [x] /\
  maxlen (deque_append d x) = maxlen d.
Proof.
  intros H. unfold deque_append.
  destruct (Nat.ltb_spec (length (items d)) (maxlen d)); [auto|lia].
Qed.

Lemma deque_append_full (d : deque A) (x : A) :
  length (items d) = maxlen d ->
  items (deque_append d x) = tl (items d ++ [x]) /\
  maxlen (deque_append d x) = maxlen d.
Proof.
  intros H. unfold deque_append.
  destruct (Nat.ltb_spec (length (items d)) (maxlen d)); [lia|auto].
Qed.

End ExactLists.

Lemma last_error_seq (b k : nat) : last_error (seq b (S k)) = Some (b + k).
Proof.
  rewrite seq_S. apply last_error_snoc.
Qed.

Lemma seq_head (b k i : nat) (r : list nat) :
  seq b k = i :: r -> i = b /\ r = seq (S b) (k - 1) /\ 1 <= k.
Proof.
  destruct k as [|k]; [discriminate|]. simpl. intros [= <- <-].
  rewrite Nat.sub_0_r. repeat split. lia.
Qed.

Section Exact.
Context {F : Type} {SF : Scalar F} {CV : OpenCV F} {SM : Smoother F}.

Variables (input : list Frame) (smoothing_window : nat)
          (max_frames : frame_cap) (st0 : VidStab).

Hypothesis window_positive : 1 <= smoothing_window.

Let done := render_done input smoothing_window max_frames st0.
Let mid := render_mid input smoothing_window max_frames st0.
Let head := render_head input smoothing_window max_frames st0.

(** What [enqueue_frame] does to the two queues. *)
Lemma enqueue_frame_exact (f : Frame) (st : VidStab) :
  wp (enqueue_frame smoothing_window (Some f))
     (fun r st' =>
        vid_cap st' = vid_cap st /\ writer st' = writer st /\
        render_log st' = render_log st /\
        frame_queue st' = deque_append (frame_queue st) f /\
        (r = inr tt ->
         exists l, last_error (items (frame_queue_inds st)) = Some l /\
                   frame_queue_inds st' =
                   deque_append (frame_queue_inds st) (S l))) st.
Proof.
  unfold enqueue_frame. wp_steps; [|cbn; repeat split; discriminate].
  eapply wp_bind_spec; [apply gen_next_raw_transform_spec| |].
  - intros e s ((H1 & _ & H3 & H4 & H5) & _). cbn in *.
    repeat split; auto. discriminate.
  - intros [] s ((H1 & H2 & H3 & H4 & H5) & _). cbn in *.
    eapply wp_mono; [apply gen_transforms_spec|].
    intros r s' ((G1 & G2 & G3 & G4 & G5) & _).
    repeat split; try congruence.
    intros _. eexists. split; [eassumption|congruence].
Qed.

Lemma mid_done (p : nat) (st : VidStab) : mid p st -> done p st.
Proof.
  intros (Hf & Hp & _ & _ & _ & evs & s & k & Hlog & _ & Htr & Hs & Hal &
          _ & Hle & _).
  split; [exact Hf|]. split; [exact Hp|].
  exists evs, s. split; [exact Hlog|]. split; [exact Htr|].
  split; [|exact Hle]. split; [exact Hs|].
  destruct Hal as [E|(E1 & E2 & E3)]; [left; exact E|right; auto].
Qed.

Lemma done_same (p : nat) (st st' : VidStab) :
  vid_cap st' = vid_cap st -> render_log st' = render_log st ->
  done p st -> done p st'.
Proof. unfold done, render_done. intros -> ->. auto. Qed.

Lemma head_done (p : nat) (st : VidStab) : head p st -> done p st.
Proof.
  intros (Hf & Hp & _ & _ & _ & evs & s & k & Hlog & _ & Htr & Hs &
          _ & Hle & _ & Hmode).
  split; [exact Hf|]. split; [exact Hp|].
  exists evs, s. split; [exact Hlog|]. split; [exact Htr|].
  split; [|exact Hle]. split; [exact Hs|].
  destruct Hmode as [(E & _)|[(_ & E1 & E2 & E3 & _)|(E1 & E2 & E3 & _)]].
  - left. exact E.
  - right. repeat split; auto. intros H. contradiction.
  - right. auto.
Qed.

Lemma render_trace_snoc (p s : nat) (evs : list (RenderEvent Frame))
  (e : RenderEvent Frame) :
  render_trace input max_frames p s evs ->
  nth_error input (p + length evs) = Some (ev_frame e) ->
  ev_index e = s + length evs ->
  reaches_cap (Z.of_nat (ev_index e)) max_frames = false ->
  render_trace input max_frames p s (evs ++ [e]).
Proof.
  intros (Hfr & Hix & Hcap) Hnth He Hc. unfold render_trace.
  rewrite !map_app, length_app. cbn [map length].
  replace (length evs + 1) with (S (length evs)) by lia.
  split; [|split].
  - rewrite (firstn_snoc_nth _ _ (ev_frame e)); [now rewrite Hfr|].
    rewrite nth_error_skipn. exact Hnth.
  - rewrite seq_S, Hix, He. reflexivity.
  - apply Forall_app. split; [exact Hcap|]. constructor; [exact Hc|constructor].
Qed.

(** One rendering, seen from the state between reading and rendering. *)
Lemma exact_after_render (p : nat) (st st' : VidStab)
  (e : RenderEvent Frame) (qi : deque nat) (qf : deque Frame) :
  mid p st ->
  deque_popleft (frame_queue_inds st) = Some (ev_index e, qi) ->
  deque_popleft (frame_queue st) = Some (ev_frame e, qf) ->
  reaches_cap (Z.of_nat (ev_index e)) max_frames = false ->
  vid_cap st' = vid_cap st -> frame_queue st' = qf ->
  frame_queue_inds st' = qi ->
  render_log st' = render_log st ++ [e] ->
  done p st' /\
  (written st' = written st ++ [ev_out e] -> head p st').
Proof.
  intros (Hf & Hp & Hmq & Hmi & Hlen & evs & s & k & Hlog & Hw & Htr & Hs &
          Hal & Hq & Hle & Hi & Hk) Hpi Hpf Hcap Hvc Hqf Hqi Hl.
  apply deque_popleft_items in Hpi. destruct Hpi as [Hii Hmi'].
  apply deque_popleft_items in Hpf. destruct Hpf as [Hif Hmq'].
  rewrite Hi in Hii. apply seq_head in Hii. destruct Hii as (Hix & Hrest & Hk1).
  rewrite Hq in Hif. apply skipn_head in Hif.
  destruct Hif as [Hnth Hrest'].
  apply nth_error_firstn_some in Hnth as Hnth'.
  assert (Hpos : p + length evs < vc_pos (vid_cap st)).
  { assert (Hn : nth_error (firstn (vc_pos (vid_cap st)) input)
                   (p + length evs) <> None) by congruence.
    apply nth_error_Some in Hn. rewrite length_firstn in Hn. lia. }
  assert (Htr' : render_trace input max_frames p s (evs ++ [e]))
    by (apply render_trace_snoc; auto).
  assert (Hlog' : render_log st' = render_log st0 ++ evs ++ [e])
    by (rewrite Hl, Hlog, app_assoc; reflexivity).
  assert (Hlen' : length (evs ++ [e]) = S (length evs))
    by (rewrite length_app; simpl; lia).
  split.
  - split; [congruence|]. split; [congruence|].
    exists (evs ++ [e]), s. rewrite Hvc, Hlen'.
    split; [exact Hlog'|]. split; [exact Htr'|]. split; [|lia].
    split; [exact Hs|].
    destruct Hal as [E|(E1 & E2 & E3)]; [left; exact E|right; auto].
  - intros Hw'.
    split; [congruence|]. split; [congruence|].
    rewrite Hqf, Hqi. split; [congruence|]. split; [congruence|].
    assert (Hlq : length (items (frame_queue st)) = S (length (items qf))).
    { rewrite Hq, Hrest', !length_skipn, length_firstn. lia. }
    split; [lia|].
    exists (evs ++ [e]), s, (k - 1). rewrite Hvc, Hlen'.
    split; [exact Hlog'|].
    split; [rewrite Hw', Hw, map_app, app_assoc; reflexivity|].
    split; [exact Htr'|]. split; [exact Hs|].
    split; [rewrite Hrest'; f_equal; lia|].
    split; [lia|].
    split; [rewrite Hrest; f_equal; lia|].
    destruct Hal as [E|(E1 & E2 & E3)].
    + left. split; [exact E|lia].
    + right. right. repeat split; auto. lia.
Qed.

Section Loop.
Variables (output_path : string) (output_fourcc : string)
          (border_mode_ : border_mode) (border_size neg_border_size h w : Z)
          (layer_func : option (Frame -> Frame -> Frame)) (playback : bool)
          (p : nat).

Lemma render_next_exact (prev_frame : Frame) (grabbed_frame : bool)
  (st : VidStab) :
  mid p st ->
  wp (render_next output_path max_frames output_fourcc border_mode_
        border_size neg_border_size h w layer_func playback
        prev_frame grabbed_frame)
     (fun r st' =>
        done p st' /\
        (r = inr None -> playback = false -> max_frames <> Unbounded) /\
        (forall x, r = inr (Some x) ->
           head p st' /\ items (frame_queue st) <> [] /\
           snd x = grabbed_frame)) st.
Proof.
  intros Hmid. pose proof (mid_done _ _ Hmid) as Hdone.
  unfold render_next, popleft_index, popleft_frame, _init_writer, write_frame.
  wp_steps; cbn.
  all: try (split; [eapply done_same; [| |exact Hdone]; reflexivity
                   |split; [discriminate|discriminate]]).
  all: cbn in *.
  all: try match goal with
           | H : reaches_cap _ _ = true |- _ =>
             split; [eapply done_same; [| |exact Hdone]; reflexivity|];
             split; [intros _ _ ->; discriminate|discriminate]
           end.
  all: destruct p0 as [i qi]; destruct p1 as [frame_i qf]; cbn in *.
  all: try congruence.
  all: match goal with
       | |- done p ?s' /\ _ =>
         match goal with
         | |- context [render_log _ ++ [?e]] =>
           match goal with
           | Hpi : deque_popleft (frame_queue_inds ?s) = Some _,
             Hpf : deque_popleft (frame_queue _) = Some _,
             Hc : reaches_cap _ _ = false |- _ =>
             destruct (exact_after_render p st s' e qi qf Hmid Hpi Hpf Hc
                         eq_refl eq_refl eq_refl eq_refl) as [Hex Hhead]
           end
         end
       end.
  all: split; [exact Hex|].
  all: assert (Hne : items (frame_queue st) <> [])
         by (match goal with
             | Hpf : deque_popleft (frame_queue _) = Some _ |- _ =>
               apply deque_popleft_items in Hpf; destruct Hpf as [Hpf _];
               cbn in Hpf; rewrite Hpf; discriminate
             end).
  - split; [|discriminate]. intros _ Hpb. rewrite Hpb in *. discriminate.
  - split; [discriminate|]. intros x Hx. injection Hx as <-.
    split; [|auto]. apply Hhead. unfold written. cbn.
    repeat match goal with H : writer _ = _ |- _ => rewrite H end.
    reflexivity.
  - split; [discriminate|]. intros x Hx. injection Hx as <-.
    match goal with H : Some _ = Some _ |- _ => injection H as <- end.
    split; [|auto]. apply Hhead. unfold written. cbn.
    repeat match goal with H : writer _ = _ |- _ => rewrite H end.
    reflexivity.
Qed.


Lemma render_next_vid_cap (prev_frame : Frame) (grabbed_frame : bool)
  (st : VidStab) :
  wp (render_next output_path max_frames output_fourcc border_mode_
        border_size neg_border_size h w layer_func playback
        prev_frame grabbed_frame)
     (fun _ st' => vid_cap st' = vid_cap st) st.
Proof.
  unfold render_next, popleft_index, popleft_frame, _init_writer, write_frame.
  wp_steps; reflexivity.
Qed.

Lemma head_read_some (st s : VidStab) (f : Frame) :
  head p st ->
  nth_error input (vc_pos (vid_cap st)) = Some f ->
  vid_cap s = mkCapture input (S (vc_pos (vid_cap st))) (vc_fps (vid_cap st)) ->
  writer s = writer st -> render_log s = render_log st ->
  frame_queue s = deque_append (frame_queue st) f ->
  done p s /\
  (forall l, last_error (items (frame_queue_inds st)) = Some l ->
     frame_queue_inds s = deque_append (frame_queue_inds st) (S l) ->
     mid p s).
Proof.
  intros Hh Hnth Hvc Hwr Hl Hq.
  pose proof (head_done _ _ Hh) as (_ & _ & evs0 & s0 & D1 & D2 & D3 & D4).
  destruct Hh as (Hf & Hp & Hmq & Hmi & Hroom & evs & s1 & k & Hlog & Hw &
                  Htr & Hs & Hiq & Hle & Hii & Hmode).
  assert (Hlt : vc_pos (vid_cap st) < length input)
    by (apply nth_error_Some; congruence).
  split.
  - split; [rewrite Hvc; reflexivity|]. split; [rewrite Hvc; cbn; lia|].
    exists evs0, s0. rewrite Hl, Hvc. cbn [vc_pos].
    split; [exact D1|]. split; [exact D2|]. split; [exact D3|]. lia.
  - intros l Hlast Hi.
    destruct (deque_append_room (frame_queue st) f) as [Hqi Hqm]; [lia|].
    assert (Hk : 1 <= k /\ S l = s1 + length evs + k).
    { rewrite Hii in Hlast. destruct k as [|k]; [discriminate|].
      rewrite last_error_seq in Hlast. injection Hlast as <-. lia. }
    destruct Hk as [Hk1 HSl].
    assert (Hqueue : items (frame_queue s) =
                     skipn (p + length evs)
                       (firstn (S (vc_pos (vid_cap st))) input)).
    { rewrite Hq, Hqi, Hiq, (firstn_snoc_nth _ _ _ Hnth).
      rewrite skipn_snoc; [reflexivity|]. rewrite length_firstn. lia. }
    assert (Hgeneric : forall s' k' evs',
              evs' = evs ->
              render_trace input max_frames p s' evs' ->
              s' <= 1 ->
              (p = s' + 1 \/ p = 2 /\ s' = 0 /\ length input = smoothing_window + 1) ->
              items (frame_queue_inds s) = seq (s' + length evs') k' ->
              k' <= smoothing_window ->
              mid p s).
    { intros s' k' evs' -> Htr' Hs' Hal' Hinds Hk'.
      split; [rewrite Hvc; reflexivity|]. split; [rewrite Hvc; cbn; lia|].
      split; [rewrite Hq; congruence|].
      split; [rewrite Hi; unfold deque_append;
              destruct (_ <? _); cbn; exact Hmi|].
      split; [rewrite Hq, Hqi, length_app; simpl; lia|].
      exists evs, s', k'. rewrite Hl, Hvc. unfold written in *. rewrite Hwr.
      cbn [vc_pos]. repeat split; auto; try lia; apply Htr'. }
    destruct Hmode as [(E & Hkw)|[(Hkw & E1 & E2 & E3 & E4)|(E1 & E2 & E3 & Hkw)]].
    + destruct (deque_append_room (frame_queue_inds st) (S l)) as [Hin _];
        [rewrite Hii, length_seq; lia|].
      apply (Hgeneric s1 (S k) evs); auto; try lia.
      rewrite Hi, Hin, Hii, seq_S, HSl. reflexivity.
    + subst evs s1 k.
      destruct (deque_append_full (frame_queue_inds st) (S l))
        as [Hin _]; [rewrite Hii, length_seq; lia|].
      apply (Hgeneric 1 smoothing_window []);
        [reflexivity|repeat split; constructor|lia|left; lia| |lia].
      rewrite Hi, Hin, Hii. cbn [length] in *.
      replace (0 + 0) with 0 in * by lia.
      replace (S l) with (0 + smoothing_window) by lia.
      rewrite <- seq_S. reflexivity.
    + destruct (deque_append_room (frame_queue_inds st) (S l)) as [Hin _];
        [rewrite Hii, length_seq; lia|].
      apply (Hgeneric s1 (S k) evs); auto; try lia.
      rewrite Hi, Hin, Hii, seq_S, HSl. reflexivity.
Qed.

Lemma head_read_none (st s : VidStab) :
  head p st ->
  nth_error input (vc_pos (vid_cap st)) = None ->
  vid_cap s = vid_cap st -> writer s = writer st ->
  render_log s = render_log st -> frame_queue s = frame_queue st ->
  frame_queue_inds s = frame_queue_inds st ->
  mid p s /\ vc_pos (vid_cap st) = length input.
Proof.
  intros (Hf & Hp & Hmq & Hmi & Hroom & evs & s1 & k & Hlog & Hw &
          Htr & Hs & Hiq & Hle & Hii & Hmode) Hnth Hvc Hwr Hl Hq Hi.
  apply nth_error_None in Hnth.
  assert (Hn : vc_pos (vid_cap st) = length input) by lia.
  split; [|exact Hn].
  unfold mid, render_mid, written in *. rewrite Hvc, Hwr, Hl, Hq, Hi.
  split; [exact Hf|]. split; [exact Hp|]. split; [exact Hmq|].
  split; [exact Hmi|]. split; [lia|].
  exists evs, s1, k. repeat split; auto; try apply Htr.
  - destruct Hmode as [(E & _)|[(_ & E1 & E2 & E3 & E4)|(E1 & E2 & E3 & _)]];
      [left; exact E|right|right]; repeat split; auto; lia.
  - destruct Hmode as [(_ & Hk)|[(Hk & _)|(_ & _ & _ & Hk)]]; lia.
Qed.

Lemma apply_iteration_exact (prev_frame : Frame) (st : VidStab) :
  head p st ->
  wp (apply_iteration output_path max_frames smoothing_window output_fourcc
        border_mode_ border_size neg_border_size h w layer_func playback
        prev_frame)
     (fun r st' =>
        done p st' /\
        (r = inr None -> playback = false -> max_frames <> Unbounded) /\
        (forall x, r = inr (Some x) ->
           head p st' /\
           (snd x = false ->
            vc_pos (vid_cap st') = length input /\
            items (frame_queue st) <> []) /\
           (snd x = true -> vc_pos (vid_cap st) < length input))) st.
Proof.
  intros Hh. pose proof Hh as (Hf & _).
  unfold apply_iteration, read_frame. wp_steps.
  destruct (fst (vc_read (vid_cap st))) as [f|] eqn:Hr.
  - destruct (vc_read_some _ _ Hr) as [Hnth Hsnd]. rewrite Hf in Hnth, Hsnd.
    eapply wp_bind_spec; [apply enqueue_frame_exact| |].
    + intros e s (H1 & H2 & H3 & H4 & _). cbn in *.
      split; [|split; discriminate].
      apply (head_read_some st s f); congruence.
    + intros [] s (H1 & H2 & H3 & H4 & H5).
      destruct (H5 eq_refl) as (l & Hl & Hi). cbn in *.
      eapply wp_mono.
      * apply render_next_exact.
        apply (proj2 (head_read_some st s f Hh Hnth ltac:(congruence)
                        H2 H3 H4) l Hl Hi).
      * intros r s' (Hd & Hn & Hx). split; [exact Hd|]. split; [exact Hn|].
        intros x Hxr. destruct (Hx x Hxr) as (Hh' & _ & Hg).
        split; [exact Hh'|]. split; [intros E; congruence|].
        intros _. apply nth_error_Some. congruence.
  - pose proof (vc_read_none _ Hr) as Hsnd.
    rewrite vc_read_fst, Hf in Hr.
    unfold enqueue_frame. wp_step.
    match goal with
    | |- wp _ _ ?s1 =>
      destruct (head_read_none st s1 Hh Hr) as [Hm Hpos];
        [cbn; congruence|reflexivity|reflexivity|reflexivity|reflexivity|]
    end.
    eapply wp_mono;
      [apply wp_conj; [apply render_next_exact; exact Hm
                      |apply render_next_vid_cap]|].
    intros r s' ((Hd & Hn & Hx) & Hvc). cbn in Hvc.
    split; [exact Hd|]. split; [exact Hn|].
    intros x Hxr. destruct (Hx x Hxr) as (Hh' & Hne & Hg).
    split; [exact Hh'|]. split; [|intros E; congruence].
    intros _. split; [|exact Hne]. rewrite Hvc, Hsnd. exact Hpos.
Qed.

(** The second loop: what was rendered at whatever exit, and at the
    normal exit of a run without cap or playback. *)
Lemma apply_loop_exact (fuel : nat) (prev_frame : Frame)
  (grabbed_frame : bool) (st : VidStab) :
  head p st ->
  (grabbed_frame = false -> vc_pos (vid_cap st) = length input) ->
  wp (apply_loop output_path max_frames smoothing_window output_fourcc
        border_mode_ border_size neg_border_size h w layer_func playback
        fuel prev_frame grabbed_frame)
     (fun r st' =>
        done p st' /\
        (r = inr tt -> playback = false -> max_frames = Unbounded ->
         full_run input smoothing_window max_frames st0 p st')) st.
Proof.
  revert prev_frame grabbed_frame st.
  induction fuel as [|fuel IH]; intros prev_frame grabbed_frame st Hh Hg.
  - apply wp_raise. split; [exact (head_done _ _ Hh)|discriminate].
  - cbn [apply_loop]. wp_steps.
    + eapply wp_bind_spec.
      * apply (apply_iteration_exact prev_frame st Hh).
      * intros e s (Hd & _). split; [exact Hd|discriminate].
      * intros [next|] s (Hd & Hn & Hx).
        -- destruct (Hx next eq_refl) as (Hh' & Hfalse & _).
           apply IH; [exact Hh'|]. intros E. apply (Hfalse E).
        -- apply wp_ret. split; [exact Hd|].
           intros _ Hpb Hmf. exfalso. apply (Hn eq_refl Hpb Hmf).
    + split; [exact (head_done _ _ Hh)|]. intros _ _ _.
      apply orb_false_iff in Heqb. destruct Heqb as [Hq Hgf].
      specialize (Hg Hgf).
      destruct Hh as (Hf & Hp & Hmq & Hmi & Hroom & evs & s1 & k & Hlog &
                      Hw & Htr & Hs & Hiq & Hle & Hii & Hmode).
      apply Nat.ltb_ge in Hq.
      assert (Hlen : p + length evs = length input).
      { rewrite Hiq, length_skipn, length_firstn in Hq. lia. }
      exists evs, s1. split; [exact Hlog|]. split; [exact Hw|].
      split; [exact Htr|]. split; [|exact Hlen]. split; [exact Hs|].
      destruct Hmode
        as [(E & _)|[(_ & E1 & E2 & E3 & _)|(E1 & E2 & E3 & _)]].
      * left. exact E.
      * right. repeat split; auto. intros H. contradiction.
      * right. auto.
Qed.


(** With an empty queue at the head of the loop, and either a window of
    one frame or an exhausted clip, the loop cannot end normally: it
    cannot stop while a frame was read, and the pass on which [read]
    fails pops from the empty queue. *)
Lemma apply_loop_starved (fuel : nat) (prev_frame : Frame) (st : VidStab) :
  head p st -> items (frame_queue st) = [] ->
  smoothing_window = 1 \/ vc_pos (vid_cap st) = length input ->
  playback = false -> max_frames = Unbounded ->
  wp (apply_loop output_path max_frames smoothing_window output_fourcc
        border_mode_ border_size neg_border_size h w layer_func playback
        fuel prev_frame true)
     (fun r _ => r <> inr tt) st.
Proof.
  revert prev_frame st.
  induction fuel as [|fuel IH]; intros prev_frame st Hh Hq Hc Hpb Hmf.
  - apply wp_raise. discriminate.
  - cbn [apply_loop]. wp_steps.
    2: { rewrite orb_true_r in Heqb. discriminate. }
    eapply wp_bind_spec.
    + apply (apply_iteration_exact prev_frame st Hh).
    + intros e s _. discriminate.
    + intros [next|] s (Hd & Hn & Hx).
      * destruct (Hx next eq_refl) as (Hh' & Hfalse & Htrue).
        destruct (snd next) eqn:Hg.
        -- destruct Hc as [Hw1|Hpos]; [|specialize (Htrue eq_refl); lia].
           apply IH; auto.
           destruct Hh' as (_ & _ & _ & _ & Hroom & _).
           destruct (items (frame_queue s)); [reflexivity|simpl in Hroom; lia].
        -- destruct (Hfalse eq_refl) as (_ & Hne). contradiction.
      * apply wp_ret. exfalso. apply (Hn eq_refl Hpb Hmf).
Qed.

End Loop.

(** *** The first loop *)

Lemma last_error_lastn {A : Type} (k : nat) (l : list A) :
  1 <= k -> last_error (lastn k l) = last_error l.
Proof.
  intros Hk. rewrite !last_error_nth. unfold lastn.
  rewrite nth_error_skipn, length_skipn.
  destruct l as [|a l]; [reflexivity|]. f_equal. simpl length. lia.
Qed.

Lemma next_index_lastn (inds : deque nat) (m : nat) :
  maxlen inds = smoothing_window ->
  items inds = lastn smoothing_window (seq 0 m) ->
  items (next_index inds) = lastn smoothing_window (seq 0 (S m)) /\
  maxlen (next_index inds) = smoothing_window /\
  last_error (items (next_index inds)) = Some m.
Proof.
  intros Hm Hi.
  assert (Hn : next_index inds = deque_append inds m).
  { unfold next_index. rewrite Hi, last_error_lastn by exact window_positive.
    destruct m as [|m]; [reflexivity|].
    rewrite last_error_seq. reflexivity. }
  rewrite <- Hm in Hi.
  destruct (deque_append_lastn inds (seq 0 m) m Hi) as [H1 H2].
  rewrite Hn, H1, H2, Hm, <- seq_S.
  repeat split.
  rewrite last_error_lastn by exact window_positive.
  apply (last_error_seq 0 m).
Qed.

Lemma init_exact_read (st s : VidStab) (f : Frame) :
  init_exact input smoothing_window st0 st ->
  nth_error input (vc_pos (vid_cap st)) = Some f ->
  vid_cap s = mkCapture input (S (vc_pos (vid_cap st))) (vc_fps (vid_cap st)) ->
  writer s = writer st -> render_log s = render_log st ->
  frame_queue s = deque_append (frame_queue st) f ->
  frame_queue_inds s = next_index (frame_queue_inds st) ->
  init_exact input smoothing_window st0 s /\
  last_error (items (frame_queue_inds s)) = Some (vc_pos (vid_cap st) - 1).
Proof.
  intros (Hf & Hp & Hmq & Hmi & Hq & Hi & Hlog & Hw) Hnth Hvc Hwr Hl Hqs His.
  assert (Hlt : vc_pos (vid_cap st) < length input)
    by (apply nth_error_Some; congruence).
  destruct (next_index_lastn _ _ Hmi Hi) as (N1 & N2 & N3).
  rewrite <- Hmq in Hq.
  destruct (deque_append_lastn _ _ f Hq) as [Q1 Q2].
  split; [|rewrite His; exact N3].
  unfold init_exact, written in *. rewrite Hvc, Hwr, Hl, Hqs, His.
  cbn [vc_pos vc_frames].
  split; [reflexivity|]. split; [lia|].
  split; [congruence|]. split; [exact N2|].
  split; [rewrite Q1, Hmq, (firstn_snoc_nth _ _ _ Hnth); reflexivity|].
  split; [|auto].
  rewrite N1. f_equal. f_equal. lia.
Qed.

Lemma init_loop_exact (fuel : nat) (st : VidStab) :
  init_exact input smoothing_window st0 st ->
  vc_pos (vid_cap st) <= smoothing_window ->
  wp (init_loop fuel smoothing_window max_frames false)
     (fun r st' =>
        r = inr tt ->
        init_exact input smoothing_window st0 st' /\
        vc_pos (vid_cap st') <= smoothing_window + 1 /\
        (max_frames = Unbounded ->
         vc_pos (vid_cap st') = length input \/
         vc_pos (vid_cap st') = smoothing_window + 1)) st.
Proof.
  revert st. induction fuel as [|fuel IH]; intros st Hinv Hpos.
  - apply wp_raise. discriminate.
  - pose proof Hinv as (Hf & Hp & _).
    cbn [init_loop]. unfold read_frame. wp_steps.
    + destruct (vc_read_some _ _ Heqo) as [Hnth Hsnd].
      rewrite Hf in Hnth, Hsnd.
      eapply wp_bind_spec; [apply gen_next_raw_transform_spec| |].
      * intros e s _. discriminate.
      * intros [] s ((H1 & H2 & H3 & H4 & H5) & _). cbn in *.
        rewrite Hsnd in H3.
        destruct (init_exact_read st s f Hinv Hnth) as [Hs Hlast];
          try congruence.
        wp_steps; try discriminate.
        -- intros _. split; [exact Hs|]. rewrite H3. cbn [vc_pos].
           split; [lia|]. intros ->. right. cbn in Heqb.
           injection Hlast as Hn. subst n.
           apply Z.leb_le in Heqb. lia.
        -- injection Hlast as Hn. subst n.
           apply orb_false_iff in Heqb. destruct Heqb as [_ Hb].
           apply Z.leb_gt in Hb.
           apply IH; [exact Hs|]. rewrite H3. cbn [vc_pos]. lia.
    + intros _. pose proof (vc_read_none _ Heqo) as Hsnd. cbn.
      rewrite vc_read_fst, Hf in Heqo. apply nth_error_None in Heqo.
      assert (Hsame : init_exact input smoothing_window st0
                        (upd_vid_cap (snd (vc_read (vid_cap st))) st)).
      { unfold init_exact, written in *. cbn. rewrite Hsnd. exact Hinv. }
      split; [exact Hsame|]. rewrite Hsnd. split; [lia|].
      intros _. left. lia.
Qed.

Lemma init_trajectory_exact (fps : Z) (st : VidStab) :
  vid_cap st = mkCapture input 0 fps ->
  frame_queue st = deque_new Frame smoothing_window ->
  frame_queue_inds st = deque_new nat smoothing_window ->
  render_log st = render_log st0 -> written st = written st0 ->
  wp (_init_trajectory smoothing_window max_frames false)
     (fun r st' =>
        r = inr tt ->
        init_exact input smoothing_window st0 st' /\
        vc_pos (vid_cap st') <= smoothing_window + 1 /\
        (max_frames = Unbounded ->
         vc_pos (vid_cap st') = length input \/
         vc_pos (vid_cap st') = smoothing_window + 1)) st.
Proof.
  intros Hvc Hq Hi Hlog Hw.
  unfold _init_trajectory, read_frame. wp_steps; [|discriminate].
  destruct (vc_read_some _ _ Heqo) as [Hnth Hsnd].
  rewrite Hvc in Hnth. cbn [vc_frames vc_pos vc_fps] in Hnth.
  assert (Hlen : 1 <= length input).
  { assert (Hn : nth_error input 0 <> None) by congruence.
    apply nth_error_Some in Hn. lia. }
  eapply wp_bind_spec.
  - apply init_loop_exact.
    + unfold init_exact, written in *. cbn. rewrite Hsnd, Hvc, Hq, Hi.
      cbn [vc_pos vc_frames].
      split; [reflexivity|]. split; [lia|].
      unfold deque_append, deque_new. cbn [items maxlen length app].
      destruct (Nat.ltb_spec 0 smoothing_window); [|lia]. cbn.
      split; [reflexivity|]. split; [reflexivity|].
      split; [|split; [reflexivity|auto]].
      change (match input with [] => [] | a :: _ => [a] end)
        with (firstn 1 input).
      rewrite (firstn_snoc_nth _ _ _ Hnth). cbn [firstn app length].
      replace (1 - smoothing_window) with 0 by lia. reflexivity.
    + cbn. rewrite Hsnd, Hvc. cbn. exact window_positive.
  - intros e s _. discriminate.
  - intros [] s Hs. specialize (Hs eq_refl).
    eapply wp_mono; [apply gen_transforms_spec|].
    intros r s' ((G1 & G2 & G3 & G4 & G5) & _) _.
    unfold init_exact, written in *. rewrite G1, G2, G3, G4, G5. exact Hs.
Qed.

(** *** The whole of [_apply_transforms] *)

Lemma render_head_start (st : VidStab) (prev_frame : Frame)
  (q' : deque Frame) :
  init_exact input smoothing_window st0 st ->
  vc_pos (vid_cap st) <= smoothing_window + 1 ->
  deque_popleft (frame_queue st) = Some (prev_frame, q') ->
  let p := if vc_pos (vid_cap st) <=? smoothing_window then 1 else 2 in
  head p (upd_frame_queue q' st) /\
  (smoothing_window = 1 \/ length input = 1 ->
   items q' = [] /\
   (smoothing_window = 1 \/ vc_pos (vid_cap st) = length input)).
Proof.
  intros (Hf & Hp & Hmq & Hmi & Hq & Hi & Hlog & Hw) Hpos Hpop. cbv zeta.
  apply deque_popleft_items in Hpop. destruct Hpop as [Hit Hmq'].
  set (pos := vc_pos (vid_cap st)) in *.
  assert (Hitems : items q' =
                   skipn (if pos <=? smoothing_window then 1 else 2)
                         (firstn pos input) /\
                   items (frame_queue_inds st) = seq 0 (pos - 1)).
  { unfold lastn in Hq, Hi. rewrite length_firstn in Hq.
    rewrite length_seq in Hi. rewrite Hq in Hit.
    apply skipn_head in Hit. destruct Hit as [_ Hr].
    split.
    - rewrite Hr. destruct (Nat.leb_spec pos smoothing_window); f_equal; lia.
    - rewrite Hi. replace (pos - 1 - smoothing_window) with 0 by lia.
      reflexivity. }
  destruct Hitems as [Hq' Hi'].
  assert (Hlq : length (items q') =
                pos - (if pos <=? smoothing_window then 1 else 2)).
  { rewrite Hq', length_skipn, length_firstn. lia. }
  split.
  - unfold head, render_head, written in *. cbn.
    split; [exact Hf|]. split; [lia|]. split; [congruence|].
    split; [exact Hmi|].
    split; [rewrite Hlq; destruct (Nat.leb_spec pos smoothing_window); lia|].
    exists [], 0, (pos - 1). cbn [length map app].
    rewrite !app_nil_r, !Nat.add_0_r.
    split; [exact Hlog|]. split; [exact Hw|].
    split; [repeat split; constructor|]. split; [lia|].
    split; [exact Hq'|].
    split; [fold pos; destruct (Nat.leb_spec pos smoothing_window); lia|].
    split; [exact Hi'|].
    fold pos. destruct (Nat.leb_spec pos smoothing_window).
    + left. lia.
    + right. left. repeat split; lia.
  - intros Hc. split.
    + apply length_zero_iff_nil. rewrite Hlq.
      destruct (Nat.leb_spec pos smoothing_window); destruct Hc; lia.
    + destruct Hc as [Hc|Hc]; [left; exact Hc|right; lia].
Qed.

Lemma init_exact_done (st : VidStab) :
  init_exact input smoothing_window st0 st ->
  vc_pos (vid_cap st) <= smoothing_window + 1 ->
  done (if vc_pos (vid_cap st) <=? smoothing_window then 1 else 2) st.
Proof.
  intros (Hf & Hp & _ & _ & _ & _ & Hlog & _) Hpos.
  split; [exact Hf|]. split; [lia|].
  destruct (Nat.leb_spec (vc_pos (vid_cap st)) smoothing_window).
  - exists [], 0. rewrite app_nil_r. cbn.
    split; [exact Hlog|]. split; [repeat split; constructor|].
    split; [split; [lia|left; reflexivity]|lia].
  - exists [], 1. rewrite app_nil_r. cbn.
    split; [exact Hlog|]. split; [repeat split; constructor|].
    split; [split; [lia|left; reflexivity]|lia].
Qed.

Lemma full_run_same (p : nat) (st st' : VidStab) :
  render_log st' = render_log st -> written st' = written st ->
  full_run input smoothing_window max_frames st0 p st ->
  full_run input smoothing_window max_frames st0 p st'.
Proof. unfold full_run. intros -> ->. auto. Qed.

Lemma apply_transforms_exact (output_path output_fourcc border_type : string)
  (border_size : Z) (layer_func : option (Frame -> Frame -> Frame))
  (playback : bool) (st : VidStab) :
  init_exact input smoothing_window st0 st ->
  vc_pos (vid_cap st) <= smoothing_window + 1 ->
  let p := if vc_pos (vid_cap st) <=? smoothing_window then 1 else 2 in
  wp (_apply_transforms output_path max_frames smoothing_window output_fourcc
        border_type border_size layer_func playback)
     (fun r st' =>
        done p st' /\
        (r = inr tt -> playback = false -> max_frames = Unbounded ->
         full_run input smoothing_window max_frames st0 p st')) st.
Proof.
  intros Hinv Hpos p. pose proof (init_exact_done st Hinv Hpos) as Hd.
  fold p in Hd.
  unfold _apply_transforms, popleft_frame, release_writer.
  wp_steps; try (split; [exact Hd|discriminate]).
  destruct p0 as [prev_frame q']. cbn [fst snd].
  destruct (render_head_start st prev_frame q' Hinv Hpos Heqo0) as [Hh _].
  fold p in Hh.
  eapply wp_bind_spec.
  - apply apply_loop_exact; [exact Hh|discriminate].
  - intros e s (Hs & _). split; [exact Hs|discriminate].
  - intros [] s (Hs & Hfull). wp_steps.
    + split; [eapply done_same; [| |exact Hs]; reflexivity|].
      intros _ Hpb Hmf. eapply full_run_same; [| |exact (Hfull eq_refl Hpb Hmf)].
      * reflexivity.
      * unfold written. cbn. rewrite Heqo1. reflexivity.
    + split; [exact Hs|discriminate].
Qed.

Lemma apply_transforms_starved (output_path output_fourcc border_type : string)
  (border_size : Z) (layer_func : option (Frame -> Frame -> Frame))
  (st : VidStab) :
  init_exact input smoothing_window st0 st ->
  vc_pos (vid_cap st) <= smoothing_window + 1 ->
  smoothing_window = 1 \/ length input = 1 ->
  max_frames = Unbounded ->
  wp (_apply_transforms output_path max_frames smoothing_window output_fourcc
        border_type border_size layer_func false)
     (fun r _ => r <> inr tt) st.
Proof.
  intros Hinv Hpos Hc Hmf.
  unfold _apply_transforms, popleft_frame, release_writer.
  wp_steps; try discriminate.
  destruct p as [prev_frame q']. cbn [fst snd].
  destruct (render_head_start st prev_frame q' Hinv Hpos Heqo0) as [Hh Hs].
  destruct (Hs Hc) as [Hq Hc'].
  eapply wp_bind_spec.
  - apply (apply_loop_starved output_path output_fourcc b
             (fst (border_sizes border_size)) (snd (border_sizes border_size))
             _ _ layer_func false _ _ prev_frame _ Hh); auto.
  - intros e s _. discriminate.
  - intros [] s H. contradiction.
Qed.

End Exact.

Section RenderedFrames.
Context {F : Type} {SF : Scalar F} {CV : OpenCV F} {SM : Smoother F}.

Lemma stabilize_exact (input : list Frame) (fps : Z)
  (output_path : string) (smoothing_window : nat) (max_frames : frame_cap)
  (border_type : string) (border_size : Z)
  (layer_func : option (Frame -> Frame -> Frame)) (playback : bool)
  (output_fourcc : string) (st : VidStab) :
  1 <= smoothing_window ->
  wp (stabilize input fps output_path smoothing_window max_frames
        border_type border_size layer_func playback false output_fourcc)
     (fun r st' =>
        (exists evs p s,
           render_log st' = render_log st ++ evs /\ 1 <= p <= 2 /\
           render_trace input max_frames p s evs /\
           in_step input smoothing_window p s evs) /\
        (r = inr tt -> playback = false -> max_frames = Unbounded ->
         full_run input smoothing_window max_frames st
           (if length input <=? smoothing_window then 1 else 2) st')) st.
Proof.
  intros Hw.
  assert (Hnone : forall st' : VidStab,
            render_log st' = render_log st ->
            exists evs p s,
              render_log st' = render_log st ++ evs /\ 1 <= p <= 2 /\
              render_trace input max_frames p s evs /\
              in_step input smoothing_window p s evs).
  { intros st' E. exists [], 1, 0. rewrite app_nil_r.
    split; [exact E|]. split; [lia|].
    split; [repeat split; constructor|]. split; [lia|left; reflexivity]. }
  unfold stabilize, stabilize_setup, open_capture. cbn [negb]. wp_steps.
  eapply wp_bind_spec.
  - apply wp_conj.
    + apply (init_trajectory_exact input smoothing_window max_frames st Hw fps);
        reflexivity.
    + apply init_trajectory_compensated. apply Forall_nil.
  - intros e s (_ & Hl & _). cbn in Hl. split; [auto|discriminate].
  - intros [] s (He & _). destruct (He eq_refl) as (Hinv & Hpos & Hunb).
    eapply wp_mono;
      [apply (apply_transforms_exact input smoothing_window max_frames st Hw
                output_path output_fourcc border_type border_size layer_func
                playback s Hinv Hpos)|].
    cbv zeta. intros r s' (Hd & Hfull). split.
    + destruct Hd as (_ & _ & evs & s1 & D1 & D2 & D3 & _).
      exists evs, (if vc_pos (vid_cap s) <=? smoothing_window then 1 else 2), s1.
      repeat split; auto; try apply D2; try apply D3;
        destruct (vc_pos (vid_cap s) <=? smoothing_window); lia.
    + intros Hr Hpb Hmf. specialize (Hfull Hr Hpb Hmf).
      replace (if length input <=? smoothing_window then 1 else 2)
        with (if vc_pos (vid_cap s) <=? smoothing_window then 1 else 2);
        [exact Hfull|].
      destruct Hinv as (_ & Hp & _).
      destruct (Hunb Hmf) as [E|E]; rewrite E; [reflexivity|].
      destruct (Nat.leb_spec (smoothing_window + 1) smoothing_window); [lia|].
      destruct (Nat.leb_spec (length input) smoothing_window); [lia|].
      reflexivity.
Qed.

(** X11. Which frames a call of [stabilize] renders, whatever way it
    ends: consecutive frames of the clip from the second or the third on
    ([p] is 1 or 2), with consecutive indices from 0 or 1 on. A frame is
    rendered with the index one below its position in the clip, that is
    with the transform of the motion that led to it, unless the clip has
    exactly [smoothing_window + 1] frames: then the index is two
    below. *)
Theorem rendered_frames_and_indices (input : list Frame) (fps : Z)
  (output_path : string) (smoothing_window : nat) (max_frames : frame_cap)
  (border_type : string) (border_size : Z)
  (layer_func : option (Frame -> Frame -> Frame)) (playback : bool)
  (output_fourcc : string) (st : VidStab) :
  1 <= smoothing_window ->
  exists evs p s,
    render_log
      (snd (stabilize input fps output_path smoothing_window max_frames
              border_type border_size layer_func playback false
              output_fourcc st))
    = render_log st ++ evs /\
    1 <= p <= 2 /\ s <= 1 /\
    map ev_frame evs = firstn (length evs) (skipn p input) /\
    map ev_index evs = seq s (length evs) /\
    (p = s + 1 \/ length input = smoothing_window + 1).
Proof.
  intros Hw.
  destruct (stabilize_exact input fps output_path smoothing_window max_frames
              border_type border_size layer_func playback output_fourcc st Hw)
    as ((evs & p & s & Hlog & Hp & (Hfr & Hix & _) & Hs & Hal) & _).
  destruct evs as [|e evs].
  - exists [], p, (p - 1).
    split; [exact Hlog|]. split; [lia|]. split; [lia|].
    split; [reflexivity|]. split; [reflexivity|]. left. lia.
  - exists (e :: evs), p, s.
    split; [exact Hlog|]. split; [lia|]. split; [exact Hs|].
    split; [exact Hfr|]. split; [exact Hix|].
    destruct Hal as [E|(_ & _ & E)]; [left; exact E|right].
    apply E. discriminate.
Qed.

(** X12. A call of [stabilize] without cap and without playback that
    returns normally has rendered every frame of the clip but the first
    (clips of at most [smoothing_window] frames) or the first two
    (longer clips), in order, and has written every rendering: the
    output has one or two frames fewer than the clip. *)
Theorem stabilize_output_length (input : list Frame) (fps : Z)
  (output_path : string) (smoothing_window : nat)
  (border_type : string) (border_size : Z)
  (layer_func : option (Frame -> Frame -> Frame))
  (output_fourcc : string) (st : VidStab) :
  1 <= smoothing_window ->
  let r := stabilize input fps output_path smoothing_window Unbounded
             border_type border_size layer_func false false
             output_fourcc st in
  let p := if length input <=? smoothing_window then 1 else 2 in
  fst r = inr tt ->
  exists evs,
    render_log (snd r) = render_log st ++ evs /\
    written (snd r) = written st ++ map ev_out evs /\
    map ev_frame evs = skipn p input /\
    length evs = length input - p.
Proof.
  intros Hw r p Hr.
  destruct (stabilize_exact input fps output_path smoothing_window Unbounded
              border_type border_size layer_func false output_fourcc st Hw)
    as (_ & Hfull).
  destruct (Hfull Hr eq_refl eq_refl)
    as (evs & s & Hlog & Hwr & (Hfr & _) & _ & Hlen).
  exists evs. fold p in Hlen.
  split; [exact Hlog|]. split; [exact Hwr|]. split; [|lia].
  rewrite Hfr. apply firstn_all2. rewrite length_skipn. lia.
Qed.

(** X13. [max_frames] bounds the rendering: with [max_frames = c] every
    frame rendered has an index below [c], and at most [c] frames are
    rendered. *)
Theorem max_frames_bounds_rendering (input : list Frame) (fps : Z)
  (output_path : string) (smoothing_window : nat) (c : Z)
  (border_type : string) (border_size : Z)
  (layer_func : option (Frame -> Frame -> Frame)) (playback : bool)
  (output_fourcc : string) (st : VidStab) :
  1 <= smoothing_window ->
  exists evs,
    render_log
      (snd (stabilize input fps output_path smoothing_window (AtMost c)
              border_type border_size layer_func playback false
              output_fourcc st))
    = render_log st ++ evs /\
    Forall (fun e => (Z.of_nat (ev_index e) < c)%Z) evs /\
    (Z.of_nat (length evs) <= Z.max 0 c)%Z.
Proof.
  intros Hw.
  destruct (stabilize_exact input fps output_path smoothing_window (AtMost c)
              border_type border_size layer_func playback output_fourcc st Hw)
    as ((evs & p & s & Hlog & Hp & (Hfr & Hix & Hcap) & Hs & Hal) & _).
  assert (Hlt : Forall (fun e => (Z.of_nat (ev_index e) < c)%Z) evs).
  { eapply Forall_impl; [|exact Hcap]. cbn. intros e He.
    apply Z.leb_gt in He. exact He. }
  exists evs. split; [exact Hlog|]. split; [exact Hlt|].
  destruct (length evs) as [|n] eqn:En; [lia|].
  assert (Hin : In (s + n) (map ev_index evs)).
  { rewrite Hix. apply in_seq. lia. }
  apply in_map_iff in Hin. destruct Hin as (e & He & Hine).
  rewrite Forall_forall in Hlt. specialize (Hlt e Hine). lia.
Qed.

(** X14. With [smoothing_window = 1], or on a clip of a single frame, a
    call of [stabilize] without cap and without playback never returns
    normally: the frame queue is empty at the head of every pass of the
    second loop, so the loop cannot stop, and the pass on which [read]
    fails pops from the empty queue, unless an earlier pass has failed
    already. *)
Theorem stabilize_starved (input : list Frame) (fps : Z)
  (output_path : string) (smoothing_window : nat)
  (border_type : string) (border_size : Z)
  (layer_func : option (Frame -> Frame -> Frame))
  (output_fourcc : string) (st : VidStab) :
  1 <= smoothing_window ->
  smoothing_window = 1 \/ length input = 1 ->
  fst (stabilize input fps output_path smoothing_window Unbounded
         border_type border_size layer_func false false output_fourcc st)
  <> inr tt.
Proof.
  intros Hw Hc.
  change (wp (stabilize input fps output_path smoothing_window Unbounded
                border_type border_size layer_func false false output_fourcc)
             (fun r _ => r <> inr tt) st).
  unfold stabilize, stabilize_setup, open_capture. cbn [negb]. wp_steps.
  eapply wp_bind_spec.
  - apply (init_trajectory_exact input smoothing_window Unbounded st Hw fps);
      reflexivity.
  - intros e s _. discriminate.
  - intros [] s He. destruct (He eq_refl) as (Hinv & Hpos & _).
    apply (apply_transforms_starved input smoothing_window Unbounded st Hw
             output_path output_fourcc border_type border_size layer_func
             s Hinv Hpos Hc eq_refl).
Qed.

End RenderedFrames.

Lemma rendered_frames_and_indices_witness :
  exists evs p s,
    render_log
      (snd (run (stabilize (clip 5) 30 "out" 3 Unbounded "black" 0 None
                   false false "MJPG") __init__))
    = render_log __init__ ++ evs /\
    1 <= p <= 2 /\ s <= 1 /\
    map ev_frame evs = firstn (length evs) (skipn p (clip 5)) /\
    map ev_index evs = seq s (length evs) /\
    (p = s + 1 \/ length (clip 5) = 3 + 1).
Proof.
  apply (rendered_frames_and_indices (SF := Q_scalar) (CV := image_cv)
           (SM := Q_smoother) (clip 5) 30 "out" 3 Unbounded "black" 0 None
           false "MJPG" __init__).
  lia.
Defined.

Lemma stabilize_output_length_witness :
  let r := run (stabilize (clip 5) 30 "out" 3 Unbounded "black" 0 None
                  false false "MJPG") __init__ in
  exists evs,
    render_log (snd r) = render_log __init__ ++ evs /\
    written (snd r) = written __init__ ++ map ev_out evs /\
    map ev_frame evs = skipn 2 (clip 5) /\
    length evs = length (clip 5) - 2.
Proof.
  apply (stabilize_output_length (SF := Q_scalar) (CV := image_cv)
           (SM := Q_smoother) (clip 5) 30 "out" 3 "black" 0 None
           "MJPG" __init__).
  - lia.
  - vm_compute. reflexivity.
Defined.

Lemma max_frames_bounds_rendering_witness :
  exists evs,
    render_log
      (snd (run (stabilize (clip 8) 30 "out" 3 (AtMost 3) "black" 0 None
                   false false "MJPG") __init__))
    = render_log __init__ ++ evs /\
    Forall (fun e => (Z.of_nat (ev_index e) < 3)%Z) evs /\
    (Z.of_nat (length evs) <= Z.max 0 3)%Z.
Proof.
  apply (max_frames_bounds_rendering (SF := Q_scalar) (CV := image_cv)
           (SM := Q_smoother) (clip 8) 30 "out" 3 3 "black" 0 None
           false "MJPG" __init__).
  lia.
Defined.

Lemma stabilize_starved_witness :
  fst (run (stabilize (clip 4) 30 "out" 1 Unbounded "black" 0 None
              false false "MJPG") __init__)
  <> inr tt.
Proof.
  apply (stabilize_starved (SF := Q_scalar) (CV := image_cv)
           (SM := Q_smoother) (clip 4) 30 "out" 1 "black" 0 None
           "MJPG" __init__).
  - lia.
  - left. reflexivity.
Defined.

(** The runs behind the last properties: a window of one frame renders
    and writes one frame of a four-frame clip and then fails on the
    empty index queue; a clip of exactly [smoothing_window + 1] frames
    is rendered out of step; a cap of three frames stops an eight-frame
    clip after two renderings, seven frames read. *)
Example window_of_one_frame :
  let r := run (stabilize (clip 4) 30 "out" 1 Unbounded "black" 0 None
                  false false "MJPG") __init__ in
  fst r = inl IndexError /\
  map ev_frame (render_log (snd r)) = [Src 2 40 60] /\
  map ev_index (render_log (snd r)) = [1] /\
  length (written (snd r)) = 1.
Proof. vm_compute. repeat split. Qed.

Example clip_of_window_plus_one :
  let r := run (stabilize (clip 4) 30 "out" 3 Unbounded "black" 0 None
                  false false "MJPG") __init__ in
  fst r = inr tt /\
  map ev_frame (render_log (snd r)) = [Src 2 40 60; Src 3 40 60] /\
  map ev_index (render_log (snd r)) = [0; 1].
Proof. vm_compute. repeat split. Qed.

Example cap_of_three_frames :
  let r := run (stabilize (clip 8) 30 "out" 3 (AtMost 3) "black" 0 None
                  false false "MJPG") __init__ in
  fst r = inr tt /\
  map ev_index (render_log (snd r)) = [1; 2] /\
  map ev_frame (render_log (snd r)) = [Src 2 40 60; Src 3 40 60] /\
  vc_pos (vid_cap (snd r)) = 7.
Proof. vm_compute. repeat split. Qed.

(** ** Invariants of the instance across the public methods *)

Section Preservation.
Context {F : Type} {SF : Scalar F} {CV : OpenCV F} {SM : Smoother F}.

Variables (input : list Frame) (fps : Z) (output_path : string)
          (smoothing_window : nat) (output_fourcc : string).

(** [P0] holds when the method is called, [P] from the moment the clip
    is opened and the queues are created; [P] is kept by each assignment
    the methods make. *)
Variables P0 P : VidStab -> Prop.

Hypothesis P_open : forall st,
  P0 st ->
  P (upd_frame_queue_inds (deque_new nat smoothing_window)
       (upd_frame_queue (deque_new Frame smoothing_window)
          (upd_vid_cap (mkCapture input 0 fps) st))).
Hypothesis P_read : forall st,
  P st -> P (upd_vid_cap (snd (vc_read (vid_cap st))) st).
Hypothesis P_kps : forall st v, P st -> P (upd_prev_kps v st).
Hypothesis P_gray : forall st v, P st -> P (upd_prev_gray v st).
Hypothesis P_estimations : forall st n, P st -> P (upd_estimations n st).
Hypothesis P_accumulate : forall st d, P st -> P (accumulate st d).
Hypothesis P_transforms : forall st,
  P st -> wp (_gen_transforms smoothing_window) (fun _ st' => P st') st.
Hypothesis P_push : forall st f,
  P st -> P (upd_frame_queue (deque_append (frame_queue st) f) st).
Hypothesis P_pop : forall st p,
  P st -> deque_popleft (frame_queue st) = Some p ->
  P (upd_frame_queue (snd p) st).
Hypothesis P_push_index : forall st i,
  P st -> P (upd_frame_queue_inds (deque_append (frame_queue_inds st) i) st).
Hypothesis P_pop_index : forall st p,
  P st -> deque_popleft (frame_queue_inds st) = Some p ->
  P (upd_frame_queue_inds (snd p) st).
Hypothesis P_log : forall st e,
  P st -> P (upd_render_log (render_log st ++ [e]) st).
Hypothesis P_first_write : forall st f,
  P st -> writer st = None ->
  P (upd_writer
       (Some (mkWriter output_path output_fourcc (vc_fps (vid_cap st))
                (snd (frame_shape f), fst (frame_shape f)) [f] false)) st).
Hypothesis P_next_write : forall st wr f,
  P st -> writer st = Some wr ->
  P (upd_writer
       (Some (mkWriter (vw_path wr) (vw_fourcc wr) (vw_fps wr) (vw_size wr)
                (vw_frames wr ++ [f]) (vw_released wr))) st).
Hypothesis P_release : forall st wr,
  P st -> writer st = Some wr ->
  P (upd_writer
       (Some (mkWriter (vw_path wr) (vw_fourcc wr) (vw_fps wr) (vw_size wr)
                (vw_frames wr) true)) st).

Lemma gen_next_raw_transform_preserves (st : VidStab) :
  P st -> wp _gen_next_raw_transform (fun _ st' => P st') st.
Proof.
  intros HP. unfold _gen_next_raw_transform. wp_steps; try exact HP.
  - apply P_accumulate, P_kps, P_gray, P_estimations. exact HP.
  - apply P_estimations. exact HP.
Qed.

Lemma next_index_preserves (st : VidStab) :
  P st -> P (upd_frame_queue_inds (next_index (frame_queue_inds st)) st).
Proof.
  intros HP. unfold next_index.
  destruct (last_error _); apply P_push_index; exact HP.
Qed.

Lemma init_loop_preserves (fuel : nat) (max_frames : frame_cap)
  (gen_all : bool) (st : VidStab) :
  P st ->
  wp (init_loop fuel smoothing_window max_frames gen_all)
     (fun _ st' => P st') st.
Proof.
  revert st. induction fuel as [|fuel IH]; intros st HP.
  - apply wp_raise. exact HP.
  - cbn [init_loop]. unfold read_frame. wp_steps; [|apply P_read; exact HP].
    eapply wp_bind_spec.
    + apply gen_next_raw_transform_preserves, next_index_preserves, P_push,
        P_read.
      exact HP.
    + intros e s Hs. exact Hs.
    + intros [] s Hs. wp_steps; auto.
Qed.

Lemma init_trajectory_preserves (max_frames : frame_cap) (gen_all : bool)
  (st : VidStab) :
  P st ->
  wp (_init_trajectory smoothing_window max_frames gen_all)
     (fun _ st' => P st') st.
Proof.
  intros HP. unfold _init_trajectory, read_frame.
  wp_steps; [|apply P_read; exact HP].
  eapply wp_bind_spec.
  - apply init_loop_preserves. apply P_gray, P_push, P_kps, P_read. exact HP.
  - intros e s Hs. exact Hs.
  - intros [] s Hs. apply P_transforms. exact Hs.
Qed.

Section Loop.
Variables (max_frames : frame_cap)
          (border_mode_ : border_mode) (border_size neg_border_size h w : Z)
          (layer_func : option (Frame -> Frame -> Frame)) (playback : bool).

Lemma enqueue_frame_preserves (grabbed : option Frame) (st : VidStab) :
  P st -> wp (enqueue_frame smoothing_window grabbed) (fun _ st' => P st') st.
Proof.
  intros HP. unfold enqueue_frame.
  destruct grabbed as [f|]; [|apply wp_ret; exact HP].
  wp_steps; [|apply P_push; exact HP].
  eapply wp_bind_spec.
  - apply gen_next_raw_transform_preserves, P_push_index, P_push. exact HP.
  - intros e s Hs. exact Hs.
  - intros [] s Hs. apply P_transforms. exact Hs.
Qed.

Lemma render_next_preserves (prev_frame : Frame) (grabbed_frame : bool)
  (st : VidStab) :
  P st ->
  wp (render_next output_path max_frames output_fourcc border_mode_
        border_size neg_border_size h w layer_func playback
        prev_frame grabbed_frame)
     (fun _ st' => P st') st.
Proof.
  intros HP.
  unfold render_next, popleft_index, popleft_frame, _init_writer, write_frame.
  wp_steps; cbn in *; try congruence.
  all: try exact HP.
  all: pose proof (P_pop_index st _ HP ltac:(eassumption)) as H1.
  all: try exact H1.
  all: pose proof (P_pop _ _ H1 ltac:(eassumption)) as H2.
  all: try exact H2.
  all: match goal with
       | |- context [render_log _ ++ [?e]] =>
         pose proof (P_log _ e H2) as H3
       end.
  all: try exact H3.
  - match goal with
    | Hw : writer _ = Some ?wr |- _ => exact (P_next_write _ wr _ H3 Hw)
    end.
  - match goal with
    | Hw : Some _ = Some ?wr |- _ => injection Hw as <-
    end.
    match goal with
    | Hw : writer _ = None |- P (upd_writer _ (upd_writer _ ?s)) =>
      exact (P_first_write s _ H3 Hw)
    end.
Qed.

Lemma apply_loop_preserves (fuel : nat) (prev_frame : Frame)
  (grabbed_frame : bool) (st : VidStab) :
  P st ->
  wp (apply_loop output_path max_frames smoothing_window output_fourcc
        border_mode_ border_size neg_border_size h w layer_func playback
        fuel prev_frame grabbed_frame)
     (fun _ st' => P st') st.
Proof.
  revert prev_frame grabbed_frame st.
  induction fuel as [|fuel IH]; intros prev_frame grabbed_frame st HP.
  - apply wp_raise. exact HP.
  - cbn [apply_loop]. wp_steps; [|exact HP].
    unfold apply_iteration, read_frame. wp_steps.
    eapply wp_bind_spec.
    + apply enqueue_frame_preserves. apply P_read. exact HP.
    + intros e s Hs. exact Hs.
    + intros [] s Hs.
      eapply wp_bind_spec; [apply render_next_preserves; exact Hs| |].
      * intros e s' Hs'. exact Hs'.
      * intros [next|] s' Hs'; [apply IH; exact Hs'|apply wp_ret; exact Hs'].
Qed.

End Loop.

Lemma apply_transforms_preserves (max_frames : frame_cap)
  (border_type : string) (border_size : Z)
  (layer_func : option (Frame -> Frame -> Frame)) (playback : bool)
  (st : VidStab) :
  P st ->
  wp (_apply_transforms output_path max_frames smoothing_window output_fourcc
        border_type border_size layer_func playback)
     (fun _ st' => P st') st.
Proof.
  intros HP. unfold _apply_transforms, popleft_frame, release_writer.
  wp_steps; try exact HP.
  eapply wp_bind_spec.
  - apply apply_loop_preserves. apply (P_pop st p HP). assumption.
  - intros e s Hs. exact Hs.
  - intros [] s Hs. wp_steps; [|exact Hs].
    apply P_release; assumption.
Qed.

Lemma stabilize_preserves (max_frames : frame_cap) (border_type : string)
  (border_size : Z) (layer_func : option (Frame -> Frame -> Frame))
  (playback use_stored_transforms : bool) (st : VidStab) :
  P0 st ->
  P (snd (stabilize input fps output_path smoothing_window max_frames
            border_type border_size layer_func playback
            use_stored_transforms output_fourcc st)).
Proof.
  intros HP.
  change (wp (stabilize input fps output_path smoothing_window max_frames
                border_type border_size layer_func playback
                use_stored_transforms output_fourcc)
             (fun _ st' => P st') st).
  unfold stabilize, stabilize_setup, open_capture. wp_steps.
  - eapply wp_bind_spec.
    + apply init_trajectory_preserves. apply P_open. exact HP.
    + intros e s Hs. exact Hs.
    + intros [] s Hs. apply apply_transforms_preserves. exact Hs.
  - apply apply_transforms_preserves. apply P_open. exact HP.
Qed.

Hypothesis P0_window : forall st,
  P0 st -> P0 (upd__smoothing_window (Some smoothing_window) st).


End Preservation.

Section Instance.
Context {F : Type} {SF : Scalar F} {CV : OpenCV F} {SM : Smoother F}.





(** The writer after [_apply_transforms] has returned normally. *)
Lemma apply_transforms_releases (output_path : string)
  (max_frames : frame_cap) (smoothing_window : nat)
  (output_fourcc border_type : string) (border_size : Z)
  (layer_func : option (Frame -> Frame -> Frame)) (playback : bool)
  (st : VidStab) :
  wp (_apply_transforms output_path max_frames smoothing_window output_fourcc
        border_type border_size layer_func playback)
     (fun r st' =>
        r = inr tt ->
        exists wr, writer st' = Some wr /\ vw_released wr = true) st.
Proof.
  unfold _apply_transforms, popleft_frame, release_writer.
  wp_steps; try discriminate.
  eapply wp_bind_spec.
  - apply (wp_mono _ (fun _ _ => True)); [exact I|]. intros r s H. exact H.
  - intros e s _. discriminate.
  - intros [] s _. wp_steps; [|discriminate].
    intros _. eexists. split; reflexivity.
Qed.

Lemma writer_kept_refl (output_path output_fourcc : string) (fps : Z)
  (st st' : VidStab) :
  writer st' = writer st ->
  writer_kept output_path output_fourcc fps st st'.
Proof.
  intros E. unfold writer_kept. destruct (writer st) as [wr0|] eqn:Ew.
  - exists [], (vw_released wr0). rewrite E, app_nil_r.
    destruct wr0; reflexivity.
  - left. exact E.
Qed.

(** X15. The writer across a call of [stabilize]. An instance that holds
    a writer keeps it: the call opens no new one, whatever
    [output_path] and codec it is given, and only adds frames to it. An
    instance without one ends without one or with a writer opened for
    the first frame written, with the given path and codec, the frame
    rate of the clip and the size (width, height) of that frame. After a
    normal return the instance holds a writer, and it is released. *)
Theorem writer_is_opened_once (input : list Frame) (fps : Z)
  (output_path : string) (smoothing_window : nat) (max_frames : frame_cap)
  (border_type : string) (border_size : Z)
  (layer_func : option (Frame -> Frame -> Frame))
  (playback use_stored_transforms : bool) (output_fourcc : string)
  (st : VidStab) :
  let r := stabilize input fps output_path smoothing_window max_frames
             border_type border_size layer_func playback
             use_stored_transforms output_fourcc st in
  writer_kept output_path output_fourcc fps st (snd r) /\
  (fst r = inr tt ->
   exists wr, writer (snd r) = Some wr /\ vw_released wr = true).
Proof.
  cbv zeta. split.
  - pose (P := fun st' : VidStab =>
                 vc_fps (vid_cap st') = fps /\
                 writer_kept output_path output_fourcc fps st st').
    assert (Hsame : forall s s' : VidStab,
              vid_cap s' = vid_cap s -> writer s' = writer s -> P s -> P s').
    { unfold P, writer_kept. intros s s' -> ->. auto. }
    enough (HP : P (snd (stabilize input fps output_path smoothing_window
                           max_frames border_type border_size layer_func
                           playback use_stored_transforms output_fourcc st)))
      by apply HP.
    apply (stabilize_preserves input fps output_path smoothing_window
             output_fourcc (fun s => s = st) P);
      try (intros; eapply Hsame; [| |eassumption]; reflexivity);
      try reflexivity.
    + intros s ->. split; [reflexivity|].
      apply writer_kept_refl. reflexivity.
    + intros s (Hf & Hk). split; [|exact Hk]. cbn.
      rewrite <- Hf. unfold vc_read.
      destruct (nth_error _ _); reflexivity.
    + intros s Hs. eapply wp_mono; [apply gen_transforms_spec|].
      intros r s' ((_ & _ & Hv & Hw & _) & _).
      apply (Hsame s); auto.
    + intros s f (Hf & Hk) Hnone. split; [exact Hf|].
      unfold writer_kept in *. cbn. rewrite Hnone in Hk.
      destruct (writer st) as [wr0|].
      * destruct Hk as (fs & rel & Hk). discriminate.
      * right. exists f, [], false. rewrite Hf. reflexivity.
    + intros s wr f (Hf & Hk) Hsome. split; [exact Hf|].
      unfold writer_kept in *. cbn. rewrite Hsome in Hk.
      destruct (writer st) as [wr0|].
      * destruct Hk as (fs & rel & [= ->]). cbn.
        exists (fs ++ [f]), rel. now rewrite app_assoc.
      * destruct Hk as [Hk|(f0 & fs & rel & [= ->])]; [discriminate|]. cbn.
        right. exists f0, (fs ++ [f]), rel. reflexivity.
    + intros s wr (Hf & Hk) Hsome. split; [exact Hf|].
      unfold writer_kept in *. cbn. rewrite Hsome in Hk.
      destruct (writer st) as [wr0|].
      * destruct Hk as (fs & rel & [= ->]). cbn.
        exists fs, true. reflexivity.
      * destruct Hk as [Hk|(f0 & fs & rel & [= ->])]; [discriminate|]. cbn.
        right. exists f0, fs, true. reflexivity.
  - change (wp (stabilize input fps output_path smoothing_window max_frames
                  border_type border_size layer_func playback
                  use_stored_transforms output_fourcc)
               (fun r st' =>
                  r = inr tt ->
                  exists wr, writer st' = Some wr /\ vw_released wr = true)
               st).
    unfold stabilize. eapply wp_bind_spec.
    + apply (wp_mono _ (fun _ _ => True)); [exact I|]. intros r s H. exact H.
    + intros e s _. discriminate.
    + intros [] s _. apply apply_transforms_releases.
Qed.

End Instance.


(** A second call with another path: the two frames it writes go to the
    writer the first call opened, which that call had released. *)
Example second_call_writes_to_first_writer :
  let r1 := run (stabilize (clip 4) 30 "first" 3 Unbounded "black" 0 None
                   false false "MJPG") __init__ in
  let r2 := run (stabilize (clip 4) 30 "second" 3 Unbounded "black" 0 None
                   false false "MJPG") (snd r1) in
  option_map (fun wr => (vw_path wr, length (vw_frames wr), vw_released wr))
             (writer (snd r1)) = Some ("first"%string, 2, true) /\
  option_map (fun wr => (vw_path wr, length (vw_frames wr), vw_released wr))
             (writer (snd r2)) = Some ("first"%string, 4, true).
Proof. vm_compute. split; reflexivity. Qed.

(** After an analysis of a four-frame clip the trajectory plot has three
    points on each of its four lines. *)
Example plot_after_gen_transforms :
  let r := run (gen_transforms (clip 4) 30 3) __init__ in
  option_map
    (fun fig =>
       (map (fun l => length (line_data l)) (ax_lines (fst (fig_axes fig))),
        map (fun l => length (line_data l)) (ax_lines (snd (fig_axes fig)))))
    (match fst (plot_trajectory (snd r)) with
     | inr fig => Some fig
     | inl _ => None
     end)
  = Some ([3; 3], [3; 3]).
Proof. vm_compute. reflexivity. Qed.

(** ** What an analysis reads and records *)

Section Analysis.
Context {F : Type} {SF : Scalar F} {CV : OpenCV F} {SM : Smoother F}.

Lemma gen_next_raw_transform_counts (st : VidStab) :
  wp _gen_next_raw_transform
     (fun r st' =>
        _smoothing_window st' = _smoothing_window st /\
        (r = inr tt -> estimations st' = S (estimations st))) st.
Proof.
  unfold _gen_next_raw_transform. wp_steps; cbn;
    (split; [reflexivity|]); try discriminate.
  reflexivity.
Qed.

Lemma gen_transforms_counts (w : nat) (st : VidStab) :
  wp (_gen_transforms w)
     (fun _ st' =>
        _smoothing_window st' = _smoothing_window st /\
        estimations st' = estimations st /\
        _trajectory st' = _trajectory st) st.
Proof. unfold _gen_transforms. wp_steps; cbn; auto. Qed.

Variables (input : list Frame) (w : nat) (st0 : VidStab).

(** Untouched by an analysis: the log of renderings, the writer, the
    stored window. *)
Let kept (st : VidStab) : Prop :=
  render_log st = render_log st0 /\ writer st = writer st0 /\
  _smoothing_window st = _smoothing_window st0.

Lemma init_loop_all (fuel : nat) (max_frames : frame_cap) (st : VidStab) :
  vc_frames (vid_cap st) = input -> vc_pos (vid_cap st) <= length input ->
  kept st ->
  wp (init_loop fuel w max_frames true)
     (fun r st' =>
        kept st' /\
        (r = inr tt ->
         vc_pos (vid_cap st') = length input /\
         estimations st' + vc_pos (vid_cap st)
         = estimations st + length input /\
         length (_raw_transforms st') + vc_pos (vid_cap st)
         = length (_raw_transforms st) + length input /\
         length (_trajectory st') + vc_pos (vid_cap st)
         = length (_trajectory st) + length input)) st.
Proof.
  revert st. induction fuel as [|fuel IH]; intros st Hf Hp Hk.
  - apply wp_raise. split; [exact Hk|discriminate].
  - cbn [init_loop]. unfold read_frame. wp_steps.
    + destruct (vc_read_some _ _ Heqo) as [Hnth Hsnd].
      rewrite Hf in Hnth.
      assert (Hlt : vc_pos (vid_cap st) < length input)
        by (apply nth_error_Some; congruence).
      eapply wp_bind_spec.
      * apply wp_conj; [apply wp_conj|];
          [apply gen_next_raw_transform_spec
          |apply gen_next_raw_transform_rows
          |apply gen_next_raw_transform_counts].
      * intros e s ((((_ & _ & _ & H4 & H5) & _) & _) & (H6 & _)).
        cbn in *. split; [|discriminate].
        destruct Hk as (K1 & K2 & K3). repeat split; congruence.
      * intros [] s ((((_ & _ & H3 & H4 & H5) & _) & Hrows) & (H6 & Hest)).
        cbn in *. destruct (Hrows eq_refl) as [Hr Ht].
        specialize (Hest eq_refl). rewrite Hsnd in H3.
        eapply wp_mono.
        -- apply IH.
           ++ rewrite H3. cbn. exact Hf.
           ++ rewrite H3. cbn. lia.
           ++ destruct Hk as (K1 & K2 & K3). repeat split; congruence.
        -- cbn. intros r s' (Hk' & Hc). split; [exact Hk'|].
           intros E. specialize (Hc E). rewrite H3 in Hc. cbn in Hc. lia.
    + split; [exact Hk|]. intros _. cbn.
      rewrite (vc_read_none _ Heqo).
      rewrite vc_read_fst, Hf in Heqo. apply nth_error_None in Heqo. lia.
Qed.

End Analysis.

Section AnalysisTheorem.
Context {F : Type} {SF : Scalar F} {CV : OpenCV F} {SM : Smoother F}.

(** X9. [gen_transforms], from any instance: it never renders and never
    touches the writer, and it stores the window; when it returns
    normally the clip has at least one frame, every frame of it was
    read, one motion was estimated for each frame after the first, as
    many rows were added to (not put in place of) the recorded deltas
    and the trajectory, and the three arrays are in place. *)
Theorem gen_transforms_reads_all (input : list Frame) (fps : Z)
  (smoothing_window : nat) (st : VidStab) :
  let r := gen_transforms input fps smoothing_window st in
  render_log (snd r) = render_log st /\
  writer (snd r) = writer st /\
  _smoothing_window (snd r) = Some smoothing_window /\
  (fst r = inr tt ->
   1 <= length input /\
   vc_pos (vid_cap (snd r)) = length input /\
   estimations (snd r) = estimations st + (length input - 1) /\
   length (_raw_transforms (snd r))
   = length (_raw_transforms st) + (length input - 1) /\
   length (_trajectory (snd r))
   = length (_trajectory st) + (length input - 1) /\
   transforms_ok (snd r)).
Proof.
  cbv zeta.
  change (wp (gen_transforms input fps smoothing_window)
            (fun r st' =>
               render_log st' = render_log st /\
               writer st' = writer st /\
               _smoothing_window st' = Some smoothing_window /\
               (r = inr tt ->
                1 <= length input /\
                vc_pos (vid_cap st') = length input /\
                estimations st' = estimations st + (length input - 1) /\
                length (_raw_transforms st')
                = length (_raw_transforms st) + (length input - 1) /\
                length (_trajectory st')
                = length (_trajectory st) + (length input - 1) /\
                transforms_ok st')) st).
  unfold gen_transforms, open_capture, _init_trajectory, read_frame.
  wp_steps; [|cbn; repeat split; discriminate].
  cbn in Heqo.
  assert (Hlen : 1 <= length input).
  { destruct input; [discriminate|simpl; lia]. }
  eapply wp_bind_spec.
  - apply (init_loop_all input smoothing_window
             (upd__smoothing_window (Some smoothing_window) st)).
    + cbn. destruct input; [discriminate|reflexivity].
    + cbn. destruct input; [discriminate|simpl; lia].
    + cbn. repeat split.
  - intros e s ((K1 & K2 & K3) & _). cbn in *.
    split; [exact K1|]. split; [exact K2|]. split; [exact K3|].
    discriminate.
  - intros [] s ((K1 & K2 & K3) & Hc). cbn in *.
    destruct (Hc eq_refl) as (C1 & C2 & C3 & C4).
    assert (Hpos : vc_pos (snd (vc_read (mkCapture input 0 fps))) = 1).
    { destruct input; [discriminate|reflexivity]. }
    rewrite Hpos in *.
    eapply wp_mono.
    + apply wp_conj; [apply gen_transforms_spec|apply gen_transforms_counts].
    + intros r s' (((_ & _ & G3 & G4 & G5) & Graw & Gok) & (G6 & G7 & G8)).
      split; [congruence|]. split; [congruence|]. split; [congruence|].
      intros E. split; [exact Hlen|]. split; [congruence|].
      split; [lia|]. split; [rewrite Graw; lia|].
      split; [rewrite G8; lia|]. apply Gok. exact E.
Qed.

(** X10. During one call of [stabilize] every frame is warped to one
    and the same shape, whatever the shapes of the frames of the clip:
    the shape is fixed by the first frame popped and the border size
    (lines 222-225, 264-271). Without a layering function the frames
    written are these warps. *)
Theorem warped_frames_share_shape (input : list Frame) (fps : Z)
  (output_path : string) (smoothing_window : nat) (max_frames : frame_cap)
  (border_type : string) (border_size : Z)
  (layer_func : option (Frame -> Frame -> Frame))
  (playback use_stored_transforms : bool) (output_fourcc : string)
  (st : VidStab) :
  exists evs,
    render_log
      (snd (stabilize input fps output_path smoothing_window max_frames
              border_type border_size layer_func playback
              use_stored_transforms output_fourcc st))
    = render_log st ++ evs /\
    (forall e1 e2, In e1 evs -> In e2 evs ->
       frame_shape (ev_warped e1) = frame_shape (ev_warped e2)) /\
    (layer_func = None -> Forall (fun e => ev_out e = ev_warped e) evs).
Proof.
  pose (Q := fun (shape : Z * Z) (e : @RenderEvent F Frame) =>
               frame_shape (ev_warped e) = shape /\
               (layer_func = None -> ev_out e = ev_warped e)).
  assert (Hfinal : forall (shape : Z * Z) (st' : VidStab),
            log_extended (Q shape) st st' ->
            exists evs,
              render_log st' = render_log st ++ evs /\
              (forall e1 e2, In e1 evs -> In e2 evs ->
                 frame_shape (ev_warped e1) = frame_shape (ev_warped e2)) /\
              (layer_func = None ->
               Forall (fun e => ev_out e = ev_warped e) evs)).
  { intros shape st' (evs & Hl & Hall). exists evs. split; [exact Hl|].
    rewrite Forall_forall in Hall. split.
    - intros e1 e2 H1 H2.
      rewrite (proj1 (Hall e1 H1)), (proj1 (Hall e2 H2)). reflexivity.
    - intros Hn. apply Forall_forall. intros e He.
      apply (proj2 (Hall e He) Hn). }
  enough (HP : wp (stabilize input fps output_path smoothing_window max_frames
                     border_type border_size layer_func playback
                     use_stored_transforms output_fourcc)
                  (fun _ st' => exists shape, log_extended (Q shape) st st')
                  st).
  { destruct HP as (shape & Hs). exact (Hfinal shape _ Hs). }
  assert (Hnil : forall st' : VidStab,
            render_log st' = render_log st ->
            exists shape, log_extended (Q shape) st st').
  { intros st' E. exists (0, 0)%Z. apply log_extended_nil. exact E. }
  assert (Hloop : forall output_path' b bs nbs h w shape,
            (forall f m, frame_shape (warp_and_crop b bs nbs h w f m) = shape) ->
            forall fuel prev grabbed (st1 : VidStab),
            log_extended (Q shape) st st1 ->
            wp (apply_loop output_path' max_frames smoothing_window
                  output_fourcc b bs nbs h w layer_func playback
                  fuel prev grabbed)
               (fun _ st' => log_extended (Q shape) st st') st1).
  { intros output_path' b bs nbs h w shape Hshape.
    induction fuel as [|fuel IH]; intros prev grabbed st1 Hl.
    - apply wp_raise. exact Hl.
    - cbn [apply_loop]. wp_steps; [|exact Hl].
      unfold apply_iteration, read_frame. wp_steps.
      eapply wp_bind_spec; [apply enqueue_frame_io| |].
      + intros e s (_ & _ & E & _). cbn in E.
        eapply log_extended_same; [exact E|exact Hl].
      + intros [] s (_ & _ & E & _). cbn in E.
        assert (Hs : log_extended (Q shape) st s)
          by (eapply log_extended_same; [exact E|exact Hl]).
        unfold render_next, popleft_index, popleft_frame, _init_writer,
          write_frame.
        wp_steps; cbn.
        all: try exact Hs.
        all: try apply IH.
        all: eapply (log_extended_snoc _ st s); [exact Hs| |reflexivity];
          split; cbn; [apply Hshape|];
          intros ->; reflexivity. }
  assert (Hshape : forall b bs nbs h w,
            exists shape, forall f m,
              frame_shape (warp_and_crop b bs nbs h w f m) = shape).
  { intros b bs nbs h w.
    exists (py_slice_len (h + bs * 2) (bs + nbs) (h + bs * 2 - (bs + nbs)),
            py_slice_len (w + bs * 2) (bs + nbs) (w + bs * 2 - (bs + nbs)))%Z.
    intros f m. unfold warp_and_crop.
    rewrite slice2_shape, !warpAffine_shape. reflexivity. }
  assert (Hrun : forall output_path' border_type' (st1 : VidStab),
            render_log st1 = render_log st ->
            wp (_apply_transforms output_path' max_frames smoothing_window
                  output_fourcc border_type' border_size layer_func playback)
               (fun _ st' => exists shape, log_extended (Q shape) st st') st1).
  { intros output_path' border_type' st1 Hl.
    unfold _apply_transforms, popleft_frame, release_writer.
    wp_steps; try (apply Hnil; exact Hl).
    match goal with
    | |- wp (bind (apply_loop _ _ _ _ ?b ?bs ?nbs ?h ?w _ _ _ _ _) _) _ _ =>
      destruct (Hshape b bs nbs h w) as (shape & Hsh)
    end.
    eapply wp_bind_spec.
    - apply (Hloop _ _ _ _ _ _ shape Hsh). apply log_extended_nil. exact Hl.
    - intros e s' Hs'. exists shape. exact Hs'.
    - intros [] s' Hs'. wp_steps; exists shape; exact Hs'. }
  unfold stabilize, stabilize_setup, open_capture. wp_steps.
  - eapply wp_bind_spec;
      [apply init_trajectory_compensated; apply Forall_nil| |].
    + intros e s (Hl & _). cbn in Hl. apply Hnil. exact Hl.
    + intros [] s (Hl & _). cbn in Hl. apply Hrun. exact Hl.
  - apply Hrun. reflexivity.
Qed.

End AnalysisTheorem.

(** An analysis of four frames, window 3: three fits, three rows. *)
Example gen_transforms_clip4 :
  let r := run (gen_transforms (clip 4) 30 3) __init__ in
  fst r = inr tt /\
  vc_pos (vid_cap (snd r)) = 4 /\
  estimations (snd r) = 3 /\
  length (_raw_transforms (snd r)) = 3 /\
  option_map (@length _) (transforms (snd r)) = Some 3 /\
  render_log (snd r) = [] /\ writer (snd r) = None.
Proof. vm_compute. repeat split. Qed.

(** Frames of four different shapes come out in one shape, that of the
    second frame of the clip, the first to be popped. *)
Example mixed_shapes_one_output_shape :
  let input := [Src 0 40 60; Src 1 30 30; Src 2 50 80; Src 3 10 10;
                Src 4 40 60] in
  let r := run (stabilize input 30 "out" 3 Unbounded "black" 0 None
                  false false "MJPG") __init__ in
  fst r = inr tt /\
  map (fun e => image_shape (ev_warped e)) (render_log (snd r))
  = [(30, 30); (30, 30); (30, 30)]%Z.
Proof. vm_compute. split; reflexivity. Qed.

(** ** The loops end *)

Section Termination.
Context {F : Type} {SF : Scalar F} {CV : OpenCV F} {SM : Smoother F}.

(** X1. The two [while] loops always end: each pass of the loop of
    [_init_trajectory] reads a frame of the clip, and each pass of the
    loop of [_apply_transforms] reads one or takes one from the queue,
    so the passes of a call are bounded by the frames left in the clip
    plus those queued. No call of [stabilize], [gen_transforms] or
    [apply_transforms] uses up this bound, whatever the instance and
    the arguments. *)
Theorem public_methods_end (input : list Frame) (fps : Z)
  (output_path : string) (smoothing_window : nat) (max_frames : frame_cap)
  (border_type : string) (border_size : Z)
  (layer_func : option (Frame -> Frame -> Frame))
  (playback use_stored_transforms : bool) (output_fourcc : string)
  (st : VidStab) :
  fst (stabilize input fps output_path smoothing_window max_frames
         border_type border_size layer_func playback use_stored_transforms
         output_fourcc st) <> inl FuelExhausted /\
  fst (gen_transforms input fps smoothing_window st) <> inl FuelExhausted /\
  fst (apply_transforms input fps output_path output_fourcc border_type
         border_size layer_func playback st) <> inl FuelExhausted.
Proof.
  split; [apply stabilize_ends|]. split; [apply gen_transforms_ends|].
  unfold apply_transforms, bind, gets.
  destruct (_smoothing_window st) as [w|]; cbn; [|discriminate].
  apply stabilize_ends.
Qed.

End Termination.

(** ** The first frame of the clip and the shape of the output *)

Section FirstFrameShape.
Context {F : Type} {SF : Scalar F} {CV : OpenCV F} {SM : Smoother F}.






End FirstFrameShape.


